(** * Request interpretation and field projection of the GraphQL mocking core

    A shallow embedding of [pickOperationFields] (the field projector),
    [parseDocumentNode] / [parseGraphQLRequest] (the document analyzer and the
    transport normalizer) and [GraphQLHandler.predicate] (the operation
    matcher), with the properties their specification states about them. *)

From Stdlib Require Import ZArith Lia Ascii String.
From stdpp Require Import base option list strings gmap pretty.

Set Default Proof Using "Type".
Set Warnings "-register-all,-clear-no-such-hyp".
Open Scope string_scope.
Open Scope list_scope.

(** ** Results of computations that may throw *)

(** The errors the modelled functions throw, kept structured; [error_message]
    renders the text of the JavaScript [Error]. *)
Inductive Error :=
| InferTypeError (path : string)
| OperationNotFound (operationName : option string)
| GraphQLError (message : string)
| PlainError (message : string).

(** A computation returns a value, throws, or exhausts the recursion budget
    that stands for the JavaScript call stack. *)
Inductive Res (A : Type) :=
| Ok (a : A)
| Throw (e : Error)
| OutOfFuel.
Arguments Ok {A} a.
Arguments Throw {A} e.
Arguments OutOfFuel {A}.

Definition res_bind {A B} (m : Res A) (k : A -> Res B) : Res B :=
  match m with
  | Ok a => k a
  | Throw e => Throw e
  | OutOfFuel => OutOfFuel
  end.

Notation "'let*' x ':=' m 'in' k" := (res_bind m (fun x => k))
  (at level 10, x name, m at level 100, k at level 200).

Fixpoint mapM_res {A B} (f : A -> Res B) (l : list A) : Res (list B) :=
  match l with
  | [] => Ok []
  | x :: r => let* y := f x in let* ys := mapM_res f r in Ok (y :: ys)
  end.

Fixpoint foldM_res {A S} (f : S -> A -> Res S) (s : S) (l : list A) : Res S :=
  match l with
  | [] => Ok s
  | x :: r => let* s' := f s x in foldM_res f s' r
  end.

Definition dq : string := String "034"%char EmptyString.
Definition quoted (s : string) : string := dq +:+ s +:+ dq.

Definition error_message (e : Error) : string :=
  match e with
  | InferTypeError path =>
      "Unable to infer object type. Ensure " +:+ quoted path +:+ " includes __typename."
  | OperationNotFound (Some name) =>
      "Unable to find operation named " +:+ quoted name
  | OperationNotFound None =>
      "Unable to find anonymous query, pass operationName to choose an operation"
  | GraphQLError m => m
  | PlainError m => m
  end.

(** ** JavaScript values and the object graph *)

(** Payload values.  Objects and arrays live in a store and are referred to
    by address, so that a payload may share objects and contain cycles. *)
Abbreviation addr := nat.

Inductive Value :=
| VUndefined
| VNull
| VBool (b : bool)
| VNum (z : Z)
| VStr (s : string)
| VRef (a : addr).

#[global] Instance Value_eq_dec : EqDecision Value.
Proof. solve_decision. Defined.

(** An object is the list of its own properties in insertion order; an array
    is the list of its elements.  Inherited properties are not modelled: the
    objects are plain ones, whose prototype is [Object.prototype], and a
    property that depends on what a name finds there says so (see
    [inherited]). *)
Inductive HeapObj :=
| HObj (props : list (string * Value))
| HArr (items : list Value).

Abbreviation Heap := (list HeapObj).

Fixpoint assoc {A} (k : string) (l : list (string * A)) : option A :=
  match l with
  | [] => None
  | (k', v) :: r => if String.eqb k k' then Some v else assoc k r
  end.

(** [o[k] = v] on a record of own properties: an existing key keeps its
    position, a new key is appended. *)
Fixpoint setProp {A} (k : string) (v : A) (l : list (string * A)) : list (string * A) :=
  match l with
  | [] => [(k, v)]
  | (k', v') :: r => if String.eqb k k' then (k, v) :: r else (k', v') :: setProp k v r
  end.

(** [o.hasOwnProperty(k)] for the object at [a]. *)
Definition hasOwnProperty (h : Heap) (a : addr) (k : string) : bool :=
  match h !! a with
  | Some (HObj props) => bool_decide (is_Some (assoc k props))
  | Some (HArr items) => String.eqb k "length"
  | None => false
  end.

(** [o[k]] for the object at [a]; field names are GraphQL names, never array
    indices, so the only own property of an array they can hit is [length]. *)
Definition getProp (h : Heap) (a : addr) (k : string) : Value :=
  match h !! a with
  | Some (HObj props) => default VUndefined (assoc k props)
  | Some (HArr items) =>
      if String.eqb k "length" then VNum (Z.of_nat (length items)) else VUndefined
  | None => VUndefined
  end.

(** The own properties of [Object.prototype].  On a plain object a read
    [o[k]], a test [k in o] or a call [o.k(...)] with one of these names finds
    the inherited member when the object does not carry the name itself. *)
Definition objectPrototype : list string :=
  [ "constructor"; "__defineGetter__"; "__defineSetter__"; "hasOwnProperty";
    "__lookupGetter__"; "__lookupSetter__"; "isPrototypeOf";
    "propertyIsEnumerable"; "toString"; "valueOf"; "__proto__";
    "toLocaleString" ].

(** A name that every plain object inherits. *)
Definition inherited (k : string) : bool := bool_decide (k ∈ objectPrototype).

(** [Array.isArray(v)], returning the elements. *)
Definition asArray (h : Heap) (v : Value) : option (list Value) :=
  match v with
  | VRef a => match h !! a with Some (HArr items) => Some items | _ => None end
  | _ => None
  end.

(** The projected result: freshly built objects and arrays, whose leaves are
    the payload's values (references into the payload's store included). *)
Inductive Out :=
| OVal (v : Value)
| OArr (items : list Out)
| OObj (props : list (string * Out)).

(** ** Documents *)

Inductive OperationTypeNode := QUERY | MUTATION | SUBSCRIPTION.

#[global] Instance OperationTypeNode_eq_dec : EqDecision OperationTypeNode.
Proof. solve_decision. Defined.

(** The value of a directive's [if] argument. *)
Inductive ArgValue :=
| AVar (name : string)
| ABool (b : bool)
| ANull
| AOther.

Record DirectiveNode := {
  dir_name : string;
  dir_if : option ArgValue;
}.

Inductive Selection :=
| Field (alias : option string) (name : string) (directives : list DirectiveNode)
        (selectionSet : option (list Selection))
| FragmentSpread (name : string) (directives : list DirectiveNode)
| InlineFragment (typeCondition : option string) (directives : list DirectiveNode)
                 (selectionSet : list Selection).

Abbreviation SelectionSetNode := (list Selection).

Record FieldNode := {
  field_alias : option string;
  field_name : string;
  field_directives : list DirectiveNode;
  field_selectionSet : option SelectionSetNode;
}.

Record FragmentDefinitionNode := {
  frag_name : string;
  frag_typeCondition : string;
  frag_selectionSet : SelectionSetNode;
}.

Record OperationDefinitionNode := {
  op_operation : OperationTypeNode;
  op_name : option string;
  op_selectionSet : SelectionSetNode;
}.

Inductive DefinitionNode :=
| OperationDefinition (d : OperationDefinitionNode)
| FragmentDefinition (d : FragmentDefinitionNode)
| OtherDefinition.

Record DocumentNode := { definitions : list DefinitionNode }.

(** ** The type registry *)

Record GraphQLNamedType := {
  type_name : string;
  type_abstract : bool;
  type_possible : list string;
}.

Record GraphQLSchema := {
  schema_types : list GraphQLNamedType;
  schema_query : option GraphQLNamedType;
  schema_mutation : option GraphQLNamedType;
  schema_subscription : option GraphQLNamedType;
}.

Definition getType (schema : GraphQLSchema) (name : string) : option GraphQLNamedType :=
  List.find (fun t => String.eqb (type_name t) name) (schema_types schema).

Definition getRootType (schema : GraphQLSchema) (operation : OperationTypeNode)
  : option GraphQLNamedType :=
  match operation with
  | QUERY => schema_query schema
  | MUTATION => schema_mutation schema
  | SUBSCRIPTION => schema_subscription schema
  end.

(** Modelled from the spec: [new GraphQLSchema({})] of the graphql package,
    which is not part of the sources.  It stands for the absence of a schema:
    a registry that resolves no type name and has no root type (the
    schema-less strategy, "always unresolved, never required").  The types
    that the package itself adds to every schema ([String], [Boolean] and the
    introspection types) are left out of the registry. *)
Definition dummySchema : GraphQLSchema :=
  {| schema_types := []; schema_query := None;
     schema_mutation := None; schema_subscription := None |}.

(** ** Field collection

    Modelled from the spec: [collectFields] of the graphql package
    (graphql/execution/collectFields), which is not part of the sources.  It
    follows section 4.4, steps 1 and 2: fields are grouped under their
    response key in order of first occurrence; a fragment spread splices in
    the named fragment once per collection; an inline fragment or a fragment
    is spliced in when its type condition matches the runtime type; [@skip]
    and [@include] are evaluated against the runtime variables. *)

Definition directive_if_error (reason : string) : Error :=
  GraphQLError ("Argument " +:+ quoted "if" +:+ " of required type "
                +:+ quoted "Boolean!" +:+ " " +:+ reason).

(** The coerced [if] argument of the first directive called [dname], if the
    node carries one. *)
Definition getDirectiveIf (dname : string) (directives : list DirectiveNode)
    (variableValues : gmap string Value) : Res (option Value) :=
  match List.find (fun d => String.eqb (dir_name d) dname) directives with
  | None => Ok None
  | Some d =>
      match dir_if d with
      | None => Throw (directive_if_error "was not provided.")
      | Some (ABool b) => Ok (Some (VBool b))
      | Some (AVar x) =>
          match variableValues !! x with
          | None => Throw (directive_if_error "was provided a variable without a runtime value.")
          | Some VUndefined | Some VNull => Throw (directive_if_error "must not be null.")
          | Some v => Ok (Some v)
          end
      | Some ANull => Throw (directive_if_error "must not be null.")
      | Some AOther => Throw (directive_if_error "has invalid value.")
      end
  end.

Definition shouldIncludeNode (variableValues : gmap string Value)
    (directives : list DirectiveNode) : Res bool :=
  let* skip := getDirectiveIf "skip" directives variableValues in
  if bool_decide (skip = Some (VBool true)) then Ok false
  else
    let* include := getDirectiveIf "include" directives variableValues in
    if bool_decide (include = Some (VBool false)) then Ok false
    else Ok true.

Definition same_type (a b : option GraphQLNamedType) : bool :=
  match a, b with
  | None, None => true
  | Some x, Some y => String.eqb (type_name x) (type_name y)
  | _, _ => false
  end.

Definition isSubType (abstractType : GraphQLNamedType)
    (maybeSubType : option GraphQLNamedType) : bool :=
  match maybeSubType with
  | Some t => bool_decide (type_name t ∈ type_possible abstractType)
  | None => false
  end.

Definition doesFragmentConditionMatch (schema : GraphQLSchema)
    (typeCondition : option string) (type : option GraphQLNamedType) : bool :=
  match typeCondition with
  | None => true
  | Some name =>
      let conditionalType := getType schema name in
      if same_type conditionalType type then true
      else match conditionalType with
           | Some t => type_abstract t && isSubType t type
           | None => false
           end
  end.

#[global] Arguments shouldIncludeNode : simpl never.
#[global] Arguments doesFragmentConditionMatch : simpl never.

Definition getFieldEntryKey (node : FieldNode) : string :=
  match field_alias node with
  | Some a => a
  | None => field_name node
  end.

(** The [Map<string, FieldNode[]>] under construction, in insertion order. *)
Abbreviation FieldMap := (list (string * list FieldNode)).

Definition addField (node : FieldNode) (fields : FieldMap) : FieldMap :=
  let key := getFieldEntryKey node in
  match assoc key fields with
  | Some fieldList => setProp key (fieldList ++ [node]) fields
  | None => fields ++ [(key, [node])]
  end.

Record CollectState := {
  cs_fields : FieldMap;
  cs_visited : gset string;
}.

Section collect.
Context (schema : GraphQLSchema)
        (fragments : gmap string FragmentDefinitionNode)
        (variableValues : gmap string Value)
        (runtimeType : option GraphQLNamedType).

Section selections.
(** The call that descends into the selection set of a spread fragment. *)
Variable spread : SelectionSetNode -> CollectState -> Res CollectState.

Fixpoint collectSelection (selection : Selection) (st : CollectState)
  : Res CollectState :=
  match selection with
  | Field alias name directives selectionSet =>
      let* inc := shouldIncludeNode variableValues directives in
      if inc then
        Ok {| cs_fields :=
                addField {| field_alias := alias; field_name := name;
                            field_directives := directives;
                            field_selectionSet := selectionSet |}
                         (cs_fields st);
              cs_visited := cs_visited st |}
      else Ok st
  | InlineFragment typeCondition directives selectionSet =>
      let* inc := shouldIncludeNode variableValues directives in
      if inc && doesFragmentConditionMatch schema typeCondition runtimeType then
        (fix each (l : list Selection) (st : CollectState) : Res CollectState :=
           match l with
           | [] => Ok st
           | s :: r => let* st' := collectSelection s st in each r st'
           end) selectionSet st
      else Ok st
  | FragmentSpread fragName directives =>
      if bool_decide (fragName ∈ cs_visited st) then Ok st
      else
        let* inc := shouldIncludeNode variableValues directives in
        if inc then
          let st' := {| cs_fields := cs_fields st;
                        cs_visited := {[fragName]} ∪ cs_visited st |} in
          match fragments !! fragName with
          | Some fragment =>
              if doesFragmentConditionMatch schema
                   (Some (frag_typeCondition fragment)) runtimeType
              then spread (frag_selectionSet fragment) st'
              else Ok st'
          | None => Ok st'
          end
        else Ok st
  end.

Definition collectSelections (l : SelectionSetNode) (st : CollectState)
  : Res CollectState :=
  foldM_res (fun st s => collectSelection s st) st l.
End selections.

(** [collectFieldsImpl]; the budget bounds the nesting of fragment spreads,
    which never exceeds the number of fragments since each is visited once. *)
Fixpoint collectFieldsImpl (budget : nat) (selectionSet : SelectionSetNode)
    (st : CollectState) : Res CollectState :=
  match budget with
  | 0 => OutOfFuel
  | S n => collectSelections (collectFieldsImpl n) selectionSet st
  end.

Definition collectFields (selectionSet : SelectionSetNode) : Res FieldMap :=
  let* st := collectFieldsImpl (S (size fragments)) selectionSet
               {| cs_fields := []; cs_visited := ∅ |} in
  Ok (cs_fields st).
End collect.

(** ** The field projector (src/utils/internal/pickOperationFields.ts) *)

Definition anonymousOperationKey : string := "__anonymous_operation".

(** [s || fallback] on an optional string: the empty string is falsy. *)
Definition or_else (s : option string) (fallback : string) : string :=
  match s with
  | Some (String c r) => String c r
  | _ => fallback
  end.

Definition isFragmentDefinition (definition : DefinitionNode) : bool :=
  match definition with FragmentDefinition _ => true | _ => false end.

Definition isOperationDefinition (definition : DefinitionNode) : bool :=
  match definition with OperationDefinition _ => true | _ => false end.

Definition asFragmentDefinition (definition : DefinitionNode)
  : option FragmentDefinitionNode :=
  match definition with FragmentDefinition d => Some d | _ => None end.

Definition asOperationDefinition (definition : DefinitionNode)
  : option OperationDefinitionNode :=
  match definition with OperationDefinition d => Some d | _ => None end.

Definition operationKey (definition : OperationDefinitionNode) : string :=
  or_else (op_name definition) anonymousOperationKey.

Record Definitions := {
  fragments : gmap string FragmentDefinitionNode;
  operations : gmap string OperationDefinitionNode;
}.

Definition extractDefinitions (documentNode : DocumentNode) : Definitions :=
  let defs := definitions documentNode in
  {| fragments :=
       foldl (fun m definition => <[frag_name definition := definition]> m) ∅
             (omap asFragmentDefinition (List.filter isFragmentDefinition defs));
     operations :=
       foldl (fun m definition => <[operationKey definition := definition]> m) ∅
             (omap asOperationDefinition (List.filter isOperationDefinition defs)) |}.

Fixpoint mapiM_res {A B} (f : nat -> A -> Res B) (i : nat) (l : list A)
  : Res (list B) :=
  match l with
  | [] => Ok []
  | x :: r => let* y := f i x in let* ys := mapiM_res f (S i) r in Ok (y :: ys)
  end.

Definition fieldPathOf (path name : string) : string := path +:+ "." +:+ name.

Definition itemPathOf (path name : string) (i : nat) : string :=
  path +:+ "." +:+ name +:+ "[" +:+ pretty i +:+ "]".

(** All field nodes of a field map, in the order [forEach] visits them. *)
Definition fieldNodes (fieldMap : FieldMap) : list FieldNode :=
  concat (map snd fieldMap).

Section pick.
(** The store holding the payload, and the arguments that stay fixed along
    the recursion.  [schema] is [None] when the caller passes no schema and
    the parameter defaults to [dummySchema]: the dummy is private to the
    module, so a caller's schema is never identical to it. *)
Context (h : Heap)
        (schema : option GraphQLSchema)
        (fragments : gmap string FragmentDefinitionNode)
        (variables : gmap string Value).

Definition schemaOf : GraphQLSchema := default dummySchema schema.

(** The runtime type inferred from [__typename]. *)
Definition runtimeObjectOf (a : addr) : option GraphQLNamedType :=
  match getProp h a "__typename" with
  | VStr t => getType schemaOf t
  | _ => None
  end.

Definition pickField
    (pickSelectionSet : string -> addr -> SelectionSetNode ->
                        option GraphQLNamedType -> Res Out)
    (fieldPath : string) (fieldNode : FieldNode) (fieldData : Value) : Res Out :=
  match field_selectionSet fieldNode, fieldData with
  | Some selectionSet, VRef a =>
      let runtimeObject := runtimeObjectOf a in
      match schema, runtimeObject with
      | Some _, None => Throw (InferTypeError fieldPath)
      | _, _ => pickSelectionSet fieldPath a selectionSet runtimeObject
      end
  | _, _ => Ok (OVal fieldData)
  end.

(** One iteration of the inner [forEach]: project the field out of [data]
    and assign it to [pickedData]. *)
Definition pickInto
    (pick : string -> FieldNode -> Value -> Res Out)
    (path : string) (data : addr)
    (pickedData : list (string * Out)) (fieldNode : FieldNode)
  : Res (list (string * Out)) :=
  let name := field_name fieldNode in
  let fieldData := getProp h data name in
  let* v :=
    match asArray h fieldData with
    | Some items =>
        let* picked :=
          mapiM_res (fun i fieldItemData =>
                       pick (itemPathOf path name i) fieldNode fieldItemData)
                    0 items in
        Ok (OArr picked)
    | None => pick (fieldPathOf path name) fieldNode fieldData
    end in
  Ok (setProp name v pickedData).

(** [fuel] bounds the depth of the recursion through nested selections. *)
Fixpoint pickSelectionSet (fuel : nat) (path : string) (data : addr)
    (selectionSet : SelectionSetNode)
    (runtimeObject : option GraphQLNamedType) : Res Out :=
  match fuel with
  | 0 => OutOfFuel
  | S n =>
      let* fieldMap :=
        collectFields schemaOf fragments variables runtimeObject selectionSet in
      let* pickedData :=
        foldM_res (pickInto (pickField (pickSelectionSet n)) path data)
                  [] (fieldNodes fieldMap) in
      Ok (OObj pickedData)
  end.
End pick.

Definition pickOperationFields (fuel : nat) (h : Heap) (data : addr)
    (documentNode : DocumentNode) (operationName : option string)
    (variables : option (gmap string Value))
    (schema : option GraphQLSchema) : Res Out :=
  let defs := extractDefinitions documentNode in
  match operations defs !! or_else operationName anonymousOperationKey with
  | None =>
      Throw (OperationNotFound
               (match operationName with
                | Some (String c r) => Some (String c r)
                | _ => None
                end))
  | Some operation =>
      pickSelectionSet h schema (fragments defs) (default ∅ variables)
        fuel "data" data (op_selectionSet operation)
        (getRootType (schemaOf schema) (op_operation operation))
  end.

(** ** The projector without a schema parameter

    The variant of pickOperationFields.ts that takes no schema: it always
    collects against [dummySchema] with no runtime type, and copies a field
    only when the payload object has it as an own property. *)
Module OwnProps.
Section pick.
Context (h : Heap)
        (fragments : gmap string FragmentDefinitionNode)
        (variables : gmap string Value).

Definition pickField
    (pickSelectionSet : addr -> SelectionSetNode -> Res Out)
    (fieldNode : FieldNode) (fieldData : Value) : Res Out :=
  match field_selectionSet fieldNode, fieldData with
  | Some selectionSet, VRef a => pickSelectionSet a selectionSet
  | _, _ => Ok (OVal fieldData)
  end.

Definition pickInto
    (pick : FieldNode -> Value -> Res Out) (data : addr)
    (pickedData : list (string * Out)) (fieldNode : FieldNode)
  : Res (list (string * Out)) :=
  let name := field_name fieldNode in
  if hasOwnProperty h data name then
    let fieldData := getProp h data name in
    let* v :=
      match asArray h fieldData with
      | Some items =>
          let* picked := mapM_res (pick fieldNode) items in
          Ok (OArr picked)
      | None => pick fieldNode fieldData
      end in
    Ok (setProp name v pickedData)
  else Ok pickedData.

Fixpoint pickSelectionSet (fuel : nat) (data : addr)
    (selectionSet : SelectionSetNode) : Res Out :=
  match fuel with
  | 0 => OutOfFuel
  | S n =>
      let* fieldMap :=
        collectFields dummySchema fragments variables None selectionSet in
      let* pickedData :=
        foldM_res (pickInto (pickField (pickSelectionSet n)) data)
                  [] (fieldNodes fieldMap) in
      Ok (OObj pickedData)
  end.
End pick.

Definition pickOperationFields (fuel : nat) (h : Heap) (data : addr)
    (documentNode : DocumentNode) (operationName : option string)
    (variables : option (gmap string Value)) : Res Out :=
  let defs := extractDefinitions documentNode in
  match operations defs !! or_else operationName anonymousOperationKey with
  | None =>
      Throw (OperationNotFound
               (match operationName with
                | Some (String c r) => Some (String c r)
                | _ => None
                end))
  | Some operation =>
      pickSelectionSet h (fragments defs) (default ∅ variables)
        fuel data (op_selectionSet operation)
  end.
End OwnProps.

(** ** Test data: the cyclic sibling pair of data.test.ts *)

Definition leaf (name : string) : Selection := Field None name [] None.
Definition node (name : string) (sub : SelectionSetNode) : Selection :=
  Field None name [] (Some sub).
Definition query (name : option string) (sels : SelectionSetNode) : DefinitionNode :=
  OperationDefinition {| op_operation := QUERY; op_name := name; op_selectionSet := sels |}.

(** Store: 0 the payload [{user: jack}], 1 jack, 2 jill, 3 jack.siblings,
    4 jill.siblings. *)
Definition siblingsHeap : Heap :=
  [ HObj [("user", VRef 1)];
    HObj [("__typename", VStr "User"); ("id", VStr "1234567890"); ("name", VStr "Jack");
          ("siblings", VRef 3); ("eldestSibling", VRef 2); ("age", VNum 11)];
    HObj [("__typename", VStr "User"); ("id", VStr "0987654321"); ("name", VStr "Jill");
          ("siblings", VRef 4); ("eldestSibling", VRef 1); ("age", VNum 10)];
    HArr [VRef 2];
    HArr [VRef 1] ].

Definition siblingsQuery : DocumentNode :=
  {| definitions :=
       [ query None
           [ node "user"
               [ leaf "name"; node "siblings" [leaf "name"];
                 node "eldestSibling" [leaf "age"] ] ] ] |}.

Definition siblingsProjection : Out :=
  OObj [("user",
         OObj [("name", OVal (VStr "Jack"));
               ("siblings", OArr [OObj [("name", OVal (VStr "Jill"))]]);
               ("eldestSibling", OObj [("age", OVal (VNum 10))])])].


(** * Vocabulary of the properties *)

(** The fragments still to visit: the measure that bounds spread nesting. *)
Definition unvisited (fragments : gmap string FragmentDefinitionNode)
    (st : CollectState) : nat :=
  size (dom fragments ∖ cs_visited st).

(** A run that ends normally only adds to the visited names, and the run
    does not exhaust its budget. *)
Definition grows (st : CollectState) (r : Res CollectState) : Prop :=
  match r with
  | Ok st' => cs_visited st ⊆ cs_visited st'
  | Throw _ => True
  | OutOfFuel => False
  end.


(** The static depth of a selection set with the fragments spliced in: the
    number of nested selection sets along the deepest chain of fields, where
    a spread counts as the selections of its fragment.  It is undefined
    ([None] for every budget) exactly when following spreads never ends. *)
Definition omax (a b : option nat) : option nat :=
  match a, b with
  | Some x, Some y => Some (Nat.max x y)
  | _, _ => None
  end.

Section depth.
Context (fragments : gmap string FragmentDefinitionNode).

Section selections.
Variable spreadDepth : SelectionSetNode -> option nat.

Fixpoint selectionDepth (s : Selection) : option nat :=
  match s with
  | Field _ _ _ None => Some 0
  | Field _ _ _ (Some sub) =>
      S <$> (fix each (l : list Selection) : option nat :=
               match l with
               | [] => Some 0
               | s :: r => omax (selectionDepth s) (each r)
               end) sub
  | FragmentSpread name _ =>
      match fragments !! name with
      | Some fragment => spreadDepth (frag_selectionSet fragment)
      | None => Some 0
      end
  | InlineFragment _ _ sub =>
      (fix each (l : list Selection) : option nat :=
         match l with
         | [] => Some 0
         | s :: r => omax (selectionDepth s) (each r)
         end) sub
  end.

Definition selectionsDepth (l : SelectionSetNode) : option nat :=
  foldr (fun s d => omax (selectionDepth s) d) (Some 0) l.
End selections.

Fixpoint levelDepth (budget : nat) (selectionSet : SelectionSetNode) : option nat :=
  match budget with
  | 0 => None
  | S n => selectionsDepth (levelDepth n) selectionSet
  end.

Definition staticDepth (budget : nat) (selectionSet : SelectionSetNode) : option nat :=
  S <$> levelDepth budget selectionSet.

(** The nested selection set of a field node, if any, has static depth at
    most [d]. *)
Definition nestedBelow (d : nat) (f : FieldNode) : Prop :=
  match field_selectionSet f with
  | None => True
  | Some sub => exists budget d', staticDepth budget sub = Some d' /\ d' <= d
  end.

(** The invariant of a collection run: every collected node is within [D]. *)
Definition allBelow (D : nat) (st : CollectState) : Prop :=
  forall f, f ∈ fieldNodes (cs_fields st) -> nestedBelow D f.
End depth.

(** [r2] is the result [r1] of a run with a smaller budget, if that run
    finished. *)
Definition refines {A} (r1 r2 : Res A) : Prop := r1 = OutOfFuel \/ r2 = r1.

(** A fragment that spreads itself below a field, and the operation using it. *)
Definition cyclicFragmentQuery : DocumentNode :=
  {| definitions :=
       [ query None [ node "user" [ FragmentSpread "Sib" [] ] ];
         FragmentDefinition
           {| frag_name := "Sib"; frag_typeCondition := "User";
              frag_selectionSet :=
                [ leaf "name"; node "eldestSibling" [ FragmentSpread "Sib" [] ] ] |} ] |}.

(** A user without [age], asked for [name] and [age]. *)
Definition agelessHeap : Heap :=
  [ HObj [("user", VRef 1)]; HObj [("name", VStr "Jack")] ].

Definition nameAgeQuery : DocumentNode :=
  {| definitions := [ query None [ node "user" [ leaf "name"; leaf "age" ] ] ] |}.

(** Access paths from the response root: [.name] and [.name[i]]. *)
Inductive PathStep :=
| AtField (name : string)
| AtItem (name : string) (i : nat).

Definition renderStep (path : string) (s : PathStep) : string :=
  match s with
  | AtField name => fieldPathOf path name
  | AtItem name i => itemPathOf path name i
  end.

Definition renderPath (root : string) (steps : list PathStep) : string :=
  foldl renderStep root steps.

(** The value one step away from the object at [a]. *)
Definition stepValue (h : Heap) (a : addr) (s : PathStep) : Value :=
  match s with
  | AtField name => getProp h a name
  | AtItem name i =>
      match asArray h (getProp h a name) with
      | Some items => default VUndefined (items !! i)
      | None => VUndefined
      end
  end.

(** The object a path leads to. *)
Fixpoint navigate (h : Heap) (a : addr) (steps : list PathStep) : option addr :=
  match steps with
  | [] => Some a
  | s :: r =>
      match stepValue h a s with
      | VRef a' => navigate h a' r
      | _ => None
      end
  end.

(** Only the errors of directive evaluation. *)
Definition onlyGraphQLError {A} (r : Res A) : Prop :=
  match r with
  | Throw (GraphQLError _) | Ok _ | OutOfFuel => True
  | Throw _ => False
  end.

(** The schema of pickOperationFields.test.ts, and a business whose second
    employee has an employer without [__typename].  Store: 0 payload,
    1 business, 2 employees, 3 jack, 4 jill, 5 jill's employer. *)
Definition objectType (name : string) : GraphQLNamedType :=
  {| type_name := name; type_abstract := false; type_possible := [] |}.

Definition testSchema : GraphQLSchema :=
  {| schema_types := [objectType "Account"; objectType "Business"];
     schema_query := None; schema_mutation := None; schema_subscription := None |}.

Definition employerHeap : Heap :=
  [ HObj [("user", VNull); ("business", VRef 1)];
    HObj [("__typename", VStr "Business"); ("id", VStr "0987654321");
          ("employees", VRef 2)];
    HArr [VRef 3; VRef 4];
    HObj [("__typename", VStr "Account"); ("id", VStr "123456789");
          ("name", VStr "Jack"); ("employer", VNull)];
    HObj [("__typename", VStr "Account"); ("id", VStr "123456789");
          ("name", VStr "Jill"); ("employer", VRef 5)];
    HObj [("id", VStr "0987654321")] ].

Definition employerQuery : DocumentNode :=
  {| definitions :=
       [ query None
           [ node "user" [ leaf "id"; node "employer" [ leaf "id" ] ];
             node "business"
               [ leaf "id";
                 node "employees" [ leaf "id"; node "employer" [ leaf "id" ] ] ] ] ] |}.

(** The field node of a [Field] selection. *)
Definition fieldNodeOf (alias : option string) (name : string)
    (directives : list DirectiveNode) (sub : option SelectionSetNode) : FieldNode :=
  {| field_alias := alias; field_name := name; field_directives := directives;
     field_selectionSet := sub |}.

(** [FieldIn matches variables fragments f l]: the selections [l] select the
    field node [f] at this level, directly or through inline fragments and
    fragment spreads whose directives include them and whose type condition
    [matches]. *)
Inductive FieldIn (matches : option string -> bool)
    (variableValues : gmap string Value)
    (fragments : gmap string FragmentDefinitionNode)
  : FieldNode -> SelectionSetNode -> Prop :=
| FieldIn_field alias name directives sub l :
    Field alias name directives sub ∈ l ->
    shouldIncludeNode variableValues directives = Ok true ->
    FieldIn matches variableValues fragments (fieldNodeOf alias name directives sub) l
| FieldIn_inline typeCondition directives body f l :
    InlineFragment typeCondition directives body ∈ l ->
    shouldIncludeNode variableValues directives = Ok true ->
    matches typeCondition = true ->
    FieldIn matches variableValues fragments f body ->
    FieldIn matches variableValues fragments f l
| FieldIn_spread name directives fragment f l :
    FragmentSpread name directives ∈ l ->
    shouldIncludeNode variableValues directives = Ok true ->
    fragments !! name = Some fragment ->
    matches (Some (frag_typeCondition fragment)) = true ->
    FieldIn matches variableValues fragments f (frag_selectionSet fragment) ->
    FieldIn matches variableValues fragments f l.

(** What a collection state has taken in of a selection: an included field
    is among the collected nodes, an included spread is among the visited
    names, and an included inline fragment with a matching condition has its
    selections taken in. *)
Inductive Covered (matches : option string -> bool)
    (variableValues : gmap string Value) (st : CollectState) : Selection -> Prop :=
| Covered_field alias name directives sub :
    (shouldIncludeNode variableValues directives = Ok true ->
     fieldNodeOf alias name directives sub ∈ fieldNodes (cs_fields st)) ->
    Covered matches variableValues st (Field alias name directives sub)
| Covered_spread name directives :
    (shouldIncludeNode variableValues directives = Ok true ->
     name ∈ cs_visited st) ->
    Covered matches variableValues st (FragmentSpread name directives)
| Covered_inline typeCondition directives body :
    (shouldIncludeNode variableValues directives = Ok true ->
     matches typeCondition = true ->
     Forall (Covered matches variableValues st) body) ->
    Covered matches variableValues st (InlineFragment typeCondition directives body).

(** The selections of a visited fragment have been taken in. *)
Definition closedFragment (matches : option string -> bool)
    (variableValues : gmap string Value)
    (fragments : gmap string FragmentDefinitionNode)
    (st : CollectState) (name : string) : Prop :=
  forall fragment,
    fragments !! name = Some fragment ->
    matches (Some (frag_typeCondition fragment)) = true ->
    Forall (Covered matches variableValues st) (frag_selectionSet fragment).

(** A collection state only grows. *)
Definition stateGrows (st st' : CollectState) : Prop :=
  (forall f, f ∈ fieldNodes (cs_fields st) -> f ∈ fieldNodes (cs_fields st')) /\
  cs_visited st ⊆ cs_visited st'.

(** What a finished collection run guarantees. *)
Definition collected (matches : option string -> bool)
    (variableValues : gmap string Value)
    (fragments : gmap string FragmentDefinitionNode)
    (l : SelectionSetNode) (st : CollectState) (r : Res CollectState) : Prop :=
  match r with
  | Ok st' =>
      stateGrows st st' /\
      Forall (Covered matches variableValues st') l /\
      (forall name, name ∈ cs_visited st' -> name ∉ cs_visited st ->
                    closedFragment matches variableValues fragments st' name)
  | _ => True
  end.

Definition skipIf (x : string) : DirectiveNode :=
  {| dir_name := "skip"; dir_if := Some (AVar x) |}.
Definition includeIf (x : string) : DirectiveNode :=
  {| dir_name := "include"; dir_if := Some (AVar x) |}.

(** The test data of pickOperationFields.test.ts for conditional fragments:
    a user whose relationships are a business, an account and an untyped
    object.  Store: 0 payload, 1 user, 2 relationships, 3 business, 4 jill,
    5 combined. *)
Definition relationshipsHeap : Heap :=
  [ HObj [("user", VRef 1)];
    HObj [("name", VStr "Jack"); ("relationships", VRef 2)];
    HArr [VRef 3; VRef 4; VRef 5];
    HObj [("__typename", VStr "Business"); ("id", VStr "0864297531");
          ("type", VStr "SME")];
    HObj [("__typename", VStr "Account"); ("id", VStr "0987654321");
          ("name", VStr "Jill")];
    HObj [("id", VStr "1357902468"); ("type", VStr "unknown"); ("name", VNull)] ].

Definition relationshipsQuery : DocumentNode :=
  {| definitions :=
       [ query None
           [ node "user"
               [ node "relationships"
                   [ FragmentSpread "UserFields" [];
                     InlineFragment (Some "Business") [] [ leaf "id"; leaf "type" ] ] ] ];
         FragmentDefinition
           {| frag_name := "UserFields"; frag_typeCondition := "Account";
              frag_selectionSet := [ leaf "id"; leaf "name" ] |} ] |}.

(** [{ user { id @include(if: $includeId) @skip(if: $skipId) name } }] on a
    user with both fields. *)
Definition directiveHeap : Heap :=
  [ HObj [("user", VRef 1)];
    HObj [("id", VStr "123456789"); ("name", VStr "Jack")] ].

Definition directiveQuery : DocumentNode :=
  {| definitions :=
       [ query None
           [ node "user"
               [ Field None "id" [includeIf "includeId"; skipIf "skipId"] None;
                 leaf "name" ] ] ] |}.

Definition directiveVariables (includeId skipId : bool) : gmap string Value :=
  <["includeId" := VBool includeId]> (<["skipId" := VBool skipId]> ∅).

(** Two anonymous operations and two fragments of the same name. *)
Definition duplicatesQuery : DocumentNode :=
  {| definitions :=
       [ query None [ leaf "id" ];
         FragmentDefinition {| frag_name := "F"; frag_typeCondition := "User";
                               frag_selectionSet := [ leaf "id" ] |};
         query None [ FragmentSpread "F" [] ];
         FragmentDefinition {| frag_name := "F"; frag_typeCondition := "User";
                               frag_selectionSet := [ leaf "name" ] |} ] |}.

(** * The document analyzer, the transport normalizer and the matcher *)

(** JavaScript truthiness of an optional string. *)
Definition truthy_name (s : option string) : bool :=
  match s with
  | Some (String _ _) => true
  | _ => false
  end.

(** [`${s}`] for a string or null. *)
Definition show_name (s : option string) : string := default "null" s.

(** [defName === operationName] for a definition's name (a string or
    undefined) and a passed name (a string or null). *)
Definition same_name (defName operationName : option string) : bool :=
  match defName, operationName with
  | Some a, Some b => String.eqb a b
  | _, _ => false
  end.

Record ParsedGraphQLQuery := {
  pq_operationType : OperationTypeNode;
  pq_operationName : option string;
}.

(** ** Operation resolution written out by hand

    [parseDocumentNode] of the variant of parseGraphQLRequest.ts that inspects
    the operation definitions itself. *)
Module Analyzer.

Definition operationDefsOf (ast : DocumentNode) : list OperationDefinitionNode :=
  omap asOperationDefinition (List.filter isOperationDefinition (definitions ast)).

Definition parseDocumentNode (ast : DocumentNode) (operationName : option string)
  : Res ParsedGraphQLQuery :=
  let operationDefs := operationDefsOf ast in
  match operationDefs with
  | [operationDef] =>
      let defOperationName := op_name operationDef in
      if truthy_name defOperationName
         && negb (same_name defOperationName operationName) then
        Throw (PlainError ("Operation definition " +:+ quoted (show_name defOperationName)
                           +:+ " does not match passed operation name "
                           +:+ quoted (show_name operationName)))
      else if negb (truthy_name defOperationName)
              && negb (bool_decide (operationName = None)) then
        Throw (PlainError ("Anonymous operation definition does not match passed operation name "
                           +:+ quoted (show_name operationName)))
      else
        Ok {| pq_operationType := op_operation operationDef;
              pq_operationName := op_name operationDef |}
  | _ =>
      (* check for anonymous definition *)
      match List.find (fun def => negb (truthy_name (op_name def))) operationDefs with
      | Some _ =>
          Throw (PlainError "Anonymous operations must be the only defined operation.")
      | None =>
          (* find the operation definition to use using operationName *)
          match List.find (fun def => same_name (op_name def) operationName)
                          operationDefs with
          | None =>
              Throw (PlainError
                       ("Multiple operation definitions found but none match passed operation name "
                        +:+ quoted (show_name operationName)))
          | Some operationDef =>
              Ok {| pq_operationType := op_operation operationDef;
                    pq_operationName := op_name operationDef |}
          end
      end
  end.

End Analyzer.

(** ** JSON values of request bodies and variables *)

(** Objects and arrays alike are records of own properties (an array has the
    index keys); uploaded files are opaque. *)
Inductive JV :=
| JUndefined
| JNull
| JBool (b : bool)
| JNum (z : Z)
| JStr (s : string)
| JFile (id : string)
| JObj (isArray : bool) (props : list (string * JV)).

Definition truthy (v : JV) : bool :=
  match v with
  | JUndefined | JNull | JBool false | JNum 0%Z | JStr EmptyString => false
  | _ => true
  end.

(** [v?.k]: property access that yields undefined on null and undefined. *)
Definition jget (v : JV) (k : string) : JV :=
  match v with
  | JObj _ props => default JUndefined (assoc k props)
  | _ => JUndefined
  end.

(** [k in v]; anything but an object makes [in] throw a TypeError. *)
Definition jin (k : string) (v : JV) : Res bool :=
  match v with
  | JObj _ props => Ok (bool_decide (is_Some (assoc k props)))
  | _ => Throw (PlainError "TypeError: Cannot use 'in' operator")
  end.

(** [target[k] = x] in strict mode. *)
Definition jset (target : JV) (k : string) (x : JV) : Res JV :=
  match target with
  | JObj isArray props => Ok (JObj isArray (setProp k x props))
  | _ => Throw (PlainError "TypeError: Cannot set properties")
  end.

(** [s.split('.')]. *)
Fixpoint split_dots (s : string) : list string :=
  match s with
  | EmptyString => [EmptyString]
  | String c r =>
      if Ascii.eqb c "."%char then EmptyString :: split_dots r
      else match split_dots r with
           | [] => [String c EmptyString]
           | w :: ws => String c w :: ws
           end
  end.

(** [paths.join(',')], the text of an array in a template literal. *)
Fixpoint join_commas (l : list string) : string :=
  match l with
  | [] => EmptyString
  | [x] => x
  | x :: r => x +:+ "," +:+ join_commas r
  end.

(** ** The transport normalizer and the analyzer built on the execution
    context (the variant of parseGraphQLRequest.ts that returns the document) *)
Module Normalizer.

Record GraphQLInput := {
  in_query : JV;
  in_operationName : JV;
  in_variables : JV;
}.

Record MockedRequest := {
  req_method : string;
  req_searchParams : list (string * string);
  req_body : JV;
}.

(** [url.searchParams.get(name)]: the first value, or null. *)
Definition searchParam (request : MockedRequest) (name : string) : JV :=
  match assoc name (req_searchParams request) with
  | Some v => JStr v
  | None => JNull
  end.

Record ParsedOperations := {
  po_query : JV;
  po_variables : JV;
  po_operationName : JV;
}.

Record ParsedGraphQLRequest := {
  pr_document : DocumentNode;
  pr_operationType : OperationTypeNode;
  pr_operationName : option string;
  pr_variables : JV;
}.

(** Walk [paths] down from [target] and assign [file] under [lastPath];
    the updated [target] is returned, the source updating it in place. *)
Fixpoint assignAt (allPaths : list string) (target : JV) (paths : list string)
    (lastPath : string) (file : JV) : Res JV :=
  match paths with
  | [] => jset target lastPath file
  | path :: rest =>
      let* present := jin path target in
      if present then
        let* inner := assignAt allPaths (jget target path) rest lastPath file in
        jset target path inner
      else
        Throw (PlainError ("Property '" +:+ join_commas allPaths
                           +:+ "' is not in operations."))
  end.

Definition assignDotPath (operations : JV) (dotPath : string) (file : JV) : Res JV :=
  match rev (split_dots dotPath) with
  | [] => Ok operations
  | lastPath :: reversedPaths =>
      let paths := rev reversedPaths in
      assignAt paths operations paths lastPath file
  end.

Definition extractMultipartVariables (variables : JV)
    (map : list (string * list string)) (files : list (string * JV)) : Res JV :=
  let* operations :=
    foldM_res
      (fun operations '(key, pathArray) =>
         match assoc key files with
         | None =>
             Throw (PlainError ("Given files do not have a key '" +:+ key +:+ "' ."))
         | Some file =>
             foldM_res (fun operations dotPath => assignDotPath operations dotPath file)
                       operations pathArray
         end)
      (JObj false [("variables", variables)]) map in
  Ok (jget operations "variables").

Section normalizer.
(** The collaborators that are not part of the sources: [jsonParse] at the
    three types it is used at (undefined when the text is not JSON), the
    parser and the execution-context builder of the graphql package, and the
    public URL of a request. *)
Variable jsonParse : JV -> JV.
Variable jsonParseOperations : JV -> option ParsedOperations.
Variable jsonParseMap : JV -> option (list (string * list string)).
Variable parse : JV -> string + DocumentNode.
Variable buildExecutionContext :
  DocumentNode -> JV -> JV -> list string + (OperationDefinitionNode * JV).
Variable getPublicUrlFromRequest : MockedRequest -> string.

(** [a || b]. *)
Definition jor (a b : JV) : JV := if truthy a then a else b.

Definition getGraphQLInput (request : MockedRequest) : Res (option GraphQLInput) :=
  if String.eqb (req_method request) "GET" then
    let query := searchParam request "query" in
    let operationName := searchParam request "operationName" in
    let variables := jor (searchParam request "variables") (JStr EmptyString) in
    Ok (Some {| in_query := query; in_operationName := operationName;
                in_variables := jsonParse variables |})
  else if String.eqb (req_method request) "POST" then
    let body := req_body request in
    if truthy (jget body "query") then
      Ok (Some {| in_query := jget body "query";
                  in_operationName := jget body "operationName";
                  in_variables := jget body "variables" |})
    else if truthy (jget body "operations") then
      (* Handle multipart body operations. *)
      let operations := jget body "operations" in
      let map := jget body "map" in
      let files :=
        match body with
        | JObj _ props =>
            List.filter (fun '(k, _) => negb (String.eqb k "operations")
                                     && negb (String.eqb k "map")) props
        | _ => []
        end in
      let parsedOperations :=
        default {| po_query := JUndefined; po_variables := JUndefined;
                   po_operationName := JUndefined |}
                (jsonParseOperations operations) in
      if negb (truthy (po_query parsedOperations)) then Ok None
      else
        let parsedMap := default [] (jsonParseMap (jor map (JStr EmptyString))) in
        let* variables :=
          if truthy (po_variables parsedOperations)
          then extractMultipartVariables (po_variables parsedOperations) parsedMap files
          else Ok (JObj false []) in
        Ok (Some {| in_query := po_query parsedOperations;
                    in_operationName := jor (po_operationName parsedOperations) JNull;
                    in_variables := variables |})
    else Ok None
  else Ok None.

Record ParsedGraphQLDocumentNode := {
  pd_operationType : OperationTypeNode;
  pd_operationName : option string;
  pd_variables : JV;
}.

Definition newline : string := String "010"%char EmptyString.

Fixpoint join_lines (l : list string) : string :=
  match l with
  | [] => EmptyString
  | [x] => x
  | x :: r => x +:+ newline +:+ join_lines r
  end.

(** The left injection is the thrown error. *)
Definition parseDocumentNode (document : DocumentNode) (operationName variables : JV)
  : Error + ParsedGraphQLDocumentNode :=
  (* pass through real schema to coerce default input variables *)
  match buildExecutionContext document operationName variables with
  | inl errorMessages => inl (PlainError (join_lines errorMessages))
  | inr (operation, variableValues) =>
      inr {| pd_operationType := op_operation operation;
             pd_operationName := op_name operation;
             pd_variables := variableValues |}
  end.

(** [parseQuery] returns the parsed query or the caught error. *)
Definition parseQuery (query operationName variables : JV)
  : Error + ParsedGraphQLRequest :=
  match parse query with
  | inl message => inl (GraphQLError message)
  | inr document =>
      match parseDocumentNode document operationName variables with
      | inr parsed =>
          inr {| pr_document := document;
                 pr_operationType := pd_operationType parsed;
                 pr_operationName := pd_operationName parsed;
                 pr_variables := pd_variables parsed |}
      | inl error => inl error
      end
  end.

(** Modelled from the spec: [devUtils.formatMessage], which is not part of
    the sources, prefixes the library tag to the formatted text (the tests of
    parseGraphQLRequest expect "[MSW] Failed to intercept ..."). *)
Definition failedToIntercept (method publicUrl message : string) : string :=
  "[MSW] Failed to intercept a GraphQL request to " +:+ dq +:+ method +:+ " "
  +:+ publicUrl +:+ dq
  +:+ ": cannot parse query. See the error message from the parser below."
  +:+ newline +:+ newline +:+ message.

(** [Ok None] stands for the result [undefined]. *)
Definition parseGraphQLRequest (request : MockedRequest)
  : Res (option ParsedGraphQLRequest) :=
  let* input := getGraphQLInput request in
  match input with
  | None => Ok None
  | Some input =>
      if negb (truthy (in_query input)) then Ok None
      else
        match parseQuery (in_query input) (in_operationName input)
                         (in_variables input) with
        | inl parsedResult =>
            let requestPublicUrl := getPublicUrlFromRequest request in
            Throw (PlainError (failedToIntercept (req_method request) requestPublicUrl
                                 (error_message parsedResult)))
        | inr parsedResult => Ok (Some parsedResult)
        end
  end.
End normalizer.
End Normalizer.

(** ** The operation matcher (GraphQLHandler.predicate) *)
Module Matcher.

Inductive ExpectedOperationTypeNode :=
| ExpectAll
| Expect (operationType : OperationTypeNode).

Definition isAll (t : ExpectedOperationTypeNode) : bool :=
  match t with ExpectAll => true | Expect _ => false end.

(** The resolved selector of a handler: the constructor has replaced a
    document by the name of its operation.  A pattern is given by its [test]. *)
Inductive Selector :=
| SelRegExp (test : string -> bool)
| SelString (name : string).

Record GraphQLHandler (Path : Type) := {
  info_operationType : ExpectedOperationTypeNode;
  info_operationSelector : Selector;
  endpoint : Path;
}.
Arguments info_operationType {Path}.
Arguments info_operationSelector {Path}.
Arguments endpoint {Path}.

Record ParsedResult := {
  res_operationType : OperationTypeNode;
  res_operationName : option string;
}.

Section matcher.
(** Requests, endpoint paths, URL matching and public URLs belong to the
    generic matching layer, which is not part of the sources. *)
Context {Request Path : Type}.
Variable matchRequestUrl : Request -> Path -> bool.
Variable requestMethod : Request -> string.
Variable getPublicUrlFromRequest : Request -> string.

(** The text passed to [devUtils.warn]; the template literal ends with the
    six spaces that indent its closing backtick. *)
Definition anonymousWarning (request : Request) : string :=
  "Failed to intercept a GraphQL request at " +:+ dq +:+ requestMethod request +:+ " "
  +:+ getPublicUrlFromRequest request +:+ dq
  +:+ ": anonymous GraphQL operations are not supported."
  +:+ Normalizer.newline +:+ Normalizer.newline
  +:+ "Consider naming this operation or using " +:+ dq +:+ "graphql.operation" +:+ dq
  +:+ " request handler to intercept GraphQL requests regardless of their operation name/type. Read more: https://mswjs.io/docs/api/graphql/operation"
  +:+ "      ".

Definition hasMatchingOperationType (handler : GraphQLHandler Path)
    (parsedResult : ParsedResult) : bool :=
  match info_operationType handler with
  | ExpectAll => true
  | Expect t => bool_decide (res_operationType parsedResult = t)
  end.

Definition hasMatchingOperationName (handler : GraphQLHandler Path)
    (parsedResult : ParsedResult) : bool :=
  match info_operationSelector handler with
  | SelRegExp test => test (or_else (res_operationName parsedResult) EmptyString)
  | SelString name =>
      match res_operationName parsedResult with
      | Some n => String.eqb n name
      | None => false
      end
  end.

(** The result and the warnings passed to [devUtils.warn]. *)
Definition predicate (handler : GraphQLHandler Path) (request : Request)
    (parsedResult : option ParsedResult) : bool * list string :=
  match parsedResult with
  | None => (false, [])
  | Some parsedResult =>
      if negb (truthy_name (res_operationName parsedResult))
         && negb (isAll (info_operationType handler))
      then (false, [anonymousWarning request])
      else
        let hasMatchingUrl := matchRequestUrl request (endpoint handler) in
        (hasMatchingUrl
         && hasMatchingOperationType handler parsedResult
         && hasMatchingOperationName handler parsedResult, [])
  end.
End matcher.
End Matcher.

(** A request that carries no query: a GET without a (non-empty) [query]
    parameter, a POST whose body has neither a [query] nor an [operations]
    field, or any other method. *)
Definition carriesNoQuery (request : Normalizer.MockedRequest) : Prop :=
  if String.eqb (Normalizer.req_method request) "GET" then
    truthy (Normalizer.searchParam request "query") = false
  else if String.eqb (Normalizer.req_method request) "POST" then
    truthy (jget (Normalizer.req_body request) "query") = false /\
    truthy (jget (Normalizer.req_body request) "operations") = false
  else True.

(** The requests of parseGraphQLRequest.test.ts. *)
Definition getWithoutQuery : Normalizer.MockedRequest :=
  {| Normalizer.req_method := "GET"; Normalizer.req_searchParams := [];
     Normalizer.req_body := JUndefined |}.

Definition postWithoutQuery : Normalizer.MockedRequest :=
  {| Normalizer.req_method := "POST"; Normalizer.req_searchParams := [];
     Normalizer.req_body := JObj false [("queryUser", JBool true)] |}.

Definition postMalformed : Normalizer.MockedRequest :=
  {| Normalizer.req_method := "POST"; Normalizer.req_searchParams := [];
     Normalizer.req_body := JObj false [("query", JStr "query GetUser() { user {{}")] |}.


(** ** The operation an execution context holds

    [buildExecutionContext] is a function of the graphql package, which the
    sources import.  Its choice of the operation decides what the
    [parseDocumentNode] built on it reports, and is written out here after the
    package.  The definitions of the document are scanned in order.  Without
    an operation name (null or undefined) a second operation definition ends
    the scan with an error; with a name, every operation definition of that
    name replaces the one found before.  A scan that finds nothing is an
    error.  The tests of parseGraphQLRequest show both cases: the name Login
    passed with the operations GetUser and Login resolves to the mutation,
    and two operations without a passed name fail with the message "Must
    provide operation name if query contains multiple operations.".  The
    operation definitions of this model declare no variables, so the coerced
    variable values are the empty object. *)
Module Graphql.

(** [operationName == null] *)
Definition isNullish (operationName : JV) : bool :=
  match operationName with
  | JUndefined | JNull => true
  | _ => false
  end.

(** [definition.name?.value === operationName], for an operation name that
    is neither null nor undefined. *)
Definition isNamed (operationName : JV) (definition : OperationDefinitionNode) : bool :=
  match operationName, op_name definition with
  | JStr name, Some value => String.eqb value name
  | _, _ => false
  end.

(** The scan: [operation] is the operation found so far. *)
Fixpoint chooseOperation (operationName : JV) (operation : option OperationDefinitionNode)
    (defs : list DefinitionNode) : list string + option OperationDefinitionNode :=
  match defs with
  | [] => inr operation
  | OperationDefinition definition :: rest =>
      if isNullish operationName then
        match operation with
        | Some _ =>
            inl ["Must provide operation name if query contains multiple operations."]
        | None => chooseOperation operationName (Some definition) rest
        end
      else if isNamed operationName definition then
        chooseOperation operationName (Some definition) rest
      else chooseOperation operationName operation rest
  | _ :: rest => chooseOperation operationName operation rest
  end.

Section context.
(** The text a template literal gives an operation name that is not a
    string. *)
Variable textOf : JV -> string.

Definition nameText (operationName : JV) : string :=
  match operationName with
  | JStr name => name
  | other => textOf other
  end.

Definition buildExecutionContext (document : DocumentNode) (operationName variables : JV)
  : list string + (OperationDefinitionNode * JV) :=
  match chooseOperation operationName None (definitions document) with
  | inl errors => inl errors
  | inr None =>
      if isNullish operationName then inl ["Must provide an operation."]
      else inl ["Unknown operation named " +:+ dq +:+ nameText operationName +:+ dq +:+ "."]
  | inr (Some operation) => inr (operation, JObj false [])
  end.
End context.

End Graphql.

(** * The projector as it runs on the store

    The same functions with the effects of the JavaScript code written out:
    [const pickedData = {}] and the array built by [map] are new objects of
    the store that holds the payload, and [pickedData[name] = ...] is a write
    into it.  The result is a reference into the final store. *)
Module Alloc.

(** A computation reads and updates the store and returns, throws or runs
    out of budget; the store is kept in every case. *)
Definition M (A : Type) : Type := Heap -> Res A * Heap.

Definition ret {A} (a : A) : M A := fun h => (Ok a, h).

Definition bind {A B} (m : M A) (k : A -> M B) : M B :=
  fun h =>
    match m h with
    | (Ok a, h') => k a h'
    | (Throw e, h') => (Throw e, h')
    | (OutOfFuel, h') => (OutOfFuel, h')
    end.

Notation "'let!' x ':=' m 'in' k" := (bind m (fun x => k))
  (at level 10, x name, m at level 100, k at level 200).

Definition lift {A} (r : Res A) : M A := fun h => (r, h).

Definition read {A} (f : Heap -> A) : M A := fun h => (Ok (f h), h).

(** [{}] *)
Definition newObject : M addr := fun h => (Ok (length h), h ++ [HObj []]).

(** The array [map] returns. *)
Definition newArray (items : list Value) : M addr :=
  fun h => (Ok (length h), h ++ [HArr items]).

(** [o[k] = v] for the object at [a]. *)
Definition assign (a : addr) (k : string) (v : Value) : M unit :=
  fun h =>
    (Ok tt,
     match h !! a with
     | Some (HObj props) => <[a := HObj (setProp k v props)]> h
     | _ => h
     end).

Fixpoint mapiM {A B} (f : nat -> A -> M B) (i : nat) (l : list A) : M (list B) :=
  match l with
  | [] => ret []
  | x :: r => let! y := f i x in let! ys := mapiM f (S i) r in ret (y :: ys)
  end.

Fixpoint forM {A} (f : A -> M unit) (l : list A) : M unit :=
  match l with
  | [] => ret tt
  | x :: r => let! _u := f x in forM f r
  end.

Section pick.
Context (schema : option GraphQLSchema)
        (fragments : gmap string FragmentDefinitionNode)
        (variables : gmap string Value).

Definition pickField
    (pickSelectionSet : string -> addr -> SelectionSetNode ->
                        option GraphQLNamedType -> M Value)
    (fieldPath : string) (fieldNode : FieldNode) (fieldData : Value) : M Value :=
  match field_selectionSet fieldNode, fieldData with
  | Some selectionSet, VRef a =>
      let! runtimeObject := read (fun h => runtimeObjectOf h schema a) in
      match schema, runtimeObject with
      | Some _, None => lift (Throw (InferTypeError fieldPath))
      | _, _ => pickSelectionSet fieldPath a selectionSet runtimeObject
      end
  | _, _ => ret fieldData
  end.

Definition pickInto
    (pick : string -> FieldNode -> Value -> M Value)
    (path : string) (data : addr) (pickedData : addr) (fieldNode : FieldNode)
  : M unit :=
  let name := field_name fieldNode in
  let! fieldData := read (fun h => getProp h data name) in
  let! items := read (fun h => asArray h fieldData) in
  let! v :=
    match items with
    | Some items =>
        let! picked :=
          mapiM (fun i fieldItemData =>
                   pick (itemPathOf path name i) fieldNode fieldItemData)
                0 items in
        let! mapped := newArray picked in
        ret (VRef mapped)
    | None => pick (fieldPathOf path name) fieldNode fieldData
    end in
  assign pickedData name v.

Fixpoint pickSelectionSet (fuel : nat) (path : string) (data : addr)
    (selectionSet : SelectionSetNode)
    (runtimeObject : option GraphQLNamedType) : M Value :=
  match fuel with
  | 0 => lift OutOfFuel
  | S n =>
      let! fieldMap :=
        lift (collectFields (schemaOf schema) fragments variables runtimeObject
                selectionSet) in
      let! pickedData := newObject in
      let! _u :=
        forM (pickInto (pickField (pickSelectionSet n)) path data pickedData)
             (fieldNodes fieldMap) in
      ret (VRef pickedData)
  end.
End pick.

Definition pickOperationFields (fuel : nat) (data : addr)
    (documentNode : DocumentNode) (operationName : option string)
    (variables : option (gmap string Value))
    (schema : option GraphQLSchema) : M Value :=
  let defs := extractDefinitions documentNode in
  match operations defs !! or_else operationName anonymousOperationKey with
  | None =>
      lift (Throw (OperationNotFound
                     (match operationName with
                      | Some (String c r) => Some (String c r)
                      | _ => None
                      end)))
  | Some operation =>
      pickSelectionSet schema (fragments defs) (default ∅ variables)
        fuel "data" data (op_selectionSet operation)
        (getRootType (schemaOf schema) (op_operation operation))
  end.

End Alloc.

(** ** Vocabulary of the store properties *)

(** [h'] keeps every object of [h] at its address, except at the addresses
    in [P], and only grows. *)
Definition framed (P : addr -> Prop) (h h' : Heap) : Prop :=
  length h <= length h' /\
  forall a, a < length h -> ~ P a -> h' !! a = h !! a.

(** A computation that keeps the store outside [P], from any store. *)
Definition frames {A} (P : addr -> Prop) (m : Alloc.M A) : Prop :=
  forall h, framed P h (snd (m h)).

(** The values an object holds. *)
Definition valuesOf (o : HeapObj) : list Value :=
  match o with
  | HObj props => map snd props
  | HArr items => items
  end.

(** The first [n] objects of the store refer only to each other: the part
    of the store that holds the payload. *)
Definition closedBelow (n : nat) (h : Heap) : Prop :=
  forall a o v a',
    a < n -> h !! a = Some o -> v ∈ valuesOf o -> v = VRef a' -> a' < n.

(** [represents n lo h v out]: in the store [h], the value [v] is the
    structure [out], whose leaves are payload values (references below [n])
    and whose objects and arrays are store objects at addresses from [lo]
    on. *)
Fixpoint represents (n lo : nat) (h : Heap) (v : Value) (out : Out) {struct out}
  : Prop :=
  match out with
  | OVal w => v = w /\ (forall a, w = VRef a -> a < n)
  | OArr outs =>
      exists a items,
        v = VRef a /\ lo <= a /\ h !! a = Some (HArr items) /\
        (fix each (vs : list Value) (os : list Out) {struct os} : Prop :=
           match os, vs with
           | [], [] => True
           | o :: os', v' :: vs' => represents n lo h v' o /\ each vs' os'
           | _, _ => False
           end) items outs
  | OObj oprops =>
      exists a props,
        v = VRef a /\ lo <= a /\ h !! a = Some (HObj props) /\
        (fix each (ps : list (string * Value)) (os : list (string * Out))
             {struct os} : Prop :=
           match os, ps with
           | [], [] => True
           | (k, o) :: os', (k', v') :: ps' =>
               k' = k /\ represents n lo h v' o /\ each ps' os'
           | _, _ => False
           end) props oprops
  end.

(** Pointwise representation of the elements of an array. *)
Fixpoint representsAll (n lo : nat) (h : Heap) (vs : list Value) (os : list Out)
  : Prop :=
  match os, vs with
  | [], [] => True
  | o :: os', v' :: vs' => represents n lo h v' o /\ representsAll n lo h vs' os'
  | _, _ => False
  end.

(** Pointwise representation of the properties of an object. *)
Fixpoint representsProps (n lo : nat) (h : Heap) (ps : list (string * Value))
    (os : list (string * Out)) : Prop :=
  match os, ps with
  | [], [] => True
  | (k, o) :: os', (k', v') :: ps' =>
      k' = k /\ represents n lo h v' o /\ representsProps n lo h ps' os'
  | _, _ => False
  end.

(** Two outcomes of the same kind, with related values. *)
Definition outcomes {A B} (R : A -> B -> Prop) (r : Res A) (pure : Res B) : Prop :=
  match r, pure with
  | Ok a, Ok b => R a b
  | Throw e, Throw e' => e = e'
  | OutOfFuel, OutOfFuel => True
  | _, _ => False
  end.

(** The result of a store computation agrees with a pure result. *)
Definition agrees (n lo : nat) (r : Res Value * Heap) (pure : Res Out) : Prop :=
  outcomes (represents n lo (snd r)) (fst r) pure.

(** Two stores hold the same objects below [n]. *)
Definition agreeBelow (n : nat) (h h' : Heap) : Prop :=
  forall a, a < n -> h' !! a = h !! a.

(** A value of the payload part of the store. *)
Definition closedValue (n : nat) (v : Value) : Prop :=
  forall a, v = VRef a -> a < n.

(** [closedBelow], computed. *)
Definition closedBelowb (n : nat) (h : Heap) : bool :=
  forallb (fun o =>
             forallb (fun v => match v with VRef a' => Nat.ltb a' n | _ => true end)
                     (valuesOf o))
          (take n h).

(** * Vocabulary of the further properties *)

(** The errors the projection of a selection set can end in: directive
    evaluation and type inference. *)
Definition projectionError (e : Error) : Prop :=
  match e with
  | InferTypeError _ | GraphQLError _ => True
  | OperationNotFound _ | PlainError _ => False
  end.

(** What a collection run adds to the collected nodes: only fields that the
    selections [l] select. *)
Definition selectedOnly (matches : option string -> bool)
    (variableValues : gmap string Value)
    (fragments : gmap string FragmentDefinitionNode)
    (l : SelectionSetNode) (st : CollectState) (r : Res CollectState) : Prop :=
  match r with
  | Ok st' =>
      forall f, f ∈ fieldNodes (cs_fields st') ->
                f ∈ fieldNodes (cs_fields st) \/
                FieldIn matches variableValues fragments f l
  | _ => True
  end.

(** The type conditions that hold for a runtime type in a schema. *)
Definition matching (schema : GraphQLSchema) (runtimeType : option GraphQLNamedType)
  : option string -> bool :=
  fun typeCondition => doesFragmentConditionMatch schema typeCondition runtimeType.

(** The field [user] selected twice, with different selections. *)
Definition userIdNode : FieldNode := fieldNodeOf None "user" [] (Some [ leaf "id" ]).
Definition userNameNode : FieldNode := fieldNodeOf None "user" [] (Some [ leaf "name" ]).
Definition userTwice : SelectionSetNode :=
  [ node "user" [ leaf "id" ]; node "user" [ leaf "name" ] ].

(** Directives whose [@skip] and [@include] can be evaluated: the [if]
    argument is a boolean literal or a variable that has a runtime value. *)
Definition evaluableIf (variableValues : gmap string Value) (d : DirectiveNode) : bool :=
  if String.eqb (dir_name d) "skip" || String.eqb (dir_name d) "include" then
    match dir_if d with
    | Some (ABool _) => true
    | Some (AVar x) =>
        match variableValues !! x with
        | Some VUndefined | Some VNull | None => false
        | Some _ => true
        end
    | _ => false
    end
  else true.

Definition evaluable (variableValues : gmap string Value)
    (directives : list DirectiveNode) : bool :=
  forallb (evaluableIf variableValues) directives.

Fixpoint evaluableSelection (variableValues : gmap string Value) (s : Selection) : bool :=
  match s with
  | Field _ _ directives sub =>
      evaluable variableValues directives &&
      match sub with
      | None => true
      | Some l => forallb (evaluableSelection variableValues) l
      end
  | FragmentSpread _ directives => evaluable variableValues directives
  | InlineFragment _ directives l =>
      evaluable variableValues directives &&
      forallb (evaluableSelection variableValues) l
  end.

(** The selection set of an operation and the selection sets of all
    fragments have evaluable directives only. *)
Definition evaluableDocument (variableValues : gmap string Value)
    (fragments : gmap string FragmentDefinitionNode)
    (selectionSet : SelectionSetNode) : Prop :=
  forallb (evaluableSelection variableValues) selectionSet = true /\
  map_Forall (fun _ fragment =>
                forallb (evaluableSelection variableValues)
                        (frag_selectionSet fragment) = true) fragments.

(** A run that does not throw. *)
Definition noThrow {A} (r : Res A) : Prop :=
  match r with
  | Throw _ => False
  | _ => True
  end.

(** A query and a mutation, both with a name. *)
Definition getUserAndLogin : DocumentNode :=
  {| definitions :=
       [ query (Some "GetUser") [ node "user" [ leaf "id" ] ];
         OperationDefinition {| op_operation := MUTATION; op_name := Some "Login";
                                op_selectionSet := [ node "user" [ leaf "id" ] ] |} ] |}.

(** ** The constructor of [GraphQLHandler] *)

#[global] Instance ExpectedOperationTypeNode_eq_dec :
  EqDecision Matcher.ExpectedOperationTypeNode.
Proof. solve_decision. Defined.

Module Handler.

(** The selector passed to the constructor: a document, a pattern (given by
    its text and its [test]) or a string.  Of the three, only a document is
    an object with the keys [kind] and [definitions], so [isDocumentNode]
    tells the first constructor from the other two. *)
Inductive GraphQLHandlerNameSelector :=
| OfDocument (document : DocumentNode)
| OfRegExp (text : string) (test : string -> bool)
| OfString (name : string).

Definition showOperationType (t : OperationTypeNode) : string :=
  match t with
  | QUERY => "query"
  | MUTATION => "mutation"
  | SUBSCRIPTION => "subscription"
  end.

Definition showExpected (t : Matcher.ExpectedOperationTypeNode) : string :=
  match t with
  | Matcher.ExpectAll => "all"
  | Matcher.Expect t => showOperationType t
  end.

(** What the constructor stores: the header and the handler's info and
    endpoint. *)
Record Created (Path : Type) := {
  info_header : string;
  created : Matcher.GraphQLHandler Path;
}.
Arguments info_header {Path}.
Arguments created {Path}.

Section constructor.
Context {Path : Type}.
(** The execution-context builder of the graphql package and the text of an
    endpoint are not part of the sources. *)
Variable buildExecutionContext :
  DocumentNode -> JV -> JV -> list string + (OperationDefinitionNode * JV).
Variable pathToString : Path -> string.

Definition mismatchedType (operationType : Matcher.ExpectedOperationTypeNode)
    (got : OperationTypeNode) : string :=
  "Failed to create a GraphQL handler: provided a DocumentNode with a mismatched operation type (expected "
  +:+ dq +:+ showExpected operationType +:+ dq +:+ ", but got "
  +:+ dq +:+ showOperationType got +:+ dq +:+ ").".

Definition noOperationName : string :=
  "Failed to create a GraphQL handler: provided a DocumentNode with no operation name.".

(** The resolved selector, with its text in the header. *)
Definition resolveSelector (operationType : Matcher.ExpectedOperationTypeNode)
    (operationSelector : GraphQLHandlerNameSelector)
  : Res (string * Matcher.Selector) :=
  match operationSelector with
  | OfDocument document =>
      (* pass null for operationName as using a document node with
         multiple operation definitions as a selector is not supported *)
      match Normalizer.parseDocumentNode buildExecutionContext document JNull JUndefined with
      | inl error => Throw error
      | inr parsedNode =>
          if negb (bool_decide
                     (Matcher.Expect (Normalizer.pd_operationType parsedNode)
                      = operationType)) then
            Throw (PlainError
                     (mismatchedType operationType (Normalizer.pd_operationType parsedNode)))
          else
            match Normalizer.pd_operationName parsedNode with
            | Some (String c r) => Ok (String c r, Matcher.SelString (String c r))
            | _ => Throw (PlainError noOperationName)
            end
      end
  | OfRegExp text test => Ok (text, Matcher.SelRegExp test)
  | OfString name => Ok (name, Matcher.SelString name)
  end.

Definition new (operationType : Matcher.ExpectedOperationTypeNode)
    (operationSelector : GraphQLHandlerNameSelector) (endpoint : Path)
  : Res (Created Path) :=
  let* resolved := resolveSelector operationType operationSelector in
  let '(text, resolvedOperationSelector) := resolved in
  let header :=
    if Matcher.isAll operationType then
      showExpected operationType +:+ " (origin: " +:+ pathToString endpoint +:+ ")"
    else
      showExpected operationType +:+ " " +:+ text +:+ " (origin: "
      +:+ pathToString endpoint +:+ ")" in
  Ok {| info_header := header;
        created := {| Matcher.info_operationType := operationType;
                      Matcher.info_operationSelector := resolvedOperationSelector;
                      Matcher.endpoint := endpoint |} |}.
End constructor.
End Handler.

(** An execution-context builder for documents with a single operation. *)
Definition singleOperationContext (document : DocumentNode) (operationName variables : JV)
  : list string + (OperationDefinitionNode * JV) :=
  match Analyzer.operationDefsOf document with
  | [operation] => inr (operation, JObj false [])
  | _ => inl ["Must provide operation name if query contains multiple operations."]
  end.

Definition getUserDocument : DocumentNode :=
  {| definitions := [ query (Some "GetUser") [ node "user" [ leaf "id" ] ] ] |}.

(** ** Reading along a path of property names *)

Definition jgetPath (v : JV) (path : list string) : JV := foldl jget v path.

(** A multipart upload: variables with a [file] slot for the uploaded file
    [0]. *)
Definition uploadVariables : JV := JObj false [("file", JNull); ("title", JStr "x")].
Definition uploadFiles : list (string * JV) := [("0", JFile "a.txt")].

(** What a run of [parseGraphQLRequest] can end in. *)
Definition requestOutcome
    (parse : JV -> string + DocumentNode)
    (buildExecutionContext :
       DocumentNode -> JV -> JV -> list string + (OperationDefinitionNode * JV))
    (getPublicUrlFromRequest : Normalizer.MockedRequest -> string)
    (request : Normalizer.MockedRequest)
    (normalized : Res (option Normalizer.GraphQLInput))
    (r : Res (option Normalizer.ParsedGraphQLRequest)) : Prop :=
  match r with
  | Ok None =>
      normalized = Ok None \/
      exists input, normalized = Ok (Some input) /\ truthy (Normalizer.in_query input) = false
  | Ok (Some parsed) =>
      exists input operation,
        normalized = Ok (Some input) /\
        truthy (Normalizer.in_query input) = true /\
        parse (Normalizer.in_query input) = inr (Normalizer.pr_document parsed) /\
        buildExecutionContext (Normalizer.pr_document parsed)
          (Normalizer.in_operationName input) (Normalizer.in_variables input)
        = inr (operation, Normalizer.pr_variables parsed) /\
        Normalizer.pr_operationType parsed = op_operation operation /\
        Normalizer.pr_operationName parsed = op_name operation
  | Throw e =>
      (normalized = Throw e /\
       Normalizer.req_method request = "POST" /\
       truthy (jget (Normalizer.req_body request) "query") = false /\
       truthy (jget (Normalizer.req_body request) "operations") = true) \/
      exists input message,
        normalized = Ok (Some input) /\
        e = PlainError (Normalizer.failedToIntercept (Normalizer.req_method request)
                          (getPublicUrlFromRequest request) message) /\
        (parse (Normalizer.in_query input) = inl message \/
         exists document errors,
           parse (Normalizer.in_query input) = inr document /\
           buildExecutionContext document (Normalizer.in_operationName input)
             (Normalizer.in_variables input) = inl errors /\
           message = Normalizer.join_lines errors)
  | OutOfFuel => False
  end.

(** ** The properties a document can read *)

(** Every field of the selection, at every depth, has a name in [P]. *)
Fixpoint namedWithin (P : string -> bool) (s : Selection) : bool :=
  match s with
  | Field _ name _ sub =>
      P name &&
      match sub with
      | None => true
      | Some l => forallb (namedWithin P) l
      end
  | FragmentSpread _ _ => true
  | InlineFragment _ _ l => forallb (namedWithin P) l
  end.

(** Every operation and every fragment of the document selects fields with
    names in [P] only. *)
Definition documentWithin (P : string -> bool) (documentNode : DocumentNode) : Prop :=
  (forall d, OperationDefinition d ∈ definitions documentNode ->
             forallb (namedWithin P) (op_selectionSet d) = true) /\
  (forall d, FragmentDefinition d ∈ definitions documentNode ->
             forallb (namedWithin P) (frag_selectionSet d) = true).

(** Two objects with the same properties as far as the names in [P] and
    [__typename] go; arrays are the same. *)
Definition sameObjectOn (P : string -> bool) (o o' : HeapObj) : Prop :=
  match o, o' with
  | HObj props, HObj props' =>
      forall k, P k = true \/ k = "__typename" -> assoc k props' = assoc k props
  | HArr items, HArr items' => items' = items
  | _, _ => False
  end.

(** Two stores whose objects are the same on [P], address by address. *)
Definition sameOn (P : string -> bool) (h h' : Heap) : Prop :=
  Forall2 (sameObjectOn P) h h'.

(** A user with a password nobody asked for. *)
Definition passwordHeap : Heap :=
  [ HObj [("user", VRef 1); ("session", VStr "s3")];
    HObj [("name", VStr "Jack"); ("password", VStr "hunter2")] ].

Definition userNameAge (k : string) : bool :=
  String.eqb k "user" || String.eqb k "name" || String.eqb k "age".

(** ** The depth of a projection *)

(** The number of nested objects that the projection built (arrays do not
    count, and payload values are leaves). *)
Fixpoint objectDepth (o : Out) : nat :=
  match o with
  | OVal _ => 0
  | OArr items => fold_right (fun item d => Nat.max (objectDepth item) d) 0 items
  | OObj props => S (fold_right (fun p d => Nat.max (objectDepth (snd p)) d) 0 props)
  end.

(** ** Projecting a projection *)

(** With the recursion budget [m], the guarded projector run on a
    representation of what it returned returns the same again. *)
Definition projectsAgain (h h' : Heap) (n lo : nat)
    (fragments : gmap string FragmentDefinitionNode)
    (variables : gmap string Value) (m : nat) : Prop :=
  forall budget selectionSet d data data' out,
    staticDepth fragments budget selectionSet = Some d -> d <= m ->
    forallb (evaluableSelection variables) selectionSet = true ->
    OwnProps.pickSelectionSet h fragments variables m data selectionSet = Ok out ->
    represents n lo h' (VRef data') out ->
    OwnProps.pickSelectionSet h' fragments variables m data' selectionSet = Ok out.

(** The store of [agelessHeap] after a projection of [{ user { name age } }]
    by the guarded projector was written to it: 2 the projected user, 3 the
    projected payload. *)
Definition projectedHeap : Heap :=
  agelessHeap ++ [ HObj [("name", VStr "Jack")]; HObj [("user", VRef 2)] ].

(** ** Selections without type conditions *)

(** No inline fragment of the selection has a type condition, and it
    spreads no fragment (a fragment definition always has one). *)
Fixpoint typeFree (s : Selection) : bool :=
  match s with
  | Field _ _ _ sub =>
      match sub with
      | None => true
      | Some l => forallb typeFree l
      end
  | FragmentSpread _ _ => false
  | InlineFragment typeCondition _ l =>
      match typeCondition with
      | None => forallb typeFree l
      | Some _ => false
      end
  end.

(** [r] is the outcome [r'], unless it is the type-inference error. *)
Definition sameUnlessUntyped {A} (r r' : Res A) : Prop :=
  r = r' \/ exists path, r = Throw (InferTypeError path).

(** ** Names that plain objects inherit *)

(** No operation of the document has the key [__proto__].  The operations are
    kept in a plain object, and an assignment to that key would replace the
    prototype of the object instead of adding a property. *)
Definition protoFree (documentNode : DocumentNode) : bool :=
  forallb (fun d => negb (String.eqb (operationKey d) "__proto__"))
          (Analyzer.operationDefsOf documentNode).


(** The properties the guarded projector reads for a document with names in
    [P]: these, and [hasOwnProperty] itself. *)
Definition guardedNames (P : string -> bool) (k : string) : bool :=
  P k || String.eqb k "hasOwnProperty".
(** * Properties *)

(** ** Generic facts about throwing computations *)

Lemma res_bind_Ok {A B} (m : Res A) (k : A -> Res B) (b : B) :
  res_bind m k = Ok b -> exists a, m = Ok a /\ k a = Ok b.
Proof. destruct m; simpl; intros; try discriminate; eauto. Qed.

Lemma res_bind_Throw {A B} (m : Res A) (k : A -> Res B) (e : Error) :
  res_bind m k = Throw e -> m = Throw e \/ exists a, m = Ok a /\ k a = Throw e.
Proof. destruct m; simpl; intros; try discriminate; eauto. left; congruence. Qed.

Lemma res_bind_OutOfFuel {A B} (m : Res A) (k : A -> Res B) :
  res_bind m k = OutOfFuel -> m = OutOfFuel \/ exists a, m = Ok a /\ k a = OutOfFuel.
Proof. destruct m; simpl; intros; try discriminate; eauto. Qed.

Lemma foldM_res_app {A S} (f : S -> A -> Res S) (s : S) (l1 l2 : list A) :
  foldM_res f s (l1 ++ l2) = let* s' := foldM_res f s l1 in foldM_res f s' l2.
Proof.
  revert s. induction l1 as [|x l1 IH]; intros s; simpl; [reflexivity|].
  destruct (f s x); simpl; auto.
Qed.

(** A fold preserves an invariant that each step preserves. *)
Lemma foldM_res_inv {A S} (P : S -> Prop) (f : S -> A -> Res S) (l : list A) :
  (forall s x s', x ∈ l -> P s -> f s x = Ok s' -> P s') ->
  forall s s', P s -> foldM_res f s l = Ok s' -> P s'.
Proof.
  induction l as [|x l IH]; intros Hstep s s' Hs Hrun; simpl in Hrun.
  - congruence.
  - apply res_bind_Ok in Hrun as (s1 & H1 & H2).
    eapply IH; [| |exact H2].
    + intros; eapply Hstep; eauto. by right.
    + eapply Hstep; eauto. by left.
Qed.

(** A fold whose steps never exhaust the budget does not exhaust it. *)
Lemma foldM_res_fuel {A S} (f : S -> A -> Res S) (l : list A) :
  (forall s x, x ∈ l -> f s x <> OutOfFuel) ->
  forall s, foldM_res f s l <> OutOfFuel.
Proof.
  induction l as [|x l IH]; intros Hstep s; simpl; [discriminate|].
  destruct (f s x) eqn:E; simpl; try discriminate.
  - apply IH. intros; apply Hstep. by right.
  - exfalso. eapply Hstep; [|exact E]. by left.
Qed.

Lemma mapiM_res_fuel {A B} (f : nat -> A -> Res B) (l : list A) :
  (forall i x, x ∈ l -> f i x <> OutOfFuel) ->
  forall i, mapiM_res f i l <> OutOfFuel.
Proof.
  induction l as [|x l IH]; intros Hstep i; simpl; [discriminate|].
  destruct (f i x) eqn:E; simpl; try discriminate.
  - specialize (IH (fun j y Hy => Hstep j y (list_elem_of_further _ _ _ Hy)) (S i)).
    destruct (mapiM_res f (S i) l); simpl; congruence.
  - exfalso. eapply Hstep; [|exact E]. by left.
Qed.

Lemma mapM_res_fuel {A B} (f : A -> Res B) (l : list A) :
  (forall x, x ∈ l -> f x <> OutOfFuel) -> mapM_res f l <> OutOfFuel.
Proof.
  induction l as [|x l IH]; intros Hstep; simpl; [discriminate|].
  destruct (f x) eqn:E; simpl; try discriminate.
  - specialize (IH (fun y Hy => Hstep y (list_elem_of_further _ _ _ Hy))).
    destruct (mapM_res f l); simpl; congruence.
  - exfalso. eapply Hstep; [|exact E]. by left.
Qed.

(** Two folds agree when their steps agree on the elements. *)
Lemma foldM_res_ext {A S} (f g : S -> A -> Res S) (l : list A) :
  (forall s x, x ∈ l -> f s x = g s x) ->
  forall s, foldM_res f s l = foldM_res g s l.
Proof.
  induction l as [|x l IH]; intros Hfg s; simpl; [reflexivity|].
  rewrite Hfg by (by left). destruct (g s x); simpl; auto.
  apply IH. intros; apply Hfg. by right.
Qed.

Lemma mapiM_res_ext {A B} (f g : nat -> A -> Res B) (l : list A) :
  (forall i x, x ∈ l -> f i x = g i x) ->
  forall i, mapiM_res f i l = mapiM_res g i l.
Proof.
  induction l as [|x l IH]; intros Hfg i; simpl; [reflexivity|].
  rewrite Hfg by (by left). destruct (g i x); simpl; auto.
  rewrite IH; [reflexivity|]. intros; apply Hfg. by right.
Qed.

Lemma mapM_res_ext {A B} (f g : A -> Res B) (l : list A) :
  (forall x, x ∈ l -> f x = g x) -> mapM_res f l = mapM_res g l.
Proof.
  induction l as [|x l IH]; intros Hfg; simpl; [reflexivity|].
  rewrite Hfg by (by left). destruct (g x); simpl; auto.
  rewrite IH; [reflexivity|]. intros; apply Hfg. by right.
Qed.

(** ** Own properties *)

Lemma assoc_setProp_eq {A} (k : string) (v : A) (l : list (string * A)) :
  assoc k (setProp k v l) = Some v.
Proof.
  induction l as [|[k' v'] l IH]; simpl.
  - by rewrite String.eqb_refl.
  - destruct (String.eqb k k') eqn:E; simpl; rewrite ?String.eqb_refl, ?E; auto.
Qed.

Lemma assoc_setProp_ne {A} (k k' : string) (v : A) (l : list (string * A)) :
  k <> k' -> assoc k' (setProp k v l) = assoc k' l.
Proof.
  intros Hne. induction l as [|[k0 v0] l IH]; simpl.
  - destruct (String.eqb k' k) eqn:E; [apply String.eqb_eq in E; congruence|done].
  - destruct (String.eqb k k0) eqn:E; simpl.
    + apply String.eqb_eq in E; subst k0.
      destruct (String.eqb k' k) eqn:E'; [apply String.eqb_eq in E'; congruence|done].
    + destruct (String.eqb k' k0); auto.
Qed.

Lemma getProp_absent (h : Heap) (a : addr) (k : string) :
  hasOwnProperty h a k = false -> getProp h a k = VUndefined.
Proof.
  unfold hasOwnProperty, getProp.
  destruct (h !! a) as [[props|items]|]; auto.
  - intros H. apply bool_decide_eq_false in H.
    destruct (assoc k props); [exfalso; apply H; eauto|done].
  - by intros ->.
Qed.

(** ** Structural induction on selections *)

Lemma Selection_nested_ind (P : Selection -> Prop) :
  (forall alias name directives, P (Field alias name directives None)) ->
  (forall alias name directives sub,
      Forall P sub -> P (Field alias name directives (Some sub))) ->
  (forall name directives, P (FragmentSpread name directives)) ->
  (forall typeCondition directives sub,
      Forall P sub -> P (InlineFragment typeCondition directives sub)) ->
  forall s, P s.
Proof.
  intros HleafF HF HS HI.
  fix IH 1. intros [alias name directives [sub|]|name directives|tc directives sub].
  - apply HF. induction sub as [|s sub IHsub]; constructor; auto.
  - apply HleafF.
  - apply HS.
  - apply HI. induction sub as [|s sub IHsub]; constructor; auto.
Qed.

(** ** Field collection terminates *)

Lemma getDirectiveIf_fuel dname directives variableValues :
  getDirectiveIf dname directives variableValues <> OutOfFuel.
Proof.
  unfold getDirectiveIf.
  destruct (List.find _ directives) as [d|]; [|discriminate].
  destruct (dir_if d) as [[x|b| |]|]; try discriminate.
  destruct (variableValues !! x) as [[]|]; discriminate.
Qed.

Lemma shouldIncludeNode_fuel variableValues directives :
  shouldIncludeNode variableValues directives <> OutOfFuel.
Proof.
  unfold shouldIncludeNode.
  pose proof (getDirectiveIf_fuel "skip" directives variableValues) as Hs.
  pose proof (getDirectiveIf_fuel "include" directives variableValues) as Hi.
  destruct (getDirectiveIf "skip" _ _) as [skip| |]; simpl; try congruence.
  destruct (bool_decide _); [discriminate|].
  destruct (getDirectiveIf "include" _ _) as [include| |]; simpl; try congruence.
  destruct (bool_decide _); discriminate.
Qed.

Section collect_facts.
Context (schema : GraphQLSchema)
        (fragments : gmap string FragmentDefinitionNode)
        (variableValues : gmap string Value)
        (runtimeType : option GraphQLNamedType).

Abbreviation collectSelection := (collectSelection schema fragments variableValues runtimeType).
Abbreviation collectSelections := (collectSelections schema fragments variableValues runtimeType).
Abbreviation collectFieldsImpl := (collectFieldsImpl schema fragments variableValues runtimeType).
Abbreviation unvisited := (unvisited fragments).

(** The loop over an inline fragment's selections is [collectSelections]. *)
Lemma collectSelection_inline spread typeCondition directives sub st :
  collectSelection spread (InlineFragment typeCondition directives sub) st =
  let* inc := shouldIncludeNode variableValues directives in
  if inc && doesFragmentConditionMatch schema typeCondition runtimeType
  then collectSelections spread sub st else Ok st.
Proof.
  simpl. destruct (shouldIncludeNode _ _) as [inc| |]; simpl; auto.
  destruct (inc && _); auto.
  revert st. induction sub as [|s sub IH]; intros st; [reflexivity|].
  change (collectSelections spread (s :: sub) st)
    with (let* st' := collectSelection spread s st in collectSelections spread sub st').
  destruct (collectSelection spread s st); simpl; auto.
Qed.

Lemma collectSelections_cons spread s sub st :
  collectSelections spread (s :: sub) st =
  let* st' := collectSelection spread s st in collectSelections spread sub st'.
Proof. reflexivity. Qed.

Lemma collectSelections_app spread l1 l2 st :
  collectSelections spread (l1 ++ l2) st =
  let* st' := collectSelections spread l1 st in collectSelections spread l2 st'.
Proof. apply foldM_res_app. Qed.

Lemma unvisited_mono st st' :
  cs_visited st ⊆ cs_visited st' -> unvisited st' <= unvisited st.
Proof. intros Hsub. unfold unvisited. apply subseteq_size. set_solver. Qed.

Lemma grows_bind st (m : Res CollectState) (k : CollectState -> Res CollectState) :
  grows st m ->
  (forall st', m = Ok st' -> cs_visited st ⊆ cs_visited st' -> grows st' (k st')) ->
  grows st (res_bind m k).
Proof.
  destruct m as [st'| |]; simpl; intros Hm Hk; try done.
  specialize (Hk st' eq_refl Hm).
  destruct (k st'); simpl in *; try done. set_solver.
Qed.

Lemma collectSelections_grows spread sub n :
  Forall (fun s => forall st, unvisited st < S n ->
                   grows st (collectSelection spread s st)) sub ->
  forall st, unvisited st < S n -> grows st (collectSelections spread sub st).
Proof.
  induction 1 as [|s sub Hs _ IH]; intros st Hst.
  - simpl. done.
  - rewrite collectSelections_cons. apply grows_bind; [auto|].
    intros st' _ Hsub. apply IH.
    pose proof (unvisited_mono _ _ Hsub). lia.
Qed.

Lemma collectSelection_grows n spread :
  (forall sub st, unvisited st < n -> grows st (spread sub st)) ->
  forall s st, unvisited st < S n -> grows st (collectSelection spread s st).
Proof.
  intros Hspread.
  induction s as [alias name directives|alias name directives sub IH
                 |name directives|tc directives sub IH]
    using Selection_nested_ind; intros st Hst.
  - simpl. pose proof (shouldIncludeNode_fuel variableValues directives).
    destruct (shouldIncludeNode _ _) as [[]| |]; simpl; done.
  - simpl. pose proof (shouldIncludeNode_fuel variableValues directives).
    destruct (shouldIncludeNode _ _) as [[]| |]; simpl; done.
  - simpl. case_bool_decide as Hvis; [simpl; done|].
    pose proof (shouldIncludeNode_fuel variableValues directives).
    destruct (shouldIncludeNode _ _) as [[]| |]; simpl; try done.
    destruct (fragments !! name) as [fragment|] eqn:Hfrag; [|simpl; set_solver].
    destruct (doesFragmentConditionMatch _ _ _); [|simpl; set_solver].
    set (st' := {| cs_fields := cs_fields st;
                   cs_visited := {[name]} ∪ cs_visited st |}).
    assert (unvisited st' < n) as Hlt.
    { assert (unvisited st' < unvisited st); [|lia].
      unfold unvisited. apply subset_size. unfold st'; simpl.
      assert (name ∈ dom fragments) by (apply elem_of_dom; eauto).
      set_solver. }
    specialize (Hspread (frag_selectionSet fragment) st' Hlt).
    destruct (spread _ st'); simpl in *; try done.
    unfold st' in Hspread; simpl in Hspread. set_solver.
  - rewrite collectSelection_inline.
    pose proof (shouldIncludeNode_fuel variableValues directives).
    destruct (shouldIncludeNode _ _) as [inc| |]; simpl; try done.
    destruct (inc && _); [|simpl; done].
    by apply (collectSelections_grows spread sub n).
Qed.

Lemma collectFieldsImpl_grows budget sub st :
  unvisited st < budget -> grows st (collectFieldsImpl budget sub st).
Proof.
  revert sub st. induction budget as [|n IH]; intros sub st Hst; [lia|].
  simpl. apply (collectSelections_grows _ sub n); [|done].
  apply Forall_forall. intros s _ st0 Hst0.
  apply (collectSelection_grows n); auto.
Qed.

(** [collectFields] always returns or throws. *)
Lemma collectFields_fuel selectionSet :
  collectFields schema fragments variableValues runtimeType selectionSet <> OutOfFuel.
Proof.
  unfold collectFields.
  set (st0 := {| cs_fields := []; cs_visited := ∅ |}).
  assert (unvisited st0 < S (size fragments)) as H.
  { unfold unvisited. rewrite <- size_dom.
    assert (size (dom fragments ∖ cs_visited st0) <= size (dom fragments)); [|lia].
    apply subseteq_size. set_solver. }
  apply (collectFieldsImpl_grows _ selectionSet) in H.
  destruct (collectFieldsImpl _ _ _); simpl in *; done.
Qed.
End collect_facts.

Example siblings_try :
  pickOperationFields 3 siblingsHeap 0 siblingsQuery None None None = Ok siblingsProjection.
Proof. vm_compute. reflexivity. Qed.


(** ** Membership in a field map *)

Lemma fieldNodes_app (m1 m2 : FieldMap) :
  fieldNodes (m1 ++ m2) = fieldNodes m1 ++ fieldNodes m2.
Proof. unfold fieldNodes. by rewrite map_app, concat_app. Qed.

Lemma elem_of_fieldNodes_setProp key (l : list FieldNode) (fm : FieldMap) f :
  f ∈ fieldNodes (setProp key l fm) ->
  f ∈ l \/ f ∈ fieldNodes fm.
Proof.
  induction fm as [|[k' l'] fm IH]; simpl.
  - unfold fieldNodes; simpl. rewrite app_nil_r. auto.
  - destruct (String.eqb key k'); unfold fieldNodes in *; simpl in *;
      rewrite !elem_of_app; intuition.
Qed.

Lemma fieldNodes_setProp_elem key (l l' : list FieldNode) (fm : FieldMap) f :
  assoc key fm = Some l -> (forall x, x ∈ l -> x ∈ l') ->
  f ∈ fieldNodes fm -> f ∈ fieldNodes (setProp key l' fm).
Proof.
  induction fm as [|[k0 l0] fm IH]; simpl; [by intros ? |].
  intros Hassoc Hsub. unfold fieldNodes in *; simpl in *.
  destruct (String.eqb key k0); simpl; rewrite !elem_of_app.
  - injection Hassoc as ->. intuition.
  - intuition.
Qed.

Lemma fieldNodes_setProp_new key (l l' : list FieldNode) (fm : FieldMap) f :
  assoc key fm = Some l -> f ∈ l' -> f ∈ fieldNodes (setProp key l' fm).
Proof.
  induction fm as [|[k0 l0] fm IH]; simpl; [done|].
  intros Hassoc Hf. unfold fieldNodes in *; simpl in *.
  destruct (String.eqb key k0); simpl; rewrite !elem_of_app; intuition.
Qed.

Lemma elem_of_fieldNodes_addField node fm f :
  f ∈ fieldNodes (addField node fm) <-> f = node \/ f ∈ fieldNodes fm.
Proof.
  unfold addField. destruct (assoc _ fm) as [l|] eqn:Hassoc.
  - split.
    + intros [Hin|Hin]%elem_of_fieldNodes_setProp; [|auto].
      apply elem_of_app in Hin as [Hin|Hin%list_elem_of_singleton]; [|auto].
      right. clear -Hassoc Hin. induction fm as [|[k0 l0] fm IH]; simpl in *; [done|].
      unfold fieldNodes in *; simpl. rewrite elem_of_app.
      destruct (String.eqb _ k0); [injection Hassoc as ->; auto|auto].
    + intros [-> |Hin].
      * eapply fieldNodes_setProp_new; eauto. apply elem_of_app; right. by left.
      * eapply fieldNodes_setProp_elem; eauto. intros; apply elem_of_app; auto.
  - rewrite fieldNodes_app, elem_of_app. unfold fieldNodes at 2; simpl.
    rewrite list_elem_of_singleton. tauto.
Qed.

(** ** The recursion budget only matters when it runs out *)

Lemma refines_refl {A} (r : Res A) : refines r r.
Proof. by right. Qed.

Lemma refines_bind {A B} (m1 m2 : Res A) (k1 k2 : A -> Res B) :
  refines m1 m2 -> (forall a, refines (k1 a) (k2 a)) ->
  refines (res_bind m1 k1) (res_bind m2 k2).
Proof.
  intros [-> | ->] Hk; [by left|].
  destruct m1; simpl; auto using refines_refl.
Qed.

Lemma foldM_res_refines {A S} (f g : S -> A -> Res S) (l : list A) :
  (forall s x, refines (f s x) (g s x)) ->
  forall s, refines (foldM_res f s l) (foldM_res g s l).
Proof.
  intros Hfg. induction l as [|x l IH]; intros s; simpl; [apply refines_refl|].
  apply refines_bind; auto.
Qed.

Lemma mapiM_res_refines {A B} (f g : nat -> A -> Res B) (l : list A) :
  (forall i x, refines (f i x) (g i x)) ->
  forall i, refines (mapiM_res f i l) (mapiM_res g i l).
Proof.
  intros Hfg. induction l as [|x l IH]; intros i; simpl; [apply refines_refl|].
  apply refines_bind; auto. intros y.
  apply refines_bind; auto. intros ys. apply refines_refl.
Qed.

Section pick_facts.
Context (h : Heap)
        (schema : option GraphQLSchema)
        (fragments : gmap string FragmentDefinitionNode)
        (variables : gmap string Value).

Abbreviation pickSelectionSet' := (pickSelectionSet h schema fragments variables).
Abbreviation pickField' := (pickField h schema).
Abbreviation pickInto' := (pickInto h).

Lemma pickSelectionSet_S n path data selectionSet runtimeObject :
  pickSelectionSet' (S n) path data selectionSet runtimeObject =
  let* fieldMap :=
    collectFields (schemaOf schema) fragments variables runtimeObject selectionSet in
  let* pickedData :=
    foldM_res (pickInto' (pickField' (pickSelectionSet' n)) path data)
              [] (fieldNodes fieldMap) in
  Ok (OObj pickedData).
Proof. reflexivity. Qed.

Lemma pickField_refines rec1 rec2 fieldPath fieldNode fieldData :
  (forall p a ss rt, refines (rec1 p a ss rt) (rec2 p a ss rt)) ->
  refines (pickField' rec1 fieldPath fieldNode fieldData)
          (pickField' rec2 fieldPath fieldNode fieldData).
Proof.
  intros Hrec. unfold pickField.
  destruct (field_selectionSet fieldNode); [|apply refines_refl].
  destruct fieldData; try apply refines_refl.
  destruct schema, (runtimeObjectOf _ _ _); auto using refines_refl.
Qed.

Lemma pickInto_refines pick1 pick2 path data pickedData fieldNode :
  (forall p f v, refines (pick1 p f v) (pick2 p f v)) ->
  refines (pickInto' pick1 path data pickedData fieldNode)
          (pickInto' pick2 path data pickedData fieldNode).
Proof.
  intros Hpick. unfold pickInto.
  apply refines_bind; [|intros; apply refines_refl].
  destruct (asArray _ _); auto.
  apply refines_bind; [|intros; apply refines_refl].
  apply mapiM_res_refines; auto.
Qed.

(** More budget never changes a result that was reached. *)
Lemma pickSelectionSet_refines n m :
  n <= m ->
  forall path data selectionSet runtimeObject,
    refines (pickSelectionSet' n path data selectionSet runtimeObject)
            (pickSelectionSet' m path data selectionSet runtimeObject).
Proof.
  revert m. induction n as [|n IH]; intros m Hle path data ss rt; [by left|].
  destruct m as [|m]; [lia|]. rewrite !pickSelectionSet_S.
  apply refines_bind; [apply refines_refl|]. intros fieldMap.
  apply refines_bind; [|intros; apply refines_refl].
  apply foldM_res_refines. intros s x.
  apply pickInto_refines. intros p f v.
  apply pickField_refines. intros. apply IH. lia.
Qed.

Lemma pickSelectionSet_fuel_mono n m path data selectionSet runtimeObject r :
  n <= m ->
  pickSelectionSet' n path data selectionSet runtimeObject = r ->
  r <> OutOfFuel ->
  pickSelectionSet' m path data selectionSet runtimeObject = r.
Proof.
  intros Hle Hr Hne.
  destruct (pickSelectionSet_refines n m Hle path data selectionSet runtimeObject)
    as [H|H]; congruence.
Qed.
End pick_facts.

(** ** Collected fields lie within the static depth *)

Section depth_facts.
Context (schema : GraphQLSchema)
        (fragments : gmap string FragmentDefinitionNode)
        (variableValues : gmap string Value)
        (runtimeType : option GraphQLNamedType).

Abbreviation selectionDepth' := (selectionDepth fragments).
Abbreviation selectionsDepth' := (selectionsDepth fragments).
Abbreviation levelDepth' := (levelDepth fragments).
Abbreviation nestedBelow' := (nestedBelow fragments).
Abbreviation allBelow' := (allBelow fragments).

Lemma selectionDepth_inline spreadDepth typeCondition directives sub :
  selectionDepth' spreadDepth (InlineFragment typeCondition directives sub) =
  selectionsDepth' spreadDepth sub.
Proof. simpl. induction sub as [|s sub IH]; simpl; [done|]. by rewrite IH. Qed.

Lemma selectionDepth_field spreadDepth alias name directives sub :
  selectionDepth' spreadDepth (Field alias name directives (Some sub)) =
  S <$> selectionsDepth' spreadDepth sub.
Proof.
  rewrite <- selectionDepth_inline with (typeCondition := None) (directives := []).
  reflexivity.
Qed.

Lemma omax_Some a b d :
  omax a b = Some d -> exists x y, a = Some x /\ b = Some y /\ x <= d /\ y <= d.
Proof.
  destruct a as [x|], b as [y|]; simpl; intros [= <-]. exists x, y. repeat split; lia.
Qed.

Lemma collectSelections_below D b spread sub :
  Forall (fun s => forall L st st',
              selectionDepth' (levelDepth' b) s = Some L -> L <= D -> allBelow' D st ->
              collectSelection schema fragments variableValues runtimeType spread s st = Ok st' ->
              allBelow' D st') sub ->
  forall L st st',
    selectionsDepth' (levelDepth' b) sub = Some L -> L <= D -> allBelow' D st ->
    collectSelections schema fragments variableValues runtimeType spread sub st = Ok st' ->
    allBelow' D st'.
Proof.
  induction 1 as [|s sub Hs _ IH]; intros L st st' HL HLD Hst Hrun.
  - change (Ok st = Ok st') in Hrun. injection Hrun as <-. exact Hst.
  - rewrite collectSelections_cons in Hrun.
    apply res_bind_Ok in Hrun as (st1 & H1 & H2).
    simpl in HL. apply omax_Some in HL as (x & y & Hx & Hy & ? & ?).
    eapply IH; [exact Hy|lia| |exact H2].
    eapply Hs; [exact Hx|lia|exact Hst|exact H1].
Qed.

Lemma collectSelection_below D b spread :
  (forall sub L st st',
      levelDepth' b sub = Some L -> L <= D -> allBelow' D st ->
      spread sub st = Ok st' -> allBelow' D st') ->
  forall s L st st',
    selectionDepth' (levelDepth' b) s = Some L -> L <= D -> allBelow' D st ->
    collectSelection schema fragments variableValues runtimeType spread s st = Ok st' ->
    allBelow' D st'.
Proof.
  intros Hspread.
  induction s as [alias name directives|alias name directives sub IH
                 |name directives|tc directives sub IH]
    using Selection_nested_ind; intros L st st' HL HLD Hst Hrun.
  - simpl in Hrun. apply res_bind_Ok in Hrun as ([] & _ & Hrun);
      injection Hrun as <-; [|done].
    intros f [->|Hf]%elem_of_fieldNodes_addField; [done|auto].
  - rewrite selectionDepth_field in HL.
    destruct (selectionsDepth' _ sub) as [l|] eqn:Hl; [|done]. injection HL as <-.
    simpl in Hrun. apply res_bind_Ok in Hrun as ([] & _ & Hrun);
      injection Hrun as <-; [|done].
    intros f [->|Hf]%elem_of_fieldNodes_addField; [|auto].
    unfold nestedBelow; simpl. exists (S b), (S l). split; [|done].
    unfold staticDepth; simpl. by rewrite Hl.
  - simpl in Hrun. case_bool_decide; [by injection Hrun as <-|].
    apply res_bind_Ok in Hrun as ([] & _ & Hrun); [|by injection Hrun as <-].
    simpl in HL.
    destruct (fragments !! name) as [fragment|]; [|by injection Hrun as <-].
    destruct (doesFragmentConditionMatch _ _ _); [|by injection Hrun as <-].
    eapply Hspread; [exact HL|exact HLD| |exact Hrun]. exact Hst.
  - rewrite selectionDepth_inline in HL. rewrite collectSelection_inline in Hrun.
    apply res_bind_Ok in Hrun as (inc & _ & Hrun).
    destruct (inc && _); [|by injection Hrun as <-].
    eapply collectSelections_below; eauto.
Qed.

Lemma collectFieldsImpl_below D k :
  forall b sub L st st',
    levelDepth' b sub = Some L -> L <= D -> allBelow' D st ->
    collectFieldsImpl schema fragments variableValues runtimeType k sub st = Ok st' ->
    allBelow' D st'.
Proof.
  induction k as [|k IH]; intros b sub L st st' HL HLD Hst Hrun; [done|].
  destruct b as [|b]; [done|]. simpl in HL, Hrun.
  eapply collectSelections_below; [|exact HL|exact HLD|exact Hst|exact Hrun].
  apply Forall_forall. intros s _. apply collectSelection_below.
  intros; eapply IH; eauto.
Qed.

Lemma collectFields_below b selectionSet L fieldMap :
  levelDepth' b selectionSet = Some L ->
  collectFields schema fragments variableValues runtimeType selectionSet = Ok fieldMap ->
  forall f, f ∈ fieldNodes fieldMap -> nestedBelow' L f.
Proof.
  intros HL Hrun. unfold collectFields in Hrun.
  apply res_bind_Ok in Hrun as (st & Hrun & [= <-]).
  eapply collectFieldsImpl_below; [exact HL|done| |exact Hrun].
  intros f Hf. cbn in Hf. by apply elem_of_nil in Hf.
Qed.
End depth_facts.

(** ** Projection ends within the static depth *)

Section pick_depth.
Context (h : Heap)
        (schema : option GraphQLSchema)
        (fragments : gmap string FragmentDefinitionNode)
        (variables : gmap string Value).

Lemma pickSelectionSet_terminates fuel :
  forall budget selectionSet d path data runtimeObject,
    staticDepth fragments budget selectionSet = Some d -> d <= fuel ->
    pickSelectionSet h schema fragments variables fuel path data selectionSet runtimeObject
    <> OutOfFuel.
Proof.
  induction fuel as [|n IH]; intros budget ss d path data rt Hd Hle.
  - unfold staticDepth in Hd. destruct (levelDepth _ _ _); simplify_eq/=. lia.
  - unfold staticDepth in Hd.
    destruct (levelDepth fragments budget ss) as [L|] eqn:HL; simplify_eq/=.
    pose proof (collectFields_fuel (schemaOf schema) fragments variables rt ss) as Hc.
    destruct (collectFields _ _ _ _ ss) as [fieldMap| |] eqn:Hcollect; simpl; try done.
    pose proof (collectFields_below _ _ _ _ _ _ _ _ HL Hcollect) as Hbelow.
    assert (foldM_res
              (pickInto h (pickField h schema
                 (pickSelectionSet h schema fragments variables n)) path data)
              [] (fieldNodes fieldMap) <> OutOfFuel) as Hfold.
    { apply foldM_res_fuel. intros picked f Hf.
      assert (forall p v, pickField h schema
                 (pickSelectionSet h schema fragments variables n) p f v <> OutOfFuel)
        as Hpick.
      { intros p v. unfold pickField.
        specialize (Hbelow f Hf). unfold nestedBelow in Hbelow.
        destruct (field_selectionSet f) as [sub|]; [|done].
        destruct v; try done.
        destruct Hbelow as (b' & d' & Hd' & Hle').
        destruct schema, (runtimeObjectOf _ _ _); try done;
          eapply IH; eauto; lia. }
      unfold pickInto.
      destruct (asArray _ _) as [items|].
      - pose proof (mapiM_res_fuel
          (fun i v => pickField h schema
             (pickSelectionSet h schema fragments variables n)
             (itemPathOf path (field_name f) i) f v) items
          (fun i x _ => Hpick _ x) 0) as Hmap.
        destruct (mapiM_res _ _ _); simpl; done.
      - specialize (Hpick (fieldPathOf path (field_name f))
                          (getProp h data (field_name f))).
        destruct (pickField _ _ _ _ _ _); simpl; done. }
    destruct (foldM_res _ _ _); simpl; done.
Qed.
End pick_depth.

(** ** Termination of the projection (C2) *)

Lemma cyclic_collect_user :
  collectFields dummySchema (fragments (extractDefinitions cyclicFragmentQuery)) ∅ None
    [ node "user" [ FragmentSpread "Sib" [] ] ]
  = Ok [("user", [ {| field_alias := None; field_name := "user"; field_directives := [];
                      field_selectionSet := Some [ FragmentSpread "Sib" [] ] |} ])].
Proof. vm_compute. reflexivity. Qed.

Lemma cyclic_collect_sib :
  collectFields dummySchema (fragments (extractDefinitions cyclicFragmentQuery)) ∅ None
    [ FragmentSpread "Sib" [] ]
  = Ok [("name", [ {| field_alias := None; field_name := "name"; field_directives := [];
                      field_selectionSet := None |} ]);
        ("eldestSibling",
         [ {| field_alias := None; field_name := "eldestSibling"; field_directives := [];
              field_selectionSet := Some [ FragmentSpread "Sib" [] ] |} ])].
Proof. vm_compute. reflexivity. Qed.

(** Evaluate one level of projection on concrete data, leaving the nested
    calls alone. *)
Ltac pick_steps :=
  repeat (unfold pickInto, pickField, runtimeObjectOf;
          cbn -[pickSelectionSet fragments extractDefinitions]).

(** Projecting either sibling against the self-spreading fragment exhausts
    every budget: each level hands the other sibling to the next level. *)
Lemma cyclic_siblings_diverge fuel :
  forall path,
    pickSelectionSet siblingsHeap None (fragments (extractDefinitions cyclicFragmentQuery)) ∅
      fuel path 1 [ FragmentSpread "Sib" [] ] None = OutOfFuel /\
    pickSelectionSet siblingsHeap None (fragments (extractDefinitions cyclicFragmentQuery)) ∅
      fuel path 2 [ FragmentSpread "Sib" [] ] None = OutOfFuel.
Proof.
  induction fuel as [|n IH]; intros path; [done|].
  rewrite !pickSelectionSet_S. change (schemaOf None) with dummySchema.
  rewrite cyclic_collect_sib.
  split; pick_steps.
  - by rewrite (proj2 (IH _)).
  - by rewrite (proj1 (IH _)).
Qed.

Lemma cyclic_fragment_never_returns fuel :
  pickOperationFields fuel siblingsHeap 0 cyclicFragmentQuery None None None = OutOfFuel.
Proof.
  unfold pickOperationFields.
  assert (operations (extractDefinitions cyclicFragmentQuery)
            !! or_else None anonymousOperationKey
          = Some {| op_operation := QUERY; op_name := None;
                    op_selectionSet := [ node "user" [ FragmentSpread "Sib" [] ] ] |})
    as -> by (vm_compute; reflexivity).
  destruct fuel as [|n]; [done|].
  cbn [op_selectionSet op_operation default]. rewrite pickSelectionSet_S.
  change (schemaOf None) with dummySchema. cbn [getRootType schema_query dummySchema].
  change (schema_query dummySchema) with (@None GraphQLNamedType).
  rewrite cyclic_collect_user.
  pick_steps.
  by rewrite (proj1 (cyclic_siblings_diverge n _)).
Qed.

(** C2, counterexample: with a fragment that spreads itself under a field and
    the cyclic sibling pair as payload, no recursion budget lets
    [pickOperationFields] return. *)
Lemma pickOperationFields_cyclic_fragment_diverges :
  ~ exists fuel,
      pickOperationFields fuel siblingsHeap 0 cyclicFragmentQuery None None None
      <> OutOfFuel.
Proof. intros [fuel H]. apply H, cyclic_fragment_never_returns. Qed.

(** C2, amended: when the static depth [d] of the operation's selection set
    with the fragments spliced in is defined, [pickOperationFields] returns
    or throws within [d] nested calls whatever the payload graph, and more
    budget does not change the outcome; on the cyclic sibling pair the query
    of data.test.ts yields the three selected levels. *)
Theorem pickOperationFields_terminates
    (h : Heap) (data : addr) (documentNode : DocumentNode)
    (operationName : option string) (variables : option (gmap string Value))
    (schema : option GraphQLSchema) (operation : OperationDefinitionNode)
    (budget d fuel : nat) :
  operations (extractDefinitions documentNode)
    !! or_else operationName anonymousOperationKey = Some operation ->
  staticDepth (fragments (extractDefinitions documentNode)) budget
    (op_selectionSet operation) = Some d ->
  d <= fuel ->
  pickOperationFields fuel h data documentNode operationName variables schema
    <> OutOfFuel /\
  pickOperationFields fuel h data documentNode operationName variables schema
    = pickOperationFields d h data documentNode operationName variables schema /\
  pickOperationFields 3 siblingsHeap 0 siblingsQuery None None None
    = Ok siblingsProjection.
Proof.
  intros Hop Hd Hle. unfold pickOperationFields. rewrite Hop.
  assert (forall n, d <= n ->
            pickSelectionSet h schema (fragments (extractDefinitions documentNode))
              (default ∅ variables) n "data" data (op_selectionSet operation)
              (getRootType (schemaOf schema) (op_operation operation)) <> OutOfFuel)
    as Hterm by (intros; eapply pickSelectionSet_terminates; eauto).
  split; [by apply Hterm|]. split.
  - eapply pickSelectionSet_fuel_mono; [exact Hle|reflexivity|]. by apply Hterm.
  - vm_compute. reflexivity.
Qed.

Lemma pickOperationFields_terminates_witness :
  pickOperationFields 5 siblingsHeap 0 siblingsQuery None None None <> OutOfFuel.
Proof.
  refine (proj1 (pickOperationFields_terminates siblingsHeap 0 siblingsQuery None None None
            {| op_operation := QUERY; op_name := None;
               op_selectionSet :=
                 [ node "user"
                     [ leaf "name"; node "siblings" [leaf "name"];
                       node "eldestSibling" [leaf "age"] ] ] |}
            1 3 5 _ _ _)).
  - vm_compute. reflexivity.
  - vm_compute. reflexivity.
  - lia.
Defined.

(** ** Selected fields the payload does not carry (C1) *)

Section absent_fields.
Context (h : Heap)
        (fragments : gmap string FragmentDefinitionNode)
        (variables : gmap string Value).

(** With the schema parameter: the key is assigned the [undefined] read from
    the payload. *)
Lemma pickInto_absent schema rec path data picked f picked' k :
  hasOwnProperty h data k = false ->
  pickInto h (pickField h schema rec) path data picked f = Ok picked' ->
  (field_name f = k -> assoc k picked' = Some (OVal VUndefined)) /\
  (assoc k picked = Some (OVal VUndefined) -> assoc k picked' = Some (OVal VUndefined)).
Proof.
  intros Habs Hrun. unfold pickInto in Hrun.
  destruct (decide (field_name f = k)) as [Heq|Hne]; [subst k|].
  - rewrite (getProp_absent _ _ _ Habs) in Hrun. simpl in Hrun.
    assert (pickField h schema rec (fieldPathOf path (field_name f)) f VUndefined
            = Ok (OVal VUndefined)) as Hpick.
    { unfold pickField. by destruct (field_selectionSet f). }
    rewrite Hpick in Hrun. simpl in Hrun. injection Hrun as <-.
    split; intros; apply assoc_setProp_eq.
  - apply res_bind_Ok in Hrun as (v & _ & [= <-]).
    split; [done|]. by rewrite assoc_setProp_ne.
Qed.

Lemma fold_pickInto_absent schema rec path data k l :
  hasOwnProperty h data k = false ->
  forall picked props,
    foldM_res (pickInto h (pickField h schema rec) path data) picked l = Ok props ->
    (exists f, f ∈ l /\ field_name f = k) \/ assoc k picked = Some (OVal VUndefined) ->
    assoc k props = Some (OVal VUndefined).
Proof.
  intros Habs. induction l as [|x l IH]; intros picked props Hrun Hk; simpl in Hrun.
  - injection Hrun as <-. destruct Hk as [(f & Hf & _)|]; [|done].
    by apply elem_of_nil in Hf.
  - apply res_bind_Ok in Hrun as (picked1 & Hstep & Hrest).
    destruct (pickInto_absent _ _ _ _ _ _ _ _ Habs Hstep) as [Hset Hkeep].
    apply (IH _ _ Hrest).
    destruct Hk as [(f & Hf & Hname)|Hk]; [|auto].
    apply elem_of_cons in Hf as [->|Hf]; [auto|]. left. eauto.
Qed.

(** Without the schema parameter: the guard leaves the key out. *)
Lemma fold_pickInto_own_absent rec data k l :
  hasOwnProperty h data k = false ->
  forall picked props,
    foldM_res (OwnProps.pickInto h (OwnProps.pickField rec) data) picked l = Ok props ->
    assoc k picked = None -> assoc k props = None.
Proof.
  intros Habs. induction l as [|x l IH]; intros picked props Hrun Hk; simpl in Hrun.
  - by injection Hrun as <-.
  - apply res_bind_Ok in Hrun as (picked1 & Hstep & Hrest).
    apply (IH _ _ Hrest). unfold OwnProps.pickInto in Hstep.
    destruct (hasOwnProperty h data (field_name x)) eqn:Hown;
      [|by injection Hstep as <-].
    apply res_bind_Ok in Hstep as (v & _ & [= <-]).
    rewrite assoc_setProp_ne; [done|]. congruence.
Qed.
End absent_fields.

(** C1, counterexample: the user object has no [age], and the projection of
    [{ user { name age } }] still carries the key [age], bound to undefined. *)
Lemma pickOperationFields_keeps_absent_key :
  hasOwnProperty agelessHeap 1 "age" = false /\
  pickOperationFields 2 agelessHeap 0 nameAgeQuery None None None
  = Ok (OObj [("user", OObj [("name", OVal (VStr "Jack")); ("age", OVal VUndefined)])]).
Proof. split; vm_compute; reflexivity. Qed.

(** C1, amended: a selected field that a plain payload object does not carry
    as an own property is never defaulted to null.  [pickSelectionSet], the
    call made at every nesting depth, has no guard: it assigns the key what
    the read [data[name]] gives, which is undefined for every name that the
    object does not inherit either (a name of [Object.prototype], such as
    constructor, reads the inherited member instead).  The variant without a
    schema parameter, which guards each field with [hasOwnProperty], leaves
    the key out. *)
Theorem absent_field_never_null
    (h : Heap) (fragments : gmap string FragmentDefinitionNode)
    (variables : gmap string Value) (data : addr) (own : list (string * Value))
    (selectionSet : SelectionSetNode) (f : FieldNode) :
  h !! data = Some (HObj own) ->
  assoc (field_name f) own = None ->
  (inherited (field_name f) = false ->
   forall schema runtimeObject fieldMap n path props,
      collectFields (schemaOf schema) fragments variables runtimeObject selectionSet
        = Ok fieldMap ->
      f ∈ fieldNodes fieldMap ->
      pickSelectionSet h schema fragments variables (S n) path data selectionSet
        runtimeObject = Ok (OObj props) ->
      assoc (field_name f) props = Some (OVal VUndefined)) /\
  (forall n props,
      OwnProps.pickSelectionSet h fragments variables (S n) data selectionSet
        = Ok (OObj props) ->
      assoc (field_name f) props = None).
Proof.
  intros Hdata Hown.
  assert (hasOwnProperty h data (field_name f) = false) as Habs.
  { unfold hasOwnProperty. rewrite Hdata, Hown.
    apply bool_decide_eq_false_2. by intros [? [=]]. }
  split.
  - intros _ schema rt fieldMap n path props Hcollect Hf Hrun.
    rewrite pickSelectionSet_S, Hcollect in Hrun. simpl in Hrun.
    apply res_bind_Ok in Hrun as (picked & Hfold & [= <-]).
    eapply fold_pickInto_absent; eauto.
  - intros n props Hrun. simpl in Hrun.
    apply res_bind_Ok in Hrun as (fieldMap & _ & Hrun).
    apply res_bind_Ok in Hrun as (picked & Hfold & [= <-]).
    eapply fold_pickInto_own_absent; eauto.
Qed.

Lemma absent_field_never_null_witness :
  assoc "age" [("name", OVal (VStr "Jack")); ("age", OVal VUndefined)]
    = Some (OVal VUndefined) /\
  assoc "age" [("name", OVal (VStr "Jack"))] = None (A := Out).
Proof.
  pose (nameField := {| field_alias := None; field_name := "name";
                        field_directives := []; field_selectionSet := None |}).
  pose (ageField := {| field_alias := None; field_name := "age";
                       field_directives := []; field_selectionSet := None |}).
  destruct (absent_field_never_null agelessHeap ∅ ∅ 1 [("name", VStr "Jack")]
              [leaf "name"; leaf "age"] ageField)
    as [Hschema Hown].
  { reflexivity. }
  { reflexivity. }
  split.
  - apply (Hschema eq_refl None None [("name", [nameField]); ("age", [ageField])] 0
             "data.user").
    + vm_compute. reflexivity.
    + cbn. apply list_elem_of_further, list_elem_of_here.
    + vm_compute. reflexivity.
  - apply (Hown 0). vm_compute. reflexivity.
Defined.

(** ** Where a fold or a map throws *)

Lemma foldM_res_Throw {A S} (f : S -> A -> Res S) (l : list A) (e : Error) :
  forall s, foldM_res f s l = Throw e -> exists s' x, x ∈ l /\ f s' x = Throw e.
Proof.
  induction l as [|x l IH]; intros s Hrun; simpl in Hrun; [done|].
  apply res_bind_Throw in Hrun as [H|(s1 & _ & H)].
  - exists s, x. split; [by left|done].
  - destruct (IH _ H) as (s' & y & Hy & Hf). exists s', y. split; [by right|done].
Qed.

Lemma mapiM_res_Throw {A B} (f : nat -> A -> Res B) (l : list A) (e : Error) :
  forall i, mapiM_res f i l = Throw e ->
            exists j x, l !! j = Some x /\ f (i + j) x = Throw e.
Proof.
  induction l as [|x l IH]; intros i Hrun; simpl in Hrun; [done|].
  apply res_bind_Throw in Hrun as [H|(y & _ & H)].
  - exists 0, x. split; [done|]. by rewrite Nat.add_0_r.
  - apply res_bind_Throw in H as [H|(ys & _ & H)]; [|done].
    destruct (IH _ H) as (j & z & Hz & Hf). exists (S j), z. split; [done|].
    by replace (i + S j) with (S i + j) by lia.
Qed.

(** ** Field collection throws only directive errors *)

Lemma onlyGraphQLError_bind {A B} (m : Res A) (k : A -> Res B) :
  onlyGraphQLError m -> (forall a, onlyGraphQLError (k a)) ->
  onlyGraphQLError (res_bind m k).
Proof. destruct m as [a|e|]; simpl; auto. Qed.

Lemma getDirectiveIf_onlyGraphQLError dname directives variableValues :
  onlyGraphQLError (getDirectiveIf dname directives variableValues).
Proof.
  unfold getDirectiveIf.
  destruct (List.find _ directives) as [d|]; [|done].
  destruct (dir_if d) as [[x|b| |]|]; try done.
  destruct (variableValues !! x) as [[]|]; done.
Qed.

Lemma shouldIncludeNode_onlyGraphQLError variableValues directives :
  onlyGraphQLError (shouldIncludeNode variableValues directives).
Proof.
  unfold shouldIncludeNode.
  apply onlyGraphQLError_bind; [apply getDirectiveIf_onlyGraphQLError|].
  intros skip. destruct (bool_decide _); [done|].
  apply onlyGraphQLError_bind; [apply getDirectiveIf_onlyGraphQLError|].
  intros include. by destruct (bool_decide _).
Qed.

Section collect_errors.
Context (schema : GraphQLSchema)
        (fragments : gmap string FragmentDefinitionNode)
        (variableValues : gmap string Value)
        (runtimeType : option GraphQLNamedType).

Lemma collectSelections_onlyGraphQLError spread sub :
  Forall (fun s => forall st,
            onlyGraphQLError
              (collectSelection schema fragments variableValues runtimeType spread s st))
         sub ->
  forall st,
    onlyGraphQLError
      (collectSelections schema fragments variableValues runtimeType spread sub st).
Proof.
  induction 1 as [|s sub Hs _ IH]; intros st; [done|].
  rewrite collectSelections_cons. apply onlyGraphQLError_bind; auto.
Qed.

Lemma collectSelection_onlyGraphQLError spread :
  (forall sub st, onlyGraphQLError (spread sub st)) ->
  forall s st,
    onlyGraphQLError
      (collectSelection schema fragments variableValues runtimeType spread s st).
Proof.
  intros Hspread.
  induction s as [alias name directives|alias name directives sub IH
                 |name directives|tc directives sub IH]
    using Selection_nested_ind; intros st.
  - simpl. apply onlyGraphQLError_bind;
      [apply shouldIncludeNode_onlyGraphQLError|by intros []].
  - simpl. apply onlyGraphQLError_bind;
      [apply shouldIncludeNode_onlyGraphQLError|by intros []].
  - simpl. case_bool_decide; [done|].
    apply onlyGraphQLError_bind; [apply shouldIncludeNode_onlyGraphQLError|].
    intros []; [|done]. destruct (fragments !! name); [|done].
    by destruct (doesFragmentConditionMatch _ _ _).
  - rewrite collectSelection_inline.
    apply onlyGraphQLError_bind; [apply shouldIncludeNode_onlyGraphQLError|].
    intros inc. destruct (inc && _); [|done].
    by apply collectSelections_onlyGraphQLError.
Qed.

Lemma collectFieldsImpl_onlyGraphQLError budget :
  forall sub st,
    onlyGraphQLError
      (collectFieldsImpl schema fragments variableValues runtimeType budget sub st).
Proof.
  induction budget as [|n IH]; intros sub st; [done|]. simpl.
  apply collectSelections_onlyGraphQLError, Forall_forall.
  intros s _. by apply collectSelection_onlyGraphQLError.
Qed.

Lemma collectFields_onlyGraphQLError selectionSet :
  onlyGraphQLError
    (collectFields schema fragments variableValues runtimeType selectionSet).
Proof.
  unfold collectFields.
  apply onlyGraphQLError_bind; [apply collectFieldsImpl_onlyGraphQLError|done].
Qed.
End collect_errors.

(** ** The type-inference error and its path (C3) *)

Section infer_error.
Context (h : Heap)
        (fragments : gmap string FragmentDefinitionNode)
        (variables : gmap string Value).

(** The check [pickField] makes on the object it is about to recurse into. *)
Lemma pickField_object schema rec fieldPath f sub a :
  field_selectionSet f = Some sub ->
  pickField h schema rec fieldPath f (VRef a) =
  match schema, runtimeObjectOf h schema a with
  | Some _, None => Throw (InferTypeError fieldPath)
  | _, runtimeObject => rec fieldPath a sub runtimeObject
  end.
Proof.
  intros Hsub. unfold pickField. rewrite Hsub.
  by destruct schema, (runtimeObjectOf h _ a).
Qed.

(** Values that are not objects pass through, whatever the field selects. *)
Lemma pickField_not_object schema rec fieldPath f v :
  (forall a, v <> VRef a) -> pickField h schema rec fieldPath f v = Ok (OVal v).
Proof.
  intros Hv. unfold pickField. destruct (field_selectionSet f); [|done].
  destruct v; try done. by destruct (Hv a).
Qed.

Lemma pickSelectionSet_infer_error schema n :
  forall path data selectionSet runtimeObject p,
    pickSelectionSet h schema fragments variables n path data selectionSet runtimeObject
      = Throw (InferTypeError p) ->
    exists steps a,
      steps <> [] /\ p = renderPath path steps /\
      navigate h data steps = Some a /\
      is_Some schema /\ runtimeObjectOf h schema a = None.
Proof.
  induction n as [|n IH]; intros path data ss rt p Hrun; [done|].
  rewrite pickSelectionSet_S in Hrun.
  apply res_bind_Throw in Hrun as [Hc|(fieldMap & _ & Hrun)].
  { pose proof (collectFields_onlyGraphQLError (schemaOf schema) fragments variables rt ss)
      as Hg. by rewrite Hc in Hg. }
  apply res_bind_Throw in Hrun as [Hfold|(? & _ & ?)]; [|done].
  apply foldM_res_Throw in Hfold as (picked & f & _ & Hstep).
  unfold pickInto in Hstep.
  apply res_bind_Throw in Hstep as [Hv|(? & _ & ?)]; [|done].
  assert (forall fieldPath v,
            pickField h schema (pickSelectionSet h schema fragments variables n)
              fieldPath f v = Throw (InferTypeError p) ->
            exists a steps,
              v = VRef a /\ p = renderPath fieldPath steps /\
              (exists a', navigate h a steps = Some a' /\
                          is_Some schema /\ runtimeObjectOf h schema a' = None))
    as Hpick.
  { intros fieldPath v Hthrow. unfold pickField in Hthrow.
    destruct (field_selectionSet f) as [sub|]; [|done].
    destruct v as [| | | | |a]; try done.
    destruct schema as [s|], (runtimeObjectOf h _ a) as [t|] eqn:Hrt.
    - apply IH in Hthrow as (steps & a' & _ & -> & Hnav & Hschema & Hnone).
      exists a, steps. eauto 10.
    - injection Hthrow as <-. exists a, []. split; [done|]. split; [done|].
      exists a. eauto.
    - apply IH in Hthrow as (steps & a' & _ & -> & Hnav & Hschema & Hnone).
      exists a, steps. eauto 10.
    - apply IH in Hthrow as (steps & a' & _ & -> & Hnav & Hschema & Hnone).
      exists a, steps. eauto 10. }
  destruct (asArray h (getProp h data (field_name f))) as [items|] eqn:Harr.
  - apply res_bind_Throw in Hv as [Hmap|(? & _ & ?)]; [|done].
    apply mapiM_res_Throw in Hmap as (j & item & Hitem & Hthrow). simpl in Hthrow.
    apply Hpick in Hthrow as (a & steps & -> & -> & a' & Hnav & Hschema & Hnone).
    exists (AtItem (field_name f) j :: steps), a'.
    split; [done|]. split; [done|]. split; [|done].
    simpl. by rewrite Harr, Hitem.
  - apply Hpick in Hv as (a & steps & Hval & -> & a' & Hnav & Hschema & Hnone).
    exists (AtField (field_name f) :: steps), a'.
    split; [done|]. split; [done|]. split; [|done].
    simpl. by rewrite Hval.
Qed.
End infer_error.

Lemma runtimeObjectOf_unresolved h schema a :
  runtimeObjectOf h schema a = None <->
  (forall t, getProp h a "__typename" = VStr t -> getType (schemaOf schema) t = None).
Proof.
  unfold runtimeObjectOf. destruct (getProp h a "__typename"); split; try done.
  - by intros ? ? [= <-].
  - intros H. by apply H.
Qed.

Lemma pickOperationFields_infer_error fuel h data documentNode operationName variables
    schema p :
  pickOperationFields fuel h data documentNode operationName variables schema
    = Throw (InferTypeError p) ->
  exists s steps a,
    schema = Some s /\ steps <> [] /\ p = renderPath "data" steps /\
    navigate h data steps = Some a /\ runtimeObjectOf h schema a = None.
Proof.
  unfold pickOperationFields.
  destruct (operations _ !! _) as [operation|]; [|done].
  intros (steps & a & ? & ? & ? & [s ->] & ?)%pickSelectionSet_infer_error.
  exists s, steps, a. done.
Qed.

(** C3: in schema-aware mode [pickField], about to recurse into the object
    at [a] under a field with a nested selection set, throws the
    type-inference error for [fieldPath] exactly when [__typename] is not a
    string or names no type of the schema, and otherwise recurses; a value
    that is not an object (null, undefined, a scalar) passes through; the
    path of an error that [pickOperationFields] throws is the rendered access
    path from [data] to an object of the payload with unresolved type; without
    a schema the error is never thrown.  The second employee's employer of
    the test business gives the path of the specification's example. *)
Theorem infer_type_error_exact (h : Heap) :
  (forall (s : GraphQLSchema) rec fieldPath f sub a,
      field_selectionSet f = Some sub ->
      (pickField h (Some s) rec fieldPath f (VRef a) = Throw (InferTypeError fieldPath)
       \/ exists t, runtimeObjectOf h (Some s) a = Some t /\
                    pickField h (Some s) rec fieldPath f (VRef a)
                    = rec fieldPath a sub (Some t)) /\
      ((forall t, getProp h a "__typename" = VStr t -> getType s t = None) ->
       pickField h (Some s) rec fieldPath f (VRef a) = Throw (InferTypeError fieldPath)) /\
      (forall t ty, getProp h a "__typename" = VStr t -> getType s t = Some ty ->
       pickField h (Some s) rec fieldPath f (VRef a) = rec fieldPath a sub (Some ty))) /\
  (forall schema rec fieldPath f v,
      (forall a, v <> VRef a) -> pickField h schema rec fieldPath f v = Ok (OVal v)) /\
  (forall fuel data documentNode operationName variables schema p,
      pickOperationFields fuel h data documentNode operationName variables schema
        = Throw (InferTypeError p) ->
      exists s steps a,
        schema = Some s /\ steps <> [] /\ p = renderPath "data" steps /\
        navigate h data steps = Some a /\
        (forall t, getProp h a "__typename" = VStr t -> getType s t = None)) /\
  (forall fuel data documentNode operationName variables p,
      pickOperationFields fuel h data documentNode operationName variables None
        <> Throw (InferTypeError p)) /\
  pickOperationFields 4 employerHeap 0 employerQuery None (Some ∅) (Some testSchema)
    = Throw (InferTypeError "data.business.employees[1].employer") /\
  error_message (InferTypeError "data.business.employees[1].employer")
    = "Unable to infer object type. Ensure " +:+ dq
      +:+ "data.business.employees[1].employer" +:+ dq +:+ " includes __typename.".
Proof.
  split; [|split; [|split; [|split; [|split]]]].
  - intros s rec fieldPath f sub a H.
    rewrite (pickField_object h _ _ _ _ _ _ H). split; [|split].
    + destruct (runtimeObjectOf h (Some s) a) as [t|]; eauto.
    + intros Hun. by rewrite (proj2 (runtimeObjectOf_unresolved h (Some s) a) Hun).
    + intros t ty Ht Hty. unfold runtimeObjectOf. rewrite Ht. simpl. by rewrite Hty.
  - intros. by apply pickField_not_object.
  - intros fuel data doc op vars schema p
      (s & steps & a & -> & ? & ? & ? & Hun)%pickOperationFields_infer_error.
    exists s, steps, a. repeat split; try done.
    by apply (runtimeObjectOf_unresolved h (Some s) a).
  - intros fuel data doc op vars p
      (s & steps & a & ? & _)%pickOperationFields_infer_error. done.
  - vm_compute. reflexivity.
  - vm_compute. reflexivity.
Qed.

Lemma infer_type_error_exact_witness :
  exists steps a,
    steps <> [] /\
    "data.business.employees[1].employer" = renderPath "data" steps /\
    navigate employerHeap 0 steps = Some a /\
    (forall t, getProp employerHeap a "__typename" = VStr t ->
               getType testSchema t = None).
Proof.
  destruct (infer_type_error_exact employerHeap) as (_ & _ & Hpath & _ & Hrun & _).
  destruct (Hpath _ _ _ _ _ _ _ Hrun) as (s & steps & a & [= <-] & H).
  exists steps, a. exact H.
Defined.

(** ** Field collection takes in every selected field *)

Lemma stateGrows_refl st : stateGrows st st.
Proof. split; auto. Qed.

Lemma stateGrows_trans st1 st2 st3 :
  stateGrows st1 st2 -> stateGrows st2 st3 -> stateGrows st1 st3.
Proof. intros [? ?] [? ?]. split; [auto|set_solver]. Qed.

Section closure.
Context (schema : GraphQLSchema)
        (fragments : gmap string FragmentDefinitionNode)
        (variableValues : gmap string Value)
        (runtimeType : option GraphQLNamedType).

Abbreviation matches' := (fun tc => doesFragmentConditionMatch schema tc runtimeType).
Abbreviation Covered' := (Covered matches' variableValues).
Abbreviation closedFragment' := (closedFragment matches' variableValues fragments).
Abbreviation collected' := (collected matches' variableValues fragments).

Lemma Covered_mono st st' :
  stateGrows st st' -> forall s, Covered' st s -> Covered' st' s.
Proof.
  intros [Hfields Hvisited].
  induction s as [alias name directives|alias name directives sub IH
                 |name directives|tc directives sub IH]
    using Selection_nested_ind; intros Hc; inversion Hc; subst; constructor; auto.
  intros Hi Hm.
  match goal with
  | H : _ -> _ -> Forall _ sub |- _ => specialize (H Hi Hm); rename H into Hsub
  end.
  clear -IH Hsub. induction IH as [|s sub Hs _ IHsub]; [constructor|].
  inversion Hsub; subst. constructor; auto.
Qed.

Lemma Forall_Covered_mono st st' l :
  stateGrows st st' -> Forall (Covered' st) l -> Forall (Covered' st') l.
Proof.
  intros Hg Hl. eapply Forall_impl; [exact Hl|]. intros s. by apply Covered_mono.
Qed.

Lemma closedFragment_mono st st' name :
  stateGrows st st' -> closedFragment' st name -> closedFragment' st' name.
Proof.
  intros Hg Hc fragment Hf Hm. eapply Forall_Covered_mono; eauto.
Qed.

Lemma collected_seq l1 l2 st (m : Res CollectState) (k : CollectState -> Res CollectState) :
  collected' l1 st m ->
  (forall st1, m = Ok st1 -> collected' l2 st1 (k st1)) ->
  collected' (l1 ++ l2) st (res_bind m k).
Proof.
  destruct m as [st1| |]; simpl; try done.
  intros (Hg1 & Hc1 & Hv1) Hk. specialize (Hk st1 eq_refl).
  destruct (k st1) as [st2| |]; simpl in *; try done.
  destruct Hk as (Hg2 & Hc2 & Hv2). split; [|split].
  - eapply stateGrows_trans; eauto.
  - apply Forall_app. split; [|done]. eapply Forall_Covered_mono; eauto.
  - intros name Hin Hnot. destruct (decide (name ∈ cs_visited st1)) as [Hin1|Hnot1].
    + eapply closedFragment_mono; eauto.
    + auto.
Qed.

Lemma collected_unchanged l st :
  Forall (Covered' st) l -> collected' l st (Ok st).
Proof.
  intros Hc. split; [apply stateGrows_refl|]. split; [done|]. intros; done.
Qed.

Lemma collectSelections_collected spread sub :
  Forall (fun s => forall st, collected' [s] st
            (collectSelection schema fragments variableValues runtimeType spread s st))
         sub ->
  forall st, collected' sub st
    (collectSelections schema fragments variableValues runtimeType spread sub st).
Proof.
  induction 1 as [|s sub Hs _ IH]; intros st.
  - by apply collected_unchanged.
  - rewrite collectSelections_cons. apply (collected_seq [s] sub); auto.
Qed.

Lemma collectSelection_collected spread :
  (forall sub st, collected' sub st (spread sub st)) ->
  forall s st, collected' [s] st
    (collectSelection schema fragments variableValues runtimeType spread s st).
Proof.
  intros Hspread.
  assert (forall alias name directives sub st,
            collected' [Field alias name directives sub] st
              (collectSelection schema fragments variableValues runtimeType spread
                 (Field alias name directives sub) st)) as Hfield.
  { intros alias name directives sub st. simpl.
    destruct (shouldIncludeNode variableValues directives) as [[]| |] eqn:Hinc;
      simpl; try done.
    - split; [|split].
      + split; simpl; [|done]. intros f Hf. apply elem_of_fieldNodes_addField. auto.
      + repeat constructor. intros _. simpl.
        apply elem_of_fieldNodes_addField. by left.
      + simpl. intros; done.
    - apply collected_unchanged. repeat constructor. by rewrite Hinc. }
  induction s as [alias name directives|alias name directives sub IH
                 |name directives|tc directives sub IH]
    using Selection_nested_ind; intros st; auto.
  - simpl. case_bool_decide as Hvis.
    { apply collected_unchanged. repeat constructor. done. }
    destruct (shouldIncludeNode variableValues directives) as [[]| |] eqn:Hinc;
      simpl; try done.
    2:{ apply collected_unchanged. repeat constructor. by rewrite Hinc. }
    set (st1 := {| cs_fields := cs_fields st;
                   cs_visited := {[name]} ∪ cs_visited st |}).
    assert (stateGrows st st1) as Hg1 by (split; simpl; [auto|set_solver]).
    assert (name ∈ cs_visited st1) as Hname by (simpl; set_solver).
    destruct (fragments !! name) as [fragment|] eqn:Hfrag.
    2:{ split; [done|]. split; [repeat constructor; done|].
        intros name' Hin Hnot fragment' Hf'.
        assert (name' = name) as -> by (simpl in Hin; set_solver). congruence. }
    destruct (doesFragmentConditionMatch schema _ runtimeType) eqn:Hmatch.
    2:{ split; [done|]. split; [repeat constructor; done|].
        intros name' Hin Hnot fragment' Hf' Hm'.
        assert (name' = name) as -> by (simpl in Hin; set_solver). congruence. }
    specialize (Hspread (frag_selectionSet fragment) st1).
    destruct (spread _ st1) as [st2| |]; simpl in *; try done.
    destruct Hspread as (Hg2 & Hc2 & Hv2). split; [|split].
    + eapply stateGrows_trans; eauto.
    + repeat constructor. intros _. by apply Hg2.
    + intros name' Hin Hnot. destruct (decide (name' = name)) as [->|Hne].
      * intros fragment' Hf' _. congruence.
      * apply Hv2; [done|]. set_solver.
  - rewrite collectSelection_inline.
    destruct (shouldIncludeNode variableValues directives) as [inc| |] eqn:Hinc;
      simpl; try done.
    destruct (inc && _) eqn:Hcond.
    + apply andb_true_iff in Hcond as [-> Hm].
      pose proof (collectSelections_collected spread sub IH st) as Hsub.
      destruct (collectSelections _ _ _ _ _ sub st) as [st'| |]; simpl in *; try done.
      destruct Hsub as (Hg & Hc & Hv). split; [done|]. split; [|done].
      repeat constructor. done.
    + apply collected_unchanged. repeat constructor. intros Hi Hm.
      rewrite Hinc in Hi. injection Hi as ->. simpl in Hcond. congruence.
Qed.

Lemma collectFieldsImpl_collected budget :
  forall sub st, collected' sub st
    (collectFieldsImpl schema fragments variableValues runtimeType budget sub st).
Proof.
  induction budget as [|n IH]; intros sub st; [done|]. simpl.
  apply collectSelections_collected, Forall_forall.
  intros s _. by apply collectSelection_collected.
Qed.

(** In a state whose visited fragments are all closed, every selected field
    of covered selections has been collected. *)
Lemma FieldIn_collected st f l :
  (forall name, name ∈ cs_visited st -> closedFragment' st name) ->
  FieldIn matches' variableValues fragments f l ->
  Forall (Covered' st) l ->
  f ∈ fieldNodes (cs_fields st).
Proof.
  intros Hclosed. induction 1 as [alias name directives sub l Hin Hinc
                                 |tc directives body f l Hin Hinc Hm _ IH
                                 |name directives fragment f l Hin Hinc Hfrag Hm _ IH];
    intros Hcov; rewrite Forall_forall in Hcov; specialize (Hcov _ Hin);
    inversion Hcov; subst.
  - auto.
  - auto.
  - apply IH. eapply Hclosed; eauto.
Qed.

(** Completeness of [collectFields]. *)
Lemma collectFields_complete selectionSet fieldMap f :
  collectFields schema fragments variableValues runtimeType selectionSet = Ok fieldMap ->
  FieldIn matches' variableValues fragments f selectionSet ->
  f ∈ fieldNodes fieldMap.
Proof.
  unfold collectFields. intros (st & Hrun & [= <-])%res_bind_Ok Hin.
  pose proof (collectFieldsImpl_collected (S (size fragments)) selectionSet
                {| cs_fields := []; cs_visited := ∅ |}) as Hspec.
  rewrite Hrun in Hspec. destruct Hspec as (_ & Hcov & Hclosed).
  eapply FieldIn_collected; eauto.
  intros name Hname. apply Hclosed; [done|]. simpl. set_solver.
Qed.
End closure.

(** ** Every collected node gets its key *)

Lemma assoc_setProp_is_Some {A} (k k' : string) (v : A) (l : list (string * A)) :
  is_Some (assoc k l) -> is_Some (assoc k (setProp k' v l)).
Proof.
  intros H. destruct (decide (k' = k)) as [->|Hne].
  - rewrite assoc_setProp_eq. eauto.
  - by rewrite assoc_setProp_ne.
Qed.

Lemma fold_pickInto_key h pick path data f l :
  f ∈ l ->
  forall picked props,
    foldM_res (pickInto h pick path data) picked l = Ok props ->
    is_Some (assoc (field_name f) props).
Proof.
  assert (forall l picked props,
            foldM_res (pickInto h pick path data) picked l = Ok props ->
            is_Some (assoc (field_name f) picked) ->
            is_Some (assoc (field_name f) props)) as Hkeep.
  { clear l. induction l as [|x l IH]; intros picked props Hrun Hk; simpl in Hrun.
    - by injection Hrun as <-.
    - apply res_bind_Ok in Hrun as (picked1 & Hstep & Hrest).
      apply (IH _ _ Hrest). unfold pickInto in Hstep.
      apply res_bind_Ok in Hstep as (v & _ & [= <-]).
      by apply assoc_setProp_is_Some. }
  induction l as [|x l IH]; intros Hf picked props Hrun; [by apply elem_of_nil in Hf|].
  simpl in Hrun. apply res_bind_Ok in Hrun as (picked1 & Hstep & Hrest).
  apply elem_of_cons in Hf as [->|Hf]; [|eauto].
  apply (Hkeep _ _ _ Hrest). unfold pickInto in Hstep.
  apply res_bind_Ok in Hstep as (v & _ & [= <-]).
  rewrite assoc_setProp_eq. eauto.
Qed.

Lemma fold_pickInto_own_key h pick data f l :
  f ∈ l -> hasOwnProperty h data (field_name f) = true ->
  forall picked props,
    foldM_res (OwnProps.pickInto h pick data) picked l = Ok props ->
    is_Some (assoc (field_name f) props).
Proof.
  intros Hf Hown.
  assert (forall l picked props,
            foldM_res (OwnProps.pickInto h pick data) picked l = Ok props ->
            is_Some (assoc (field_name f) picked) ->
            is_Some (assoc (field_name f) props)) as Hkeep.
  { clear l Hf. induction l as [|x l IH]; intros picked props Hrun Hk; simpl in Hrun.
    - by injection Hrun as <-.
    - apply res_bind_Ok in Hrun as (picked1 & Hstep & Hrest).
      apply (IH _ _ Hrest). unfold OwnProps.pickInto in Hstep.
      destruct (hasOwnProperty h data (field_name x)); [|by injection Hstep as <-].
      apply res_bind_Ok in Hstep as (v & _ & [= <-]).
      by apply assoc_setProp_is_Some. }
  induction l as [|x l IH]; intros picked props Hrun; [by apply elem_of_nil in Hf|].
  simpl in Hrun. apply res_bind_Ok in Hrun as (picked1 & Hstep & Hrest).
  apply elem_of_cons in Hf as [->|Hf]; [|eauto].
  apply (Hkeep _ _ _ Hrest). unfold OwnProps.pickInto in Hstep.
  rewrite Hown in Hstep.
  apply res_bind_Ok in Hstep as (v & _ & [= <-]).
  rewrite assoc_setProp_eq. eauto.
Qed.

Lemma FieldIn_ext (m1 m2 : option string -> bool) variableValues fragments f l :
  (forall tc, m1 tc = true -> m2 tc = true) ->
  FieldIn m1 variableValues fragments f l -> FieldIn m2 variableValues fragments f l.
Proof.
  intros Hm. induction 1.
  - by apply FieldIn_field.
  - eapply FieldIn_inline; eauto.
  - eapply FieldIn_spread; eauto.
Qed.

(** A selected field is a key of the projection. *)
Lemma pickSelectionSet_selected_key h schema fragments variables n path data selectionSet
    runtimeObject f props :
  FieldIn (fun tc => doesFragmentConditionMatch (schemaOf schema) tc runtimeObject)
          variables fragments f selectionSet ->
  pickSelectionSet h schema fragments variables (S n) path data selectionSet runtimeObject
    = Ok (OObj props) ->
  is_Some (assoc (field_name f) props).
Proof.
  intros Hin Hrun. rewrite pickSelectionSet_S in Hrun.
  apply res_bind_Ok in Hrun as (fieldMap & Hcollect & Hrun).
  apply res_bind_Ok in Hrun as (picked & Hfold & [= <-]).
  eapply fold_pickInto_key; [|exact Hfold].
  eapply collectFields_complete; eauto.
Qed.

(** ** Conditional branches without a schema (C7) *)

Lemma dummySchema_matches typeCondition :
  doesFragmentConditionMatch dummySchema typeCondition None = true.
Proof. by destruct typeCondition. Qed.

Lemma runtimeObjectOf_schemaless h a : runtimeObjectOf h None a = None.
Proof. unfold runtimeObjectOf. by destruct (getProp h a "__typename"). Qed.

(** The conditional-fragment tests: without a schema, each relationship gets
    the fields of both branches. *)
Example relationships_combined_own :
  OwnProps.pickOperationFields 3 relationshipsHeap 0 relationshipsQuery None None
  = Ok (OObj [("user",
         OObj [("relationships",
           OArr [ OObj [("id", OVal (VStr "0864297531")); ("type", OVal (VStr "SME"))];
                  OObj [("id", OVal (VStr "0987654321")); ("name", OVal (VStr "Jill"))];
                  OObj [("id", OVal (VStr "1357902468")); ("name", OVal VNull);
                        ("type", OVal (VStr "unknown"))] ])])]).
Proof. vm_compute. reflexivity. Qed.

Example relationships_combined :
  pickOperationFields 3 relationshipsHeap 0 relationshipsQuery None None None
  = Ok (OObj [("user",
         OObj [("relationships",
           OArr [ OObj [("id", OVal (VStr "0864297531")); ("name", OVal VUndefined);
                        ("type", OVal (VStr "SME"))];
                  OObj [("id", OVal (VStr "0987654321")); ("name", OVal (VStr "Jill"));
                        ("type", OVal VUndefined)];
                  OObj [("id", OVal (VStr "1357902468")); ("name", OVal VNull);
                        ("type", OVal (VStr "unknown"))] ])])]).
Proof. vm_compute. reflexivity. Qed.

(** With the schema of the tests, only the branch of the object's type. *)
Example relationships_by_type :
  pickSelectionSet relationshipsHeap (Some testSchema)
    (fragments (extractDefinitions relationshipsQuery)) ∅ 2 "data.user" 1
    [ node "relationships"
        [ FragmentSpread "UserFields" [];
          InlineFragment (Some "Business") [] [ leaf "id"; leaf "type" ] ] ]
    (Some (objectType "Account"))
  = Throw (InferTypeError "data.user.relationships[2]") /\
  pickSelectionSet relationshipsHeap (Some testSchema)
    (fragments (extractDefinitions relationshipsQuery)) ∅ 1 "data.user.relationships[0]" 3
    [ FragmentSpread "UserFields" [];
      InlineFragment (Some "Business") [] [ leaf "id"; leaf "type" ] ]
    (Some (objectType "Business"))
  = Ok (OObj [("id", OVal (VStr "0864297531")); ("type", OVal (VStr "SME"))]).
Proof. split; vm_compute; reflexivity. Qed.

(** C7: without a schema, a field selected through any chain of inline
    fragments and fragment spreads, whatever their type conditions, is a key
    of the projection of every payload object (in the variant guarded by
    [hasOwnProperty]: of every object that has the field), at the root and
    at every nested call, since the runtime type inferred from [__typename]
    is then always absent and every type condition matches. *)
Theorem schemaless_branches_combined
    (h : Heap) (fragments : gmap string FragmentDefinitionNode)
    (variables : gmap string Value) (data : addr) (selectionSet : SelectionSetNode)
    (f : FieldNode) :
  FieldIn (fun _ => true) variables fragments f selectionSet ->
  (forall n path props,
      pickSelectionSet h None fragments variables (S n) path data selectionSet None
        = Ok (OObj props) ->
      is_Some (assoc (field_name f) props)) /\
  (forall n props,
      hasOwnProperty h data (field_name f) = true ->
      OwnProps.pickSelectionSet h fragments variables (S n) data selectionSet
        = Ok (OObj props) ->
      is_Some (assoc (field_name f) props)) /\
  (forall a, runtimeObjectOf h None a = None) /\
  (forall operation, getRootType (schemaOf None) operation = None) /\
  (forall typeCondition,
      doesFragmentConditionMatch dummySchema typeCondition None = true).
Proof.
  intros Hin.
  assert (FieldIn (fun tc => doesFragmentConditionMatch dummySchema tc None)
            variables fragments f selectionSet) as Hin'.
  { eapply FieldIn_ext; [|exact Hin]. intros; apply dummySchema_matches. }
  split; [|split; [|split; [|split]]].
  - intros n path props Hrun.
    eapply pickSelectionSet_selected_key; [|exact Hrun]. exact Hin'.
  - intros n props Hown Hrun. simpl in Hrun.
    apply res_bind_Ok in Hrun as (fieldMap & Hcollect & Hrun).
    apply res_bind_Ok in Hrun as (picked & Hfold & [= <-]).
    eapply fold_pickInto_own_key; [|exact Hown|exact Hfold].
    eapply collectFields_complete; eauto.
  - apply runtimeObjectOf_schemaless.
  - by intros [].
  - apply dummySchema_matches.
Qed.

Lemma schemaless_branches_combined_witness :
  is_Some (assoc "type"
             [("id", OVal (VStr "0987654321")); ("name", OVal (VStr "Jill"));
              ("type", OVal VUndefined)]).
Proof.
  refine (proj1 (schemaless_branches_combined relationshipsHeap
            (fragments (extractDefinitions relationshipsQuery)) ∅ 4
            [ FragmentSpread "UserFields" [];
              InlineFragment (Some "Business") [] [ leaf "id"; leaf "type" ] ]
            (fieldNodeOf None "type" [] None) _) 0 "data.user.relationships[1]" _ _).
  - eapply (FieldIn_inline _ _ _ (Some "Business") [] [ leaf "id"; leaf "type" ]).
    + apply list_elem_of_further, list_elem_of_here.
    + vm_compute. reflexivity.
    + reflexivity.
    + apply (FieldIn_field _ _ _ None "type" [] None).
      * apply list_elem_of_further, list_elem_of_here.
      * vm_compute. reflexivity.
  - vm_compute. reflexivity.
Defined.

(** ** [@skip] and [@include] (C6) *)

Lemma shouldIncludeNode_table (variables : gmap string Value) (sv iv : string)
    (s i : bool) :
  variables !! sv = Some (VBool s) -> variables !! iv = Some (VBool i) ->
  shouldIncludeNode variables [skipIf sv; includeIf iv] = Ok (negb s && i) /\
  shouldIncludeNode variables [includeIf iv; skipIf sv] = Ok (negb s && i) /\
  shouldIncludeNode variables [skipIf sv] = Ok (negb s) /\
  shouldIncludeNode variables [includeIf iv] = Ok i.
Proof.
  intros Hs Hi. unfold shouldIncludeNode, getDirectiveIf. cbn.
  rewrite Hs, Hi. by destruct s, i.
Qed.

Section directives.
Context (h : Heap)
        (fragments : gmap string FragmentDefinitionNode)
        (variables : gmap string Value).

(** An excluded field is as good as not written. *)
Lemma collectFields_excluded schema runtimeType pre post alias name directives sub :
  shouldIncludeNode variables directives = Ok false ->
  collectFields schema fragments variables runtimeType
    (pre ++ Field alias name directives sub :: post)
  = collectFields schema fragments variables runtimeType (pre ++ post).
Proof.
  intros Hex. unfold collectFields. f_equal. simpl.
  rewrite !collectSelections_app.
  destruct (collectSelections _ _ _ _ _ pre _) as [st| |]; simpl; try done.
  rewrite collectSelections_cons. simpl. by rewrite Hex.
Qed.

Lemma pickSelectionSet_excluded schema fuel path data runtimeObject pre post alias name
    directives sub :
  shouldIncludeNode variables directives = Ok false ->
  pickSelectionSet h schema fragments variables fuel path data
    (pre ++ Field alias name directives sub :: post) runtimeObject
  = pickSelectionSet h schema fragments variables fuel path data
      (pre ++ post) runtimeObject.
Proof.
  intros Hex. destruct fuel as [|n]; [done|].
  rewrite !pickSelectionSet_S. by rewrite collectFields_excluded.
Qed.

Lemma pickSelectionSet_included schema n path data runtimeObject pre post alias name
    directives sub props :
  shouldIncludeNode variables directives = Ok true ->
  pickSelectionSet h schema fragments variables (S n) path data
    (pre ++ Field alias name directives sub :: post) runtimeObject = Ok (OObj props) ->
  is_Some (assoc name props).
Proof.
  intros Hinc Hrun.
  apply (pickSelectionSet_selected_key _ _ _ _ _ _ _ _ _
           (fieldNodeOf alias name directives sub) _) in Hrun; [done|].
  apply FieldIn_field; [|done]. apply elem_of_app. right. by left.
Qed.

Lemma pickSelectionSet_nothing schema n path data runtimeObject :
  pickSelectionSet h schema fragments variables (S n) path data [] runtimeObject
  = Ok (OObj []).
Proof. reflexivity. Qed.
End directives.

(** C6: with boolean runtime values [s] and [i] for the variables of
    [@skip(if: $sv)] and [@include(if: $iv)], a field carrying both (in either
    order) is kept exactly when [s] is false and [i] is true, one carrying
    only [@skip] when [s] is false, one carrying only [@include] when [i] is
    true.  A field that is not kept is projected as if it were not written
    (alone in its selection set it leaves an empty object); a field that is
    kept is a key of the projection. *)
Theorem skip_include_table
    (variables : gmap string Value) (sv iv : string) (s i : bool)
    (directives : list DirectiveNode) (keep : bool) :
  variables !! sv = Some (VBool s) ->
  variables !! iv = Some (VBool i) ->
  (directives, keep) ∈ [ ([skipIf sv; includeIf iv], negb s && i);
                         ([includeIf iv; skipIf sv], negb s && i);
                         ([skipIf sv], negb s);
                         ([includeIf iv], i) ] ->
  shouldIncludeNode variables directives = Ok keep /\
  forall h schema fragments n path data runtimeObject alias name sub,
    (keep = false ->
     (forall pre post,
         pickSelectionSet h schema fragments variables (S n) path data
           (pre ++ Field alias name directives sub :: post) runtimeObject
         = pickSelectionSet h schema fragments variables (S n) path data
             (pre ++ post) runtimeObject) /\
     pickSelectionSet h schema fragments variables (S n) path data
       [Field alias name directives sub] runtimeObject = Ok (OObj [])) /\
    (keep = true ->
     forall pre post props,
       pickSelectionSet h schema fragments variables (S n) path data
         (pre ++ Field alias name directives sub :: post) runtimeObject
         = Ok (OObj props) ->
       is_Some (assoc name props)).
Proof.
  intros Hs Hi Hin.
  destruct (shouldIncludeNode_table variables sv iv s i Hs Hi) as (H1 & H2 & H3 & H4).
  assert (shouldIncludeNode variables directives = Ok keep) as Hkeep.
  { repeat (apply elem_of_cons in Hin as [[= -> ->]|Hin]; [done|]).
    by apply elem_of_nil in Hin. }
  split; [done|]. intros h schema fragments n path data rt alias name sub. split.
  - intros ->. split.
    + intros pre post. by apply pickSelectionSet_excluded.
    + apply (pickSelectionSet_excluded h fragments variables schema (S n) path data
               rt [] [] alias name directives sub Hkeep).
  - intros -> pre post props Hrun. eapply pickSelectionSet_included; eauto.
Qed.

(** The four combinations of the test "includes fields with include
    directive enabled and skip directive disabled". *)
Example directive_combinations :
  forall includeId skipId,
    pickOperationFields 2 directiveHeap 0 directiveQuery None
      (Some (directiveVariables includeId skipId)) None
    = Ok (OObj [("user",
            OObj (if negb skipId && includeId
                  then [("id", OVal (VStr "123456789")); ("name", OVal (VStr "Jack"))]
                  else [("name", OVal (VStr "Jack"))]))]).
Proof. intros [] []; vm_compute; reflexivity. Qed.

Lemma skip_include_table_witness :
  shouldIncludeNode (directiveVariables true true)
    [includeIf "includeId"; skipIf "skipId"] = Ok false.
Proof.
  refine (proj1 (skip_include_table (directiveVariables true true) "skipId" "includeId"
                   true true [includeIf "includeId"; skipIf "skipId"] false _ _ _)).
  - vm_compute. reflexivity.
  - vm_compute. reflexivity.
  - apply list_elem_of_further, list_elem_of_here.
Defined.

(** ** Duplicate definitions (C10) *)

Lemma foldl_insert_other {A} (key : A -> string) (l : list A) :
  forall (m : gmap string A) k,
    (forall x, x ∈ l -> key x <> k) ->
    foldl (fun m x => <[key x := x]> m) m l !! k = m !! k.
Proof.
  induction l as [|x l IH]; intros m k Hne; simpl; [done|].
  rewrite IH by (intros; apply Hne; by right).
  apply lookup_insert_ne, Hne. by left.
Qed.

Lemma foldl_insert_last {A} (key : A -> string) (l1 l2 : list A) (d : A) :
  (forall x, x ∈ l2 -> key x <> key d) ->
  forall m : gmap string A,
    foldl (fun m x => <[key x := x]> m) m (l1 ++ d :: l2) !! key d = Some d.
Proof.
  intros Hne m. rewrite foldl_app. simpl.
  rewrite foldl_insert_other by done. apply lookup_insert_eq.
Qed.

Lemma operations_of_app pre post :
  omap asOperationDefinition (List.filter isOperationDefinition (pre ++ post)) =
  omap asOperationDefinition (List.filter isOperationDefinition pre) ++
  omap asOperationDefinition (List.filter isOperationDefinition post).
Proof. by rewrite List.filter_app, omap_app. Qed.

Lemma fragments_of_app pre post :
  omap asFragmentDefinition (List.filter isFragmentDefinition (pre ++ post)) =
  omap asFragmentDefinition (List.filter isFragmentDefinition pre) ++
  omap asFragmentDefinition (List.filter isFragmentDefinition post).
Proof. by rewrite List.filter_app, omap_app. Qed.

Lemma elem_of_operations_of d l :
  d ∈ omap asOperationDefinition (List.filter isOperationDefinition l) ->
  OperationDefinition d ∈ l.
Proof.
  intros (x & Hx & Hd)%list_elem_of_omap.
  apply list_elem_of_In, List.filter_In in Hx as [Hx _].
  destruct x; simplify_eq/=. by apply list_elem_of_In.
Qed.

Lemma elem_of_fragments_of d l :
  d ∈ omap asFragmentDefinition (List.filter isFragmentDefinition l) ->
  FragmentDefinition d ∈ l.
Proof.
  intros (x & Hx & Hd)%list_elem_of_omap.
  apply list_elem_of_In, List.filter_In in Hx as [Hx _].
  destruct x; simplify_eq/=. by apply list_elem_of_In.
Qed.

Lemma extractDefinitions_last_operation pre post d :
  (forall d', OperationDefinition d' ∈ post -> operationKey d' <> operationKey d) ->
  operations (extractDefinitions {| definitions := pre ++ OperationDefinition d :: post |})
    !! operationKey d = Some d.
Proof.
  intros Hne. unfold extractDefinitions; simpl.
  rewrite operations_of_app. simpl.
  apply (foldl_insert_last operationKey). intros x Hx.
  by apply Hne, elem_of_operations_of.
Qed.

Lemma extractDefinitions_last_fragment pre post d :
  (forall d', FragmentDefinition d' ∈ post -> frag_name d' <> frag_name d) ->
  fragments (extractDefinitions {| definitions := pre ++ FragmentDefinition d :: post |})
    !! frag_name d = Some d.
Proof.
  intros Hne. unfold extractDefinitions; simpl.
  rewrite fragments_of_app. simpl.
  apply (foldl_insert_last frag_name). intros x Hx.
  by apply Hne, elem_of_fragments_of.
Qed.

(** C10: extraction raises nothing (it is a total function into a pair of
    maps); an operation definition that no later operation shares its key
    with is the one the key resolves to, whatever precedes it, anonymous
    operations all having the reserved key; projection under that key uses
    its selection set; and a fragment name resolves to the last fragment
    definition of that name. *)
Theorem extractDefinitions_last_wins
    (pre post : list DefinitionNode) (d : OperationDefinitionNode) :
  (forall d', OperationDefinition d' ∈ post -> operationKey d' <> operationKey d) ->
  let documentNode := {| definitions := pre ++ OperationDefinition d :: post |} in
  operations (extractDefinitions documentNode) !! operationKey d = Some d /\
  (op_name d = None -> operationKey d = anonymousOperationKey) /\
  (forall fuel h data operationName variables schema,
      or_else operationName anonymousOperationKey = operationKey d ->
      pickOperationFields fuel h data documentNode operationName variables schema
      = pickSelectionSet h schema (fragments (extractDefinitions documentNode))
          (default ∅ variables) fuel "data" data (op_selectionSet d)
          (getRootType (schemaOf schema) (op_operation d)) /\
      OwnProps.pickOperationFields fuel h data documentNode operationName variables
      = OwnProps.pickSelectionSet h (fragments (extractDefinitions documentNode))
          (default ∅ variables) fuel data (op_selectionSet d)) /\
  (forall pre' post' fd,
      (forall fd', FragmentDefinition fd' ∈ post' -> frag_name fd' <> frag_name fd) ->
      fragments (extractDefinitions
                   {| definitions := pre' ++ FragmentDefinition fd :: post' |})
        !! frag_name fd = Some fd).
Proof.
  intros Hne documentNode.
  pose proof (extractDefinitions_last_operation pre post d Hne) as Hop.
  split; [done|]. split; [|split].
  - intros Hanon. unfold operationKey. by rewrite Hanon.
  - intros fuel h data operationName variables schema Hkey.
    unfold pickOperationFields, OwnProps.pickOperationFields.
    fold documentNode in Hop. by rewrite Hkey, Hop.
  - intros; by apply extractDefinitions_last_fragment.
Qed.

(** Of two anonymous operations and two fragments called [F], the later
    ones decide the projection. *)
Example duplicates_use_last :
  pickOperationFields 1 directiveHeap 1 duplicatesQuery None None None
  = Ok (OObj [("name", OVal (VStr "Jack"))]).
Proof. vm_compute. reflexivity. Qed.

Lemma extractDefinitions_last_wins_witness :
  operations (extractDefinitions duplicatesQuery) !! anonymousOperationKey
  = Some {| op_operation := QUERY; op_name := None;
            op_selectionSet := [ FragmentSpread "F" [] ] |}.
Proof.
  refine (proj1 (extractDefinitions_last_wins
    [ query None [ leaf "id" ];
      FragmentDefinition {| frag_name := "F"; frag_typeCondition := "User";
                            frag_selectionSet := [ leaf "id" ] |} ]
    [ FragmentDefinition {| frag_name := "F"; frag_typeCondition := "User";
                            frag_selectionSet := [ leaf "name" ] |} ]
    {| op_operation := QUERY; op_name := None;
       op_selectionSet := [ FragmentSpread "F" [] ] |} _)).
  intros d' Hd'. apply list_elem_of_singleton in Hd'. discriminate.
Defined.

(** ** Anonymous operations among several (C5) *)

Lemma find_some_of_elem {A} (f : A -> bool) (l : list A) (x : A) :
  x ∈ l -> f x = true -> is_Some (List.find f l).
Proof.
  induction l as [|y l IH]; intros Hx Hf; [by apply elem_of_nil in Hx|].
  simpl. destruct (f y) eqn:Hy; [eauto|].
  apply elem_of_cons in Hx as [->|Hx]; [congruence|auto].
Qed.


(** *** The scan of the execution context *)







(** ** Requests outside the protocol and malformed requests (C4) *)

Section normalizer_facts.
Context (jsonParse : JV -> JV)
        (jsonParseOperations : JV -> option Normalizer.ParsedOperations)
        (jsonParseMap : JV -> option (list (string * list string)))
        (parse : JV -> string + DocumentNode)
        (buildExecutionContext :
           DocumentNode -> JV -> JV -> list string + (OperationDefinitionNode * JV))
        (getPublicUrlFromRequest : Normalizer.MockedRequest -> string).

Abbreviation getGraphQLInput' :=
  (Normalizer.getGraphQLInput jsonParse jsonParseOperations jsonParseMap).
Abbreviation parseGraphQLRequest' :=
  (Normalizer.parseGraphQLRequest jsonParse jsonParseOperations jsonParseMap
     parse buildExecutionContext getPublicUrlFromRequest).

Lemma parseGraphQLRequest_not_applicable request :
  carriesNoQuery request -> parseGraphQLRequest' request = Ok None.
Proof.
  unfold carriesNoQuery, Normalizer.parseGraphQLRequest, Normalizer.getGraphQLInput.
  destruct (String.eqb _ "GET"); [intros H; simpl; by rewrite H|].
  destruct (String.eqb _ "POST"); [|done].
  by intros [-> ->].
Qed.

Lemma parseGraphQLRequest_malformed request input message :
  getGraphQLInput' request = Ok (Some input) ->
  truthy (Normalizer.in_query input) = true ->
  parse (Normalizer.in_query input) = inl message ->
  parseGraphQLRequest' request
  = Throw (PlainError (Normalizer.failedToIntercept (Normalizer.req_method request)
                         (getPublicUrlFromRequest request) message)).
Proof.
  intros Hin Hq Hparse. unfold Normalizer.parseGraphQLRequest.
  rewrite Hin. simpl. rewrite Hq. simpl.
  unfold Normalizer.parseQuery. by rewrite Hparse.
Qed.

(** GET requests and JSON POST requests are normalized without throwing. *)
Lemma getGraphQLInput_plain request :
  Normalizer.req_method request = "GET" \/
  (Normalizer.req_method request = "POST" /\
   truthy (jget (Normalizer.req_body request) "query") = true) ->
  exists input, getGraphQLInput' request = Ok (Some input).
Proof.
  unfold Normalizer.getGraphQLInput. intros [->|[-> ->]]; simpl; eauto.
Qed.
End normalizer_facts.

(** C4: a request that carries no query yields undefined without throwing;
    a request that was normalized to an input with a query the parser
    rejects makes [parseGraphQLRequest] throw the one error whose message
    names the method and the public URL and ends with the parser's message.
    GET and JSON POST requests are always normalized. *)
Theorem parseGraphQLRequest_undefined_or_descriptive_error
    (jsonParse : JV -> JV)
    (jsonParseOperations : JV -> option Normalizer.ParsedOperations)
    (jsonParseMap : JV -> option (list (string * list string)))
    (parse : JV -> string + DocumentNode)
    (buildExecutionContext :
       DocumentNode -> JV -> JV -> list string + (OperationDefinitionNode * JV))
    (getPublicUrlFromRequest : Normalizer.MockedRequest -> string)
    (request : Normalizer.MockedRequest) :
  (carriesNoQuery request ->
   Normalizer.parseGraphQLRequest jsonParse jsonParseOperations jsonParseMap
     parse buildExecutionContext getPublicUrlFromRequest request = Ok None) /\
  (forall input message,
      Normalizer.getGraphQLInput jsonParse jsonParseOperations jsonParseMap request
        = Ok (Some input) ->
      truthy (Normalizer.in_query input) = true ->
      parse (Normalizer.in_query input) = inl message ->
      Normalizer.parseGraphQLRequest jsonParse jsonParseOperations jsonParseMap
        parse buildExecutionContext getPublicUrlFromRequest request
      = Throw (PlainError
                 ("[MSW] Failed to intercept a GraphQL request to " +:+ dq
                  +:+ Normalizer.req_method request +:+ " "
                  +:+ getPublicUrlFromRequest request +:+ dq
                  +:+ ": cannot parse query. See the error message from the parser below."
                  +:+ Normalizer.newline +:+ Normalizer.newline +:+ message))) /\
  (Normalizer.req_method request = "GET" \/
   (Normalizer.req_method request = "POST" /\
    truthy (jget (Normalizer.req_body request) "query") = true) ->
   exists input,
     Normalizer.getGraphQLInput jsonParse jsonParseOperations jsonParseMap request
       = Ok (Some input)).
Proof.
  split; [|split].
  - apply parseGraphQLRequest_not_applicable.
  - intros input message Hin Hq Hp.
    eapply parseGraphQLRequest_malformed; eassumption.
  - apply getGraphQLInput_plain.
Qed.

Lemma parseGraphQLRequest_undefined_or_descriptive_error_witness :
  let parse := fun _ : JV =>
    inl ("Syntax Error: Expected " +:+ dq +:+ "$" +:+ dq +:+ ", found "
         +:+ dq +:+ ")" +:+ dq +:+ ".") : string + DocumentNode in
  let run :=
    Normalizer.parseGraphQLRequest (fun _ => JUndefined) (fun _ => None) (fun _ => None)
      parse (fun _ _ _ => inl []) (fun _ => "http://localhost:8080/graphql") in
  run getWithoutQuery = Ok None /\
  run postWithoutQuery = Ok None /\
  run postMalformed
  = Throw (PlainError
             ("[MSW] Failed to intercept a GraphQL request to " +:+ dq
              +:+ "POST http://localhost:8080/graphql" +:+ dq
              +:+ ": cannot parse query. See the error message from the parser below."
              +:+ Normalizer.newline +:+ Normalizer.newline
              +:+ "Syntax Error: Expected " +:+ dq +:+ "$" +:+ dq +:+ ", found "
              +:+ dq +:+ ")" +:+ dq +:+ ".")).
Proof.
  intros parse run.
  pose proof (fun request =>
    parseGraphQLRequest_undefined_or_descriptive_error
      (fun _ => JUndefined) (fun _ => None) (fun _ => None)
      parse (fun _ _ _ => inl []) (fun _ => "http://localhost:8080/graphql") request)
    as H.
  split; [|split].
  - apply (proj1 (H getWithoutQuery)). reflexivity.
  - apply (proj1 (H postWithoutQuery)). split; reflexivity.
  - destruct (H postMalformed) as (_ & Hmal & _).
    refine (Hmal {| Normalizer.in_query := JStr "query GetUser() { user {{}";
                    Normalizer.in_operationName := JUndefined;
                    Normalizer.in_variables := JUndefined |} _ _ _ _);
      reflexivity.
Defined.

(** ** The operation matcher (C8) *)

(** C8: [predicate] never throws (it is a total function); it returns true
    exactly when a parsed result exists, the operation is named or the
    handler accepts every operation type, the request URL matches the
    endpoint, the handler's type is [all] or the parsed operation type, and
    the selector matches the operation name (a pattern is tested against the
    name, or the empty string when there is none; a string must be equal to
    it); for an operation without a name and a handler whose type is not
    [all] it returns false and emits the warning; nothing else warns. *)
Theorem predicate_matches
    {Request Path : Type}
    (matchRequestUrl : Request -> Path -> bool)
    (requestMethod getPublicUrlFromRequest : Request -> string)
    (handler : Matcher.GraphQLHandler Path) (request : Request)
    (parsedResult : option Matcher.ParsedResult) :
  let run := Matcher.predicate matchRequestUrl requestMethod getPublicUrlFromRequest in
  (fst (run handler request parsedResult) = true <->
   exists parsed,
     parsedResult = Some parsed /\
     (truthy_name (Matcher.res_operationName parsed) = true \/
      Matcher.info_operationType handler = Matcher.ExpectAll) /\
     matchRequestUrl request (Matcher.endpoint handler) = true /\
     (Matcher.info_operationType handler = Matcher.ExpectAll \/
      Matcher.info_operationType handler
      = Matcher.Expect (Matcher.res_operationType parsed)) /\
     match Matcher.info_operationSelector handler with
     | Matcher.SelRegExp test =>
         test (or_else (Matcher.res_operationName parsed) EmptyString) = true
     | Matcher.SelString name => Matcher.res_operationName parsed = Some name
     end) /\
  (forall parsed,
      parsedResult = Some parsed ->
      truthy_name (Matcher.res_operationName parsed) = false ->
      Matcher.info_operationType handler <> Matcher.ExpectAll ->
      run handler request parsedResult
      = (false, [Matcher.anonymousWarning requestMethod getPublicUrlFromRequest request])) /\
  (snd (run handler request parsedResult) <> [] ->
   exists parsed,
     parsedResult = Some parsed /\
     truthy_name (Matcher.res_operationName parsed) = false /\
     Matcher.info_operationType handler <> Matcher.ExpectAll).
Proof.
  intros run. unfold run, Matcher.predicate.
  destruct parsedResult as [parsed|]; simpl.
  2:{ split; [|split]; try done. split; [done|]. by intros (? & ? & _). }
  assert (Matcher.isAll (Matcher.info_operationType handler) = true <->
          Matcher.info_operationType handler = Matcher.ExpectAll) as Hall.
  { destruct (Matcher.info_operationType handler); simpl; split; done. }
  destruct (truthy_name (Matcher.res_operationName parsed)) eqn:Hname;
    destruct (Matcher.isAll (Matcher.info_operationType handler)) eqn:Hisall; simpl.
  4:{ split; [|split].
      - split; [done|]. intros (p & [= <-] & [?|Ht] & _); [congruence|].
        apply Hall in Ht. congruence.
      - intros p [= <-] _ _. done.
      - intros _. exists parsed. split; [done|]. split; [done|].
        intros Ht. apply Hall in Ht. congruence. }
  all: split; [|split; [|done]].
  all: try (intros p [= <-] Hn Ht; first [congruence | by destruct Ht; apply Hall]).
  all: rewrite !andb_true_iff; unfold Matcher.hasMatchingOperationType,
         Matcher.hasMatchingOperationName.
  all: split.
  all: try (intros [[Hurl Htype] Hsel]; exists parsed; split; [done|];
            split; [by (left + (right; apply Hall))|]; split; [done|]; split;
            [ destruct (Matcher.info_operationType handler); [by left|];
              right; apply bool_decide_eq_true in Htype; by rewrite Htype
            | destruct (Matcher.info_operationSelector handler); [done|];
              destruct (Matcher.res_operationName parsed); [|done];
              by apply String.eqb_eq in Hsel as -> ]).
  all: intros (p & [= <-] & _ & Hurl & Htype & Hsel); split; [split; [done|]|].
  all: try (destruct Htype as [-> | ->]; [done|]; by apply bool_decide_eq_true).
  all: destruct (Matcher.info_operationSelector handler); [done|];
       rewrite Hsel; apply String.eqb_refl.
Qed.

(** The cases of GraphQLHandler.test.ts, "predicate": requests are given by
    their URL, and an endpoint matches the URL it equals (or any, for "*"). *)
Lemma predicate_matches_witness :
  let run := Matcher.predicate
               (fun url path => String.eqb path "*" || String.eqb url path)
               (fun _ => "POST") (fun url => url) in
  let handler := {| Matcher.info_operationType := Matcher.Expect QUERY;
                    Matcher.info_operationSelector := Matcher.SelString "GetAllUsers";
                    Matcher.endpoint := "*" |} in
  fst (run handler "https://example.com"
         (Some {| Matcher.res_operationType := QUERY;
                  Matcher.res_operationName := Some "GetAllUsers" |})) = true /\
  run handler "https://example.com"
    (Some {| Matcher.res_operationType := QUERY; Matcher.res_operationName := None |})
  = (false, [Matcher.anonymousWarning (fun _ => "POST") (fun url => url)
               "https://example.com"]).
Proof.
  intros run handler. split.
  - apply (proj1 (predicate_matches
                    (fun url path => String.eqb path "*" || String.eqb url path)
                    (fun _ => "POST") (fun url => url) handler "https://example.com" _)).
    eexists. split; [reflexivity|]. split; [by left|]. split; [reflexivity|].
    split; [by right|reflexivity].
  - apply (proj1 (proj2 (predicate_matches
                    (fun url path => String.eqb path "*" || String.eqb url path)
                    (fun _ => "POST") (fun url => url) handler "https://example.com"
                    (Some {| Matcher.res_operationType := QUERY;
                             Matcher.res_operationName := None |})))
              {| Matcher.res_operationType := QUERY; Matcher.res_operationName := None |});
      [reflexivity|reflexivity|discriminate].
Defined.

Example predicate_respects_type_and_endpoint :
  let run := Matcher.predicate
               (fun url path => String.eqb path "*" || String.eqb url path)
               (fun _ => "POST") (fun url => url) in
  run {| Matcher.info_operationType := Matcher.Expect QUERY;
         Matcher.info_operationSelector := Matcher.SelString "GetAllUsers";
         Matcher.endpoint := "*" |} "https://example.com"
      (Some {| Matcher.res_operationType := MUTATION;
               Matcher.res_operationName := Some "Login" |}) = (false, []) /\
  run {| Matcher.info_operationType := Matcher.ExpectAll;
         Matcher.info_operationSelector := Matcher.SelRegExp (fun _ => true);
         Matcher.endpoint := "*" |} "https://example.com"
      (Some {| Matcher.res_operationType := QUERY;
               Matcher.res_operationName := None |}) = (true, []) /\
  run {| Matcher.info_operationType := Matcher.Expect QUERY;
         Matcher.info_operationSelector := Matcher.SelString "GetAllUsers";
         Matcher.endpoint := "https://api.github.com/graphql" |} "https://example.com"
      (Some {| Matcher.res_operationType := QUERY;
               Matcher.res_operationName := Some "GetAllUsers" |}) = (false, []).
Proof. repeat split. Qed.

(** ** The store: what a projection leaves untouched (C9) *)

Lemma framed_refl P h : framed P h h.
Proof. split; auto. Qed.

Lemma framed_trans P h1 h2 h3 :
  framed P h1 h2 -> framed P h2 h3 -> framed P h1 h3.
Proof.
  intros [Hl1 H1] [Hl2 H2]. split; [lia|].
  intros a Ha HP. rewrite H2 by (lia || done). by apply H1.
Qed.

Lemma framed_weaken (P Q : addr -> Prop) h h' :
  (forall a, P a -> Q a) -> framed P h h' -> framed Q h h'.
Proof. intros HPQ [Hl H]. split; [done|]. intros a Ha HQ. apply H; auto. Qed.

Lemma framed_alloc P h o : framed P h (h ++ [o]).
Proof.
  split; [rewrite length_app; lia|]. intros a Ha _. by apply lookup_app_l.
Qed.

Lemma framed_insert (P : addr -> Prop) h p o : P p -> framed P h (<[p := o]> h).
Proof.
  intros Hp. split; [by rewrite length_insert|].
  intros a Ha HP. apply list_lookup_insert_ne. congruence.
Qed.

Lemma frames_ret {A} P (a : A) : frames P (Alloc.ret a).
Proof. intros h. apply framed_refl. Qed.

Lemma frames_lift {A} P (r : Res A) : frames P (Alloc.lift r).
Proof. intros h. apply framed_refl. Qed.

Lemma frames_read {A} P (f : Heap -> A) : frames P (Alloc.read f).
Proof. intros h. apply framed_refl. Qed.

Lemma frames_bind {A B} P (m : Alloc.M A) (k : A -> Alloc.M B) :
  frames P m -> (forall a, frames P (k a)) -> frames P (Alloc.bind m k).
Proof.
  intros Hm Hk h. unfold Alloc.bind. specialize (Hm h).
  destruct (m h) as [[a|e|] h1]; simpl in *; try done.
  eapply framed_trans; [exact Hm|apply Hk].
Qed.

Lemma frames_weaken {A} (P Q : addr -> Prop) (m : Alloc.M A) :
  (forall a, P a -> Q a) -> frames P m -> frames Q m.
Proof. intros HPQ Hm h. eapply framed_weaken; eauto. Qed.

Lemma frames_newArray P items : frames P (Alloc.newArray items).
Proof. intros h. apply framed_alloc. Qed.

Lemma frames_assign p k v : frames (fun a => a = p) (Alloc.assign p k v).
Proof.
  intros h. unfold Alloc.assign; simpl.
  destruct (h !! p) as [[props|items]|]; try apply framed_refl.
  by apply framed_insert.
Qed.

Lemma frames_mapiM {A B} P (f : nat -> A -> Alloc.M B) (l : list A) :
  (forall i x, frames P (f i x)) -> forall i, frames P (Alloc.mapiM f i l).
Proof.
  intros Hf. induction l as [|x l IH]; intros i; simpl; [apply frames_ret|].
  apply frames_bind; [apply Hf|]. intros y.
  apply frames_bind; [apply IH|]. intros ys. apply frames_ret.
Qed.

Lemma frames_forM {A} P (f : A -> Alloc.M unit) (l : list A) :
  (forall x, frames P (f x)) -> frames P (Alloc.forM f l).
Proof.
  intros Hf. induction l as [|x l IH]; simpl; [apply frames_ret|].
  apply frames_bind; [apply Hf|]. intros _. apply IH.
Qed.

Section frame.
Context (schema : option GraphQLSchema)
        (fragments : gmap string FragmentDefinitionNode)
        (variables : gmap string Value).

Lemma frames_pickField P rec fieldPath f v :
  (forall p a ss rt, frames P (rec p a ss rt)) ->
  frames P (Alloc.pickField schema rec fieldPath f v).
Proof.
  intros Hrec. unfold Alloc.pickField.
  destruct (field_selectionSet f); [|apply frames_ret].
  destruct v; try apply frames_ret.
  apply frames_bind; [apply frames_read|]. intros rt.
  destruct schema, rt; auto using frames_lift.
Qed.

Lemma frames_pickInto pick path data p f :
  (forall q g v, frames (fun _ => False) (pick q g v)) ->
  frames (fun a => a = p) (Alloc.pickInto pick path data p f).
Proof.
  intros Hpick. unfold Alloc.pickInto.
  apply frames_bind; [apply frames_read|]. intros fieldData.
  apply frames_bind; [apply frames_read|]. intros items.
  apply frames_bind; [|intros; apply frames_assign].
  apply (frames_weaken (fun _ => False)); [done|].
  destruct items as [items|]; [|apply Hpick].
  apply frames_bind; [by apply frames_mapiM|]. intros picked.
  apply frames_bind; [apply frames_newArray|]. intros; apply frames_ret.
Qed.

(** A projection writes into the objects it creates only. *)
Lemma frames_pickSelectionSet fuel :
  forall path data selectionSet runtimeObject,
    frames (fun _ => False)
      (Alloc.pickSelectionSet schema fragments variables fuel path data selectionSet
         runtimeObject).
Proof.
  induction fuel as [|n IH]; intros path data ss rt; [apply frames_lift|].
  intros h. simpl. unfold Alloc.bind at 1, Alloc.lift.
  destruct (collectFields _ _ _ _ _) as [fieldMap| |]; try apply framed_refl.
  unfold Alloc.bind at 1, Alloc.newObject.
  pose proof (frames_forM (fun a => a = length h)
                (Alloc.pickInto
                   (Alloc.pickField schema
                      (Alloc.pickSelectionSet schema fragments variables n))
                   path data (length h))
                (fieldNodes fieldMap)) as Hloop.
  specialize (Hloop (fun f => frames_pickInto _ _ _ _ _
                                (fun q g v => frames_pickField _ _ _ _ _ IH))
                    (h ++ [HObj []])).
  unfold Alloc.bind.
  destruct (Alloc.forM _ _ _) as [[u|e|] h']; simpl in *.
  all: destruct Hloop as [Hlen Hkeep]; rewrite length_app in Hlen; simpl in Hlen.
  all: split; [lia|]; intros a Ha _.
  all: rewrite Hkeep by (rewrite ?length_app; simpl; lia).
  all: by apply lookup_app_l.
Qed.
End frame.

(** ** Results in the store and pure results *)

Lemma Out_nested_ind (P : Out -> Prop) :
  (forall v, P (OVal v)) ->
  (forall items, Forall P items -> P (OArr items)) ->
  (forall props, Forall (fun kv => P (snd kv)) props -> P (OObj props)) ->
  forall out, P out.
Proof.
  intros HV HA HO. fix IH 1. intros [v|items|props].
  - apply HV.
  - apply HA. induction items as [|o items IHitems]; constructor; auto.
  - apply HO. induction props as [|[k o] props IHprops]; constructor; auto.
Qed.

Lemma represents_OArr n lo h v outs :
  represents n lo h v (OArr outs) <->
  exists a items,
    v = VRef a /\ lo <= a /\ h !! a = Some (HArr items) /\
    representsAll n lo h items outs.
Proof.
  simpl.
  assert (forall items,
             (fix each (vs : list Value) (os : list Out) {struct os} : Prop :=
                match os, vs with
                | [], [] => True
                | o :: os', v' :: vs' => represents n lo h v' o /\ each vs' os'
                | _, _ => False
                end) items outs <-> representsAll n lo h items outs) as Heach.
  { induction outs as [|o outs IH]; intros [|x items]; simpl; try tauto.
    by rewrite IH. }
  split; intros (a & items & ? & ? & ? & ?); exists a, items;
    repeat split; try done; by apply Heach.
Qed.

Lemma represents_OObj n lo h v oprops :
  represents n lo h v (OObj oprops) <->
  exists a props,
    v = VRef a /\ lo <= a /\ h !! a = Some (HObj props) /\
    representsProps n lo h props oprops.
Proof.
  simpl.
  assert (forall props,
             (fix each (ps : list (string * Value)) (os : list (string * Out))
                  {struct os} : Prop :=
                match os, ps with
                | [], [] => True
                | (k, o) :: os', (k', v') :: ps' =>
                    k' = k /\ represents n lo h v' o /\ each ps' os'
                | _, _ => False
                end) props oprops <-> representsProps n lo h props oprops) as Heach.
  { induction oprops as [|[k o] oprops IH]; intros [|[k' x] props]; simpl; try tauto.
    by rewrite IH. }
  split; intros (a & props & ? & ? & ? & ?); exists a, props;
    repeat split; try done; by apply Heach.
Qed.

(** A representation survives every change of the store that keeps the
    objects from [lo] on. *)
Lemma represents_mono n lo lo' h h' :
  lo' <= lo ->
  (forall a, lo <= a -> a < length h -> h' !! a = h !! a) ->
  forall out v, represents n lo h v out -> represents n lo' h' v out.
Proof.
  intros Hlo Hkeep.
  induction out as [w|outs IH|oprops IH] using Out_nested_ind; intros v.
  - done.
  - rewrite !represents_OArr. intros (a & items & -> & Ha & Hcell & Hall).
    exists a, items. split; [done|]. split; [lia|]. split.
    { rewrite Hkeep; [done|done|]. by eapply lookup_lt_Some. }
    clear Hcell. revert items Hall.
    induction IH as [|o outs Ho _ IHouts]; intros [|x items]; simpl; try done.
    intros [? ?]. split; auto.
  - rewrite !represents_OObj. intros (a & props & -> & Ha & Hcell & Hall).
    exists a, props. split; [done|]. split; [lia|]. split.
    { rewrite Hkeep; [done|done|]. by eapply lookup_lt_Some. }
    clear Hcell. revert props Hall.
    induction IH as [|[k o] oprops Ho _ IHprops]; intros [|[k' x] props];
      simpl; try done.
    intros (? & ? & ?). repeat split; auto.
Qed.

Lemma representsAll_mono n lo lo' h h' :
  lo' <= lo ->
  (forall a, lo <= a -> a < length h -> h' !! a = h !! a) ->
  forall outs vs, representsAll n lo h vs outs -> representsAll n lo' h' vs outs.
Proof.
  intros Hlo Hkeep. induction outs as [|o outs IH]; intros [|v vs]; simpl; try done.
  intros [? ?]. split; [by eapply represents_mono|auto].
Qed.

Lemma representsProps_mono n lo lo' h h' :
  lo' <= lo ->
  (forall a, lo <= a -> a < length h -> h' !! a = h !! a) ->
  forall oprops props,
    representsProps n lo h props oprops -> representsProps n lo' h' props oprops.
Proof.
  intros Hlo Hkeep.
  induction oprops as [|[k o] oprops IH]; intros [|[k' v] props]; simpl; try done.
  intros (? & ? & ?). repeat split; [done|by eapply represents_mono|auto].
Qed.

Lemma representsProps_setProp n lo h k v out :
  represents n lo h v out ->
  forall oprops props,
    representsProps n lo h props oprops ->
    representsProps n lo h (setProp k v props) (setProp k out oprops).
Proof.
  intros Hv. induction oprops as [|[k1 o] oprops IH]; intros [|[k2 x] props];
    simpl; try done.
  intros (-> & Hx & Hrest). destruct (String.eqb k k1); simpl; auto.
Qed.

Lemma representsAll_snoc n lo h vs outs v out :
  representsAll n lo h vs outs -> represents n lo h v out ->
  representsAll n lo h (vs ++ [v]) (outs ++ [out]).
Proof.
  revert vs. induction outs as [|o outs IH]; intros [|x vs]; simpl; try done.
  intros [? ?] ?. split; auto.
Qed.

(** ** The payload part of the store decides the pure result *)

Lemma assoc_elem_of {A} (k : string) (l : list (string * A)) (v : A) :
  assoc k l = Some v -> v ∈ map snd l.
Proof.
  induction l as [|[k' x] l IH]; simpl; [done|].
  destruct (String.eqb k k'); [intros [= ->]; by left|]. intros; right; auto.
Qed.

Lemma getProp_closed n h a k :
  closedBelow n h -> a < n -> closedValue n (getProp h a k).
Proof.
  intros Hclosed Ha a'. unfold getProp.
  destruct (h !! a) as [[props|items]|] eqn:Hcell; try done.
  - destruct (assoc k props) as [v|] eqn:Hk; simpl; [|done]. intros ->.
    apply (Hclosed a (HObj props) (VRef a') a' Ha Hcell); [|done].
    simpl. eapply assoc_elem_of. exact Hk.
  - by destruct (String.eqb k "length").
Qed.

Lemma getProp_agree n h h' a k :
  agreeBelow n h h' -> a < n -> getProp h' a k = getProp h a k.
Proof. intros Hagree Ha. unfold getProp. by rewrite Hagree. Qed.

Lemma asArray_agree n h h' v :
  agreeBelow n h h' -> closedValue n v -> asArray h' v = asArray h v.
Proof.
  intros Hagree Hv. destruct v; try done. simpl. by rewrite Hagree by auto.
Qed.

Lemma asArray_closed n h v items :
  closedBelow n h -> closedValue n v -> asArray h v = Some items ->
  forall x, x ∈ items -> closedValue n x.
Proof.
  intros Hclosed Hv Harr x Hx a' ->. destruct v as [| | | | |a]; try done.
  simpl in Harr. destruct (h !! a) as [[props|items']|] eqn:Hcell; try done.
  injection Harr as ->.
  apply (Hclosed a (HArr items) (VRef a') a' (Hv a eq_refl) Hcell); done.
Qed.

Lemma runtimeObjectOf_agree n h h' schema a :
  agreeBelow n h h' -> a < n -> runtimeObjectOf h' schema a = runtimeObjectOf h schema a.
Proof. intros Hagree Ha. unfold runtimeObjectOf. by rewrite (getProp_agree n h h'). Qed.

Section pure_agree.
Context (schema : option GraphQLSchema)
        (fragments : gmap string FragmentDefinitionNode)
        (variables : gmap string Value)
        (n : nat) (h h' : Heap).
Hypothesis Hclosed : closedBelow n h.
Hypothesis Hagree : agreeBelow n h h'.

Lemma pickSelectionSet_agree fuel :
  forall path data selectionSet runtimeObject,
    data < n ->
    pickSelectionSet h' schema fragments variables fuel path data selectionSet runtimeObject
    = pickSelectionSet h schema fragments variables fuel path data selectionSet
        runtimeObject.
Proof using Hclosed Hagree.
  induction fuel as [|m IH]; intros path data ss rt Hdata; [done|].
  rewrite !pickSelectionSet_S.
  destruct (collectFields _ _ _ _ _) as [fieldMap| |]; simpl; try done.
  f_equal. apply foldM_res_ext. intros picked f _.
  assert (forall p v, closedValue n v ->
            pickField h' schema (pickSelectionSet h' schema fragments variables m) p f v
            = pickField h schema (pickSelectionSet h schema fragments variables m) p f v)
    as Hpick.
  { intros p v Hv. unfold pickField.
    destruct (field_selectionSet f) as [sub|]; [|done].
    destruct v as [| | | | |a]; try done.
    rewrite (runtimeObjectOf_agree n h h') by auto.
    destruct schema, (runtimeObjectOf h _ a); auto. }
  unfold pickInto.
  pose proof (getProp_closed n h data (field_name f) Hclosed Hdata) as Hv.
  rewrite (getProp_agree n h h') by done.
  rewrite (asArray_agree n h h') by done.
  destruct (asArray h _) as [items|] eqn:Harr.
  - f_equal. f_equal. apply mapiM_res_ext. intros i x Hx. apply Hpick.
    eapply asArray_closed; eauto.
  - f_equal. by apply Hpick.
Qed.
End pure_agree.

(** ** The store computation returns the pure result *)

Lemma closedBelow_agree n h h' :
  closedBelow n h -> agreeBelow n h h' -> closedBelow n h'.
Proof.
  intros Hclosed Hagree a o v a' Ha Hcell. rewrite Hagree in Hcell by done.
  by apply (Hclosed a o v a').
Qed.

Lemma agreeBelow_framed n h h1 h2 :
  agreeBelow n h h1 -> n <= length h1 -> framed (fun _ => False) h1 h2 ->
  agreeBelow n h h2.
Proof.
  intros Hagree Hn [_ Hkeep] a Ha. rewrite Hkeep by (lia || tauto). by apply Hagree.
Qed.

Lemma run_bind {A B} (m : Alloc.M A) (k : A -> Alloc.M B) h r h' :
  Alloc.bind m k h = (r, h') ->
  (exists a h1, m h = (Ok a, h1) /\ k a h1 = (r, h')) \/
  (exists e, m h = (Throw e, h') /\ r = Throw e) \/
  (m h = (OutOfFuel, h') /\ r = OutOfFuel).
Proof.
  unfold Alloc.bind. destruct (m h) as [[a|e|] h1]; intros Hrun.
  - left. eauto.
  - injection Hrun as <- <-. right; left. eauto.
  - injection Hrun as <- <-. right; right. eauto.
Qed.

Section link.
Context (schema : option GraphQLSchema)
        (fragments : gmap string FragmentDefinitionNode)
        (variables : gmap string Value)
        (n : nat).

(** What the nested calls are assumed to do, relative to the store [h] at
    the start of the enclosing call. *)
Section level.
Context (h : Heap)
        (recB : string -> addr -> SelectionSetNode -> option GraphQLNamedType ->
                Alloc.M Value)
        (recA : string -> addr -> SelectionSetNode -> option GraphQLNamedType ->
                Res Out).
Hypothesis Hclosed : closedBelow n h.
Hypothesis HrecF : forall q a ss rt, frames (fun _ => False) (recB q a ss rt).
Hypothesis Hrec :
  forall hi q a ss rt,
    agreeBelow n h hi -> n <= length hi -> a < n ->
    agrees n (length hi) (recB q a ss rt hi) (recA q a ss rt).

Lemma link_pickField hi q f v :
  agreeBelow n h hi -> n <= length hi -> closedValue n v ->
  agrees n (length hi) (Alloc.pickField schema recB q f v hi)
         (pickField h schema recA q f v).
Proof using Hrec.
  intros Hagree Hn Hv. unfold Alloc.pickField, pickField.
  destruct (field_selectionSet f) as [sub|]; [|done].
  destruct v as [| | | | |a]; try done.
  unfold Alloc.bind, Alloc.read.
  rewrite (runtimeObjectOf_agree n h hi) by auto.
  destruct schema, (runtimeObjectOf h _ a); try done; apply Hrec; auto.
Qed.

Lemma frames_level_pickField q f v :
  frames (fun _ => False) (Alloc.pickField schema recB q f v).
Proof using HrecF. by apply frames_pickField. Qed.

Lemma link_mapiM f path name items :
  (forall x, x ∈ items -> closedValue n x) ->
  forall i hi r h',
    agreeBelow n h hi -> n <= length hi ->
    Alloc.mapiM (fun i x => Alloc.pickField schema recB (itemPathOf path name i) f x)
                i items hi = (r, h') ->
    outcomes (fun vs outs => representsAll n (length hi) h' vs outs) r
             (mapiM_res (fun i x => pickField h schema recA (itemPathOf path name i) f x)
                        i items).
Proof using Hrec HrecF.
  induction items as [|x items IH]; intros Hitems i hi r h' Hagree Hn Hrun.
  { injection Hrun as <- <-. done. }
  simpl in Hrun.
  pose proof (link_pickField hi (itemPathOf path name i) f x Hagree Hn
                (Hitems x (list_elem_of_here _ _))) as Hx.
  pose proof (frames_level_pickField (itemPathOf path name i) f x hi) as Hf1.
  apply run_bind in Hrun as [(v1 & h1 & Hrun1 & Hrun)|[(e & Hrun1 & ->)|[Hrun1 ->]]];
    rewrite Hrun1 in Hx, Hf1; unfold agrees in Hx; simpl in Hx, Hf1; simpl.
  2,3: by destruct (pickField h schema recA _ f x).
  destruct (pickField h schema recA _ f x) as [out1|e'|]; simpl in *; try done.
  assert (agreeBelow n h h1) as Hagree1 by (eapply agreeBelow_framed; eauto).
  assert (n <= length h1) as Hn1 by (destruct Hf1; lia).
  pose proof (frames_mapiM (fun _ => False)
                (fun i x => Alloc.pickField schema recB (itemPathOf path name i) f x)
                items (fun j y => frames_level_pickField _ f y) (S i) h1) as Hf2.
  apply run_bind in Hrun as [(vs & h2 & Hrun2 & Hrun)|[(e & Hrun2 & ->)|[Hrun2 ->]]];
    rewrite Hrun2 in Hf2; simpl in Hf2;
    specialize (IH (fun y Hy => Hitems y (list_elem_of_further _ _ _ Hy)) (S i) h1
                   _ _ Hagree1 Hn1 Hrun2).
  2,3: by destruct (mapiM_res _ (S i) items).
  injection Hrun as <- <-.
  destruct (mapiM_res _ (S i) items) as [outs|e'|]; simpl in *; try done.
  split.
  - eapply represents_mono; [| |exact Hx]; [done|].
    intros a _ Ha. destruct Hf2 as [_ Hkeep]. apply Hkeep; tauto.
  - eapply representsAll_mono; [| |exact IH]; [by destruct Hf1|auto].
Qed.
(** The value assigned to a key: the projected field, or the array of the
    projected elements. *)
Lemma link_value f path hi fieldData r h' :
  agreeBelow n h hi -> n <= length hi -> closedValue n fieldData ->
  (match asArray h fieldData with
   | Some items =>
       Alloc.bind
         (Alloc.mapiM
            (fun i x => Alloc.pickField schema recB
                          (itemPathOf path (field_name f) i) f x) 0 items)
         (fun picked =>
            Alloc.bind (Alloc.newArray picked) (fun mapped => Alloc.ret (VRef mapped)))
   | None => Alloc.pickField schema recB (fieldPathOf path (field_name f)) f fieldData
   end) hi = (r, h') ->
  outcomes (represents n (length hi) h') r
    (match asArray h fieldData with
     | Some items =>
         let* picked :=
           mapiM_res (fun i x => pickField h schema recA
                                   (itemPathOf path (field_name f) i) f x) 0 items in
         Ok (OArr picked)
     | None => pickField h schema recA (fieldPathOf path (field_name f)) f fieldData
     end) /\
  framed (fun _ => False) hi h'.
Proof using Hclosed Hrec HrecF.
  intros Hagree Hn Hv Hrun.
  destruct (asArray h fieldData) as [items|] eqn:Harr.
  - pose proof (frames_mapiM (fun _ => False)
                  (fun i x => Alloc.pickField schema recB
                                (itemPathOf path (field_name f) i) f x)
                  items (fun j y => frames_level_pickField _ f y) 0 hi) as Hf1.
    apply run_bind in Hrun as [(vs & h1 & Hrun1 & Hrun)|[(e & Hrun1 & ->)|[Hrun1 ->]]];
      rewrite Hrun1 in Hf1; simpl in Hf1;
      pose proof (link_mapiM f path (field_name f) items
                    (asArray_closed n h fieldData items Hclosed Hv Harr)
                    0 hi _ _ Hagree Hn Hrun1) as Hmap.
    2,3: split; [|done]; by destruct (mapiM_res _ 0 items).
    injection Hrun as <- <-.
    destruct (mapiM_res _ 0 items) as [outs|e'|]; simpl in *; try done.
    split.
    + apply represents_OArr. exists (length h1), vs.
      split; [done|]. split; [by destruct Hf1|]. split; [apply list_lookup_middle; done|].
      eapply representsAll_mono; [| |exact Hmap]; [done|].
      intros a _ Ha. by apply lookup_app_l.
    + eapply framed_trans; [exact Hf1|apply framed_alloc].
  - pose proof (link_pickField hi (fieldPathOf path (field_name f)) f fieldData
                  Hagree Hn Hv) as Hx.
    pose proof (frames_level_pickField (fieldPathOf path (field_name f)) f fieldData hi)
      as Hf1.
    rewrite Hrun in Hx, Hf1. done.
Qed.

(** One iteration of the loop over the collected nodes. *)
Lemma link_pickInto p path data f hi props picked r h' :
  agreeBelow n h hi -> n <= p -> p < length hi -> data < n ->
  hi !! p = Some (HObj props) ->
  representsProps n (S p) hi props picked ->
  Alloc.pickInto (Alloc.pickField schema recB) path data p f hi = (r, h') ->
  outcomes (fun _ picked' =>
              exists props', h' !! p = Some (HObj props') /\
                             representsProps n (S p) h' props' picked')
           r (pickInto h (pickField h schema recA) path data picked f) /\
  agreeBelow n h h' /\ length hi <= length h'.
Proof using Hclosed Hrec HrecF.
  intros Hagree Hnp Hp Hdata Hcell Hprops Hrun.
  unfold Alloc.pickInto in Hrun.
  apply run_bind in Hrun as [(fieldData & h0 & [= <- <-] & Hrun)|[(e & [=] & _)|[[=] _]]].
  apply run_bind in Hrun as [(items & h0 & [= <- <-] & Hrun)|[(e & [=] & _)|[[=] _]]].
  rewrite (getProp_agree n h hi) in Hrun by done.
  pose proof (getProp_closed n h data (field_name f) Hclosed Hdata) as Hv.
  rewrite (asArray_agree n h hi) in Hrun by done.
  unfold pickInto.
  set (valueA := match asArray h (getProp h data (field_name f)) with
                 | Some items => _ | None => _ end).
  apply run_bind in Hrun as [(v & h1 & Hrun1 & Hrun)|[(e & Hrun1 & ->)|[Hrun1 ->]]];
    destruct (link_value f path hi _ _ _ Hagree ltac:(lia) Hv Hrun1) as [Hval Hf1];
    fold valueA in Hval.
  2,3: destruct valueA; simpl in *; try done;
       (split; [done|]); split; [eapply agreeBelow_framed; eauto; lia|by destruct Hf1].
  destruct valueA as [out|e'|]; simpl in *; try done.
  unfold Alloc.assign in Hrun.
  assert (h1 !! p = Some (HObj props)) as Hcell1.
  { destruct Hf1 as [_ Hkeep]. rewrite Hkeep; [done|done|tauto]. }
  rewrite Hcell1 in Hrun. injection Hrun as <- <-.
  assert (forall a, S p <= a -> a < length h1 ->
                    <[p := HObj (setProp (field_name f) v props)]> h1 !! a = h1 !! a)
    as Hkeep1 by (intros; apply list_lookup_insert_ne; lia).
  split; [|split].
  - exists (setProp (field_name f) v props). split.
    + apply list_lookup_insert_eq. destruct Hf1; lia.
    + apply representsProps_setProp.
      * eapply represents_mono; [| |exact Hval]; [lia|]. intros; apply Hkeep1; lia.
      * eapply representsProps_mono; [| |exact Hprops]; [done|].
        intros a Ha Hlt. rewrite Hkeep1 by (destruct Hf1; lia).
        destruct Hf1 as [_ Hkeep]. apply Hkeep; tauto.
  - intros a Ha. rewrite list_lookup_insert_ne by lia.
    eapply agreeBelow_framed; eauto. lia.
  - rewrite length_insert. by destruct Hf1.
Qed.

Lemma link_forM p path data nodes :
  n <= p -> data < n ->
  forall hi props picked r h',
    agreeBelow n h hi -> p < length hi ->
    hi !! p = Some (HObj props) ->
    representsProps n (S p) hi props picked ->
    Alloc.forM (Alloc.pickInto (Alloc.pickField schema recB) path data p) nodes hi
      = (r, h') ->
    outcomes (fun _ picked' =>
                exists props', h' !! p = Some (HObj props') /\
                               representsProps n (S p) h' props' picked')
             r (foldM_res (pickInto h (pickField h schema recA) path data) picked nodes).
Proof using Hclosed Hrec HrecF.
  intros Hnp Hdata.
  induction nodes as [|f nodes IH]; intros hi props picked r h' Hagree Hp Hcell Hprops Hrun.
  { injection Hrun as <- <-. simpl. eauto. }
  simpl in Hrun.
  apply run_bind in Hrun as [([] & h1 & Hrun1 & Hrun)|[(e & Hrun1 & ->)|[Hrun1 ->]]];
    destruct (link_pickInto p path data f hi props picked _ _
                Hagree Hnp Hp Hdata Hcell Hprops Hrun1) as (Hstep & Hagree1 & Hlen);
    simpl.
  2,3: by destruct (pickInto h _ path data picked f).
  destruct (pickInto h _ path data picked f) as [picked1|e'|]; simpl in *; try done.
  destruct Hstep as (props1 & Hcell1 & Hprops1).
  eapply IH; eauto. lia.
Qed.
End level.
End link.

Lemma link_pickSelectionSet schema fragments variables n fuel :
  forall h path data selectionSet runtimeObject r h',
    closedBelow n h -> n <= length h -> data < n ->
    Alloc.pickSelectionSet schema fragments variables fuel path data selectionSet
      runtimeObject h = (r, h') ->
    agrees n (length h) (r, h')
      (pickSelectionSet h schema fragments variables fuel path data selectionSet
         runtimeObject).
Proof.
  induction fuel as [|m IH]; intros h path data ss rt r h' Hclosed Hn Hdata Hrun.
  { injection Hrun as <- <-. done. }
  assert (forall hi q a ss' rt',
             agreeBelow n h hi -> n <= length hi -> a < n ->
             agrees n (length hi)
               (Alloc.pickSelectionSet schema fragments variables m q a ss' rt' hi)
               (pickSelectionSet h schema fragments variables m q a ss' rt')) as Hrec.
  { intros hi q a ss' rt' Hagree Hni Ha.
    destruct (Alloc.pickSelectionSet schema fragments variables m q a ss' rt' hi)
      as [r0 h0'] eqn:Hsub.
    rewrite <- (pickSelectionSet_agree schema fragments variables n h hi Hclosed Hagree
                  m q a ss' rt' Ha).
    eapply IH; eauto. by eapply closedBelow_agree. }
  pose proof (link_forM schema n h
                (Alloc.pickSelectionSet schema fragments variables m)
                (pickSelectionSet h schema fragments variables m) Hclosed
                (frames_pickSelectionSet schema fragments variables m) Hrec
                (length h) path data) as Hlink.
  rewrite pickSelectionSet_S. simpl in Hrun.
  apply run_bind in Hrun as [(fieldMap & h0 & Hc & Hrun)|[(e & Hc & ->)|[Hc ->]]];
    unfold Alloc.lift in Hc; injection Hc as Hc <-; rewrite Hc; try done.
  apply run_bind in Hrun as [(p & h1 & [= <- <-] & Hrun)|[(e & [=] & _)|[[=] _]]].
  assert (agreeBelow n h (h ++ [HObj []])) as Hagree1
    by (intros a Ha; apply lookup_app_l; lia).
  apply run_bind in Hrun as [([] & h2 & Hloop & Hrun)|[(e & Hloop & ->)|[Hloop ->]]].
  all: specialize (Hlink (fieldNodes fieldMap) Hn Hdata
                     (h ++ [HObj []]) [] [] _ _ Hagree1
                     ltac:(rewrite length_app; simpl; lia)
                     ltac:(by apply list_lookup_middle) I Hloop).
  all: unfold agrees; simpl.
  all: destruct (foldM_res _ [] (fieldNodes fieldMap)) as [picked|e'|];
       simpl in *; try done.
  injection Hrun as <- <-. destruct Hlink as (props & Hcell & Hprops).
  apply represents_OObj. exists (length h), props.
  split; [done|]. split; [done|]. split; [done|].
  eapply representsProps_mono; [| |exact Hprops]; [lia|done].
Qed.

Lemma closedBelowb_closedBelow n h : closedBelowb n h = true -> closedBelow n h.
Proof.
  unfold closedBelowb. intros Hb a o v a' Ha Hcell Hv ->.
  rewrite forallb_forall in Hb.
  assert (In o (take n h)) as Ho.
  { apply list_elem_of_In, list_elem_of_lookup. exists a.
    by rewrite lookup_take_lt. }
  specialize (Hb o Ho). rewrite forallb_forall in Hb.
  specialize (Hb (VRef a') (proj1 (list_elem_of_In _ _) Hv)).
  by apply Nat.ltb_lt in Hb.
Qed.

Lemma frames_pickOperationFields fuel data documentNode operationName variables schema :
  frames (fun _ => False)
    (Alloc.pickOperationFields fuel data documentNode operationName variables schema).
Proof.
  unfold Alloc.pickOperationFields.
  destruct (operations _ !! _); [apply frames_pickSelectionSet|apply frames_lift].
Qed.

Lemma link_pickOperationFields n fuel h data documentNode operationName variables schema :
  closedBelow n h -> n <= length h -> data < n ->
  agrees n (length h)
    (Alloc.pickOperationFields fuel data documentNode operationName variables schema h)
    (pickOperationFields fuel h data documentNode operationName variables schema).
Proof.
  intros Hclosed Hn Hdata.
  unfold Alloc.pickOperationFields, pickOperationFields.
  destruct (operations _ !! _) as [operation|]; [|done].
  destruct (Alloc.pickSelectionSet _ _ _ _ _ _ _ _ h) as [r h'] eqn:Hrun.
  by eapply link_pickSelectionSet.
Qed.

Lemma pickOperationFields_agree n fuel h h' data documentNode operationName variables
    schema :
  closedBelow n h -> agreeBelow n h h' -> data < n ->
  pickOperationFields fuel h' data documentNode operationName variables schema
  = pickOperationFields fuel h data documentNode operationName variables schema.
Proof.
  intros Hclosed Hagree Hdata. unfold pickOperationFields.
  destruct (operations _ !! _) as [operation|]; [|done].
  by apply (pickSelectionSet_agree schema _ _ n).
Qed.

(** C9: run on the store that holds the payload, [pickOperationFields]
    leaves every object of that store as it was (it writes only into the
    objects it creates), whether it returns or throws; and when the payload
    refers only to objects of that store, the structure it returns is the
    value of the pure function [pickOperationFields] of the payload, the
    document, the operation name, the variables and the schema, so that a
    second call with the same inputs, made in the store the first call left,
    returns an equal structure and again changes no earlier object. *)
Theorem pickOperationFields_frame_and_function
    (fuel : nat) (h : Heap) (data : addr) (documentNode : DocumentNode)
    (operationName : option string) (variables : option (gmap string Value))
    (schema : option GraphQLSchema) :
  let first :=
    Alloc.pickOperationFields fuel data documentNode operationName variables schema h in
  let second :=
    Alloc.pickOperationFields fuel data documentNode operationName variables schema
      (snd first) in
  let pure := pickOperationFields fuel h data documentNode operationName variables schema in
  (forall a, a < length h -> snd first !! a = h !! a) /\
  (forall a, a < length (snd first) -> snd second !! a = snd first !! a) /\
  (closedBelow (length h) h -> data < length h ->
   agrees (length h) (length h) first pure /\
   agrees (length h) (length (snd first)) second pure).
Proof.
  intros first second pure.
  pose proof (frames_pickOperationFields fuel data documentNode operationName variables
                schema h) as [Hlen1 Hkeep1].
  pose proof (frames_pickOperationFields fuel data documentNode operationName variables
                schema (snd first)) as [Hlen2 Hkeep2].
  fold first in Hlen1, Hkeep1. fold first second in Hlen2, Hkeep2.
  split; [intros; apply Hkeep1; tauto|]. split; [intros; apply Hkeep2; tauto|].
  intros Hclosed Hdata. split.
  - by apply link_pickOperationFields.
  - assert (agreeBelow (length h) h (snd first)) as Hagree
      by (intros a Ha; apply Hkeep1; tauto).
    unfold pure.
    rewrite <- (pickOperationFields_agree (length h) fuel h (snd first)) by done.
    apply link_pickOperationFields; [by eapply closedBelow_agree|done|done].
Qed.

(** The cyclic sibling pair: the first call returns the object at the first
    free address, which holds the three selected levels. *)
Lemma pickOperationFields_frame_and_function_witness :
  let first := Alloc.pickOperationFields 3 0 siblingsQuery None None None siblingsHeap in
  fst first = Ok (VRef 5) /\
  represents 5 5 (snd first) (VRef 5) siblingsProjection.
Proof.
  intros first. split; [vm_compute; reflexivity|].
  destruct (pickOperationFields_frame_and_function 3 siblingsHeap 0 siblingsQuery
              None None None) as (_ & _ & H).
  destruct H as [H _].
  - apply closedBelowb_closedBelow. vm_compute. reflexivity.
  - simpl. lia.
  - exact H.
Defined.

(** * Further properties of the projector *)

(** ** Lookup in the extracted maps *)

Lemma foldl_insert_lookup {A} (key : A -> string) (l : list A) :
  forall (m : gmap string A) k d,
    foldl (fun m x => <[key x := x]> m) m l !! k = Some d ->
    (d ∈ l /\ key d = k) \/ m !! k = Some d.
Proof.
  induction l as [|x l IH]; intros m k d Hlook; simpl in Hlook; [by right|].
  apply IH in Hlook as [[Hd Hk]|Hlook].
  - left. split; [by right|done].
  - destruct (decide (key x = k)) as [Heq|Hne].
    + rewrite <- Heq, lookup_insert_eq in Hlook. injection Hlook as ->.
      left. split; [by left|done].
    + rewrite lookup_insert_ne in Hlook by done. by right.
Qed.

Lemma foldl_insert_keeps {A} (key : A -> string) (l : list A) :
  forall (m : gmap string A) k,
    is_Some (m !! k) -> is_Some (foldl (fun m x => <[key x := x]> m) m l !! k).
Proof.
  induction l as [|x l IH]; intros m k Hk; simpl; [done|].
  apply IH. destruct (decide (key x = k)) as [<-|Hne].
  - rewrite lookup_insert_eq. eauto.
  - by rewrite lookup_insert_ne.
Qed.

Lemma foldl_insert_bound {A} (key : A -> string) (l : list A) (d : A) :
  d ∈ l ->
  forall m : gmap string A,
    is_Some (foldl (fun m x => <[key x := x]> m) m l !! key d).
Proof.
  induction l as [|x l IH]; intros Hd m; [by apply elem_of_nil in Hd|].
  apply elem_of_cons in Hd as [<-|Hd]; simpl; [|by apply IH].
  apply foldl_insert_keeps. rewrite lookup_insert_eq. eauto.
Qed.

Lemma operations_of_elem d l :
  OperationDefinition d ∈ l ->
  d ∈ omap asOperationDefinition (List.filter isOperationDefinition l).
Proof.
  intros Hd. apply list_elem_of_omap. exists (OperationDefinition d).
  split; [|done]. apply list_elem_of_In, List.filter_In.
  split; [by apply list_elem_of_In|done].
Qed.

Lemma fragments_of_elem d l :
  FragmentDefinition d ∈ l ->
  d ∈ omap asFragmentDefinition (List.filter isFragmentDefinition l).
Proof.
  intros Hd. apply list_elem_of_omap. exists (FragmentDefinition d).
  split; [|done]. apply list_elem_of_In, List.filter_In.
  split; [by apply list_elem_of_In|done].
Qed.

Lemma operations_lookup_None documentNode k :
  operations (extractDefinitions documentNode) !! k = None <->
  (forall d, OperationDefinition d ∈ definitions documentNode -> operationKey d <> k).
Proof.
  split.
  - intros Hnone d Hd Hk.
    pose proof (foldl_insert_bound operationKey _ d (operations_of_elem _ _ Hd) ∅) as Hb.
    unfold extractDefinitions in Hnone; simpl in Hnone.
    rewrite Hk, Hnone in Hb. by destruct Hb.
  - intros Hno. destruct (operations _ !! k) as [d|] eqn:Hlook; [|done].
    unfold extractDefinitions in Hlook; simpl in Hlook.
    apply foldl_insert_lookup in Hlook as [[Hd Hk]|Hlook]; [|done].
    destruct (Hno d); [by apply elem_of_operations_of|done].
Qed.

(** X1: a key of the operation map or of the fragment map that is bound to
    a definition is bound to a definition of the document that has this key,
    and every operation or fragment definition of the document has its key
    bound; definitions of other kinds are in neither map.  For a key that a
    plain object does not inherit, in a document without an operation named
    [__proto__], the lookup in the operation map finds nothing exactly when
    no operation definition has the key. *)
Theorem extractDefinitions_lookup (documentNode : DocumentNode) :
  (forall k d,
      operations (extractDefinitions documentNode) !! k = Some d ->
      OperationDefinition d ∈ definitions documentNode /\ operationKey d = k) /\
  (forall d,
      OperationDefinition d ∈ definitions documentNode ->
      is_Some (operations (extractDefinitions documentNode) !! operationKey d)) /\
  (forall k,
      inherited k = false ->
      protoFree documentNode = true ->
      operations (extractDefinitions documentNode) !! k = None <->
      (forall d, OperationDefinition d ∈ definitions documentNode -> operationKey d <> k)) /\
  (forall k d,
      fragments (extractDefinitions documentNode) !! k = Some d ->
      FragmentDefinition d ∈ definitions documentNode /\ frag_name d = k) /\
  (forall d,
      FragmentDefinition d ∈ definitions documentNode ->
      is_Some (fragments (extractDefinitions documentNode) !! frag_name d)).
Proof.
  split; [|split; [|split; [|split]]].
  - intros k d Hlook. unfold extractDefinitions in Hlook; simpl in Hlook.
    apply foldl_insert_lookup in Hlook as [[Hd Hk]|Hlook]; [|done].
    split; [by apply elem_of_operations_of|done].
  - intros d Hd. unfold extractDefinitions; simpl.
    by apply (foldl_insert_bound operationKey), operations_of_elem.
  - intros k _ _. apply operations_lookup_None.
  - intros k d Hlook. unfold extractDefinitions in Hlook; simpl in Hlook.
    apply foldl_insert_lookup in Hlook as [[Hd Hk]|Hlook]; [|done].
    split; [by apply elem_of_fragments_of|done].
  - intros d Hd. unfold extractDefinitions; simpl.
    by apply (foldl_insert_bound frag_name), fragments_of_elem.
Qed.

Lemma extractDefinitions_lookup_witness :
  operations (extractDefinitions getUserAndLogin) !! "Logout" = None <->
  (forall d, OperationDefinition d ∈ definitions getUserAndLogin ->
             operationKey d <> "Logout").
Proof.
  destruct (extractDefinitions_lookup getUserAndLogin) as (_ & _ & Hnone & _).
  exact (Hnone "Logout" eq_refl eq_refl).
Defined.

(** ** What the projection can throw *)

Lemma collectFields_projectionError schema fragments variables runtimeObject
    selectionSet e :
  collectFields schema fragments variables runtimeObject selectionSet = Throw e ->
  projectionError e.
Proof.
  intros Hc.
  pose proof (collectFields_onlyGraphQLError schema fragments variables runtimeObject
                selectionSet) as Hg.
  rewrite Hc in Hg. by destruct e.
Qed.

Lemma pickSelectionSet_projectionError h schema fragments variables n :
  forall path data selectionSet runtimeObject e,
    pickSelectionSet h schema fragments variables n path data selectionSet runtimeObject
      = Throw e ->
    projectionError e.
Proof.
  induction n as [|n IH]; intros path data ss rt e Hrun; [done|].
  rewrite pickSelectionSet_S in Hrun.
  apply res_bind_Throw in Hrun as [Hc|(fieldMap & _ & Hrun)].
  { by eapply collectFields_projectionError. }
  apply res_bind_Throw in Hrun as [Hfold|(? & _ & ?)]; [|done].
  apply foldM_res_Throw in Hfold as (picked & f & _ & Hstep).
  unfold pickInto in Hstep.
  apply res_bind_Throw in Hstep as [Hv|(? & _ & ?)]; [|done].
  assert (forall fieldPath v,
            pickField h schema (pickSelectionSet h schema fragments variables n)
              fieldPath f v = Throw e -> projectionError e) as Hpick.
  { intros fieldPath v Hthrow. unfold pickField in Hthrow.
    destruct (field_selectionSet f) as [sub|]; [|done].
    destruct v as [| | | | |a]; try done.
    destruct schema as [s|], (runtimeObjectOf h _ a) as [t|];
      try (by eapply IH). by injection Hthrow as <-. }
  destruct (asArray h (getProp h data (field_name f))) as [items|].
  - apply res_bind_Throw in Hv as [Hmap|(? & _ & ?)]; [|done].
    apply mapiM_res_Throw in Hmap as (j & item & _ & Hthrow). eauto.
  - eauto.
Qed.

(** X2: for a requested key (the passed name, or the reserved key when the
    name is null or empty) that a plain object does not inherit, and a
    document without an operation named [__proto__], [pickOperationFields]
    throws the operation-lookup error exactly when no operation definition of
    the document has the key, whatever the payload and the recursion budget.
    The error carries the passed name, or none for a null or empty name, and
    its message is the one of the source.  A null and an empty name are
    interchangeable, and the reserved key passed as a name selects the
    anonymous operation. *)
Theorem operationNotFound_exact
    (fuel : nat) (h : Heap) (data : addr) (documentNode : DocumentNode)
    (operationName : option string) (variables : option (gmap string Value))
    (schema : option GraphQLSchema) :
  (inherited (or_else operationName anonymousOperationKey) = false ->
   protoFree documentNode = true ->
   (forall d, OperationDefinition d ∈ definitions documentNode ->
              operationKey d <> or_else operationName anonymousOperationKey) <->
   exists n,
     pickOperationFields fuel h data documentNode operationName variables schema
     = Throw (OperationNotFound n)) /\
  (forall n,
      pickOperationFields fuel h data documentNode operationName variables schema
        = Throw (OperationNotFound n) ->
      match n with
      | Some name =>
          operationName = Some name /\ name <> EmptyString /\
          error_message (OperationNotFound n)
          = "Unable to find operation named " +:+ dq +:+ name +:+ dq
      | None =>
          (operationName = None \/ operationName = Some EmptyString) /\
          error_message (OperationNotFound n)
          = "Unable to find anonymous query, pass operationName to choose an operation"
      end) /\
  pickOperationFields fuel h data documentNode (Some EmptyString) variables schema
  = pickOperationFields fuel h data documentNode None variables schema /\
  (is_Some (operations (extractDefinitions documentNode) !! anonymousOperationKey) ->
   pickOperationFields fuel h data documentNode (Some anonymousOperationKey) variables schema
   = pickOperationFields fuel h data documentNode None variables schema).
Proof.
  split; [|split; [|split]].
  - intros _ _. rewrite <- operations_lookup_None. unfold pickOperationFields. split.
    + intros ->. eauto.
    + intros [n Hrun].
      destruct (operations _ !! _) as [operation|]; [|done].
      by apply pickSelectionSet_projectionError in Hrun.
  - intros n Hrun. unfold pickOperationFields in Hrun.
    destruct (operations _ !! _) as [operation|].
    { by apply pickSelectionSet_projectionError in Hrun. }
    destruct operationName as [[|c r]|]; injection Hrun as <-; simpl; auto.
  - reflexivity.
  - intros [operation Hop]. unfold pickOperationFields.
    change (or_else (Some anonymousOperationKey) anonymousOperationKey)
      with anonymousOperationKey.
    change (or_else None anonymousOperationKey) with anonymousOperationKey.
    by rewrite Hop.
Qed.

Lemma operationNotFound_exact_witness :
  (forall d, OperationDefinition d ∈ definitions getUserAndLogin ->
             operationKey d <> "Logout") <->
  exists n,
    pickOperationFields 2 agelessHeap 0 getUserAndLogin (Some "Logout") None None
    = Throw (OperationNotFound n).
Proof.
  destruct (operationNotFound_exact 2 agelessHeap 0 getUserAndLogin (Some "Logout")
              None None) as [Hiff _].
  exact (Hiff eq_refl eq_refl).
Defined.

(** ** Field collection takes in selected fields only *)

Lemma FieldIn_weaken matches variableValues fragments f l1 l2 :
  (forall s, s ∈ l1 -> s ∈ l2) ->
  FieldIn matches variableValues fragments f l1 ->
  FieldIn matches variableValues fragments f l2.
Proof.
  intros Hsub Hin. destruct Hin.
  - apply FieldIn_field; auto.
  - eapply FieldIn_inline; eauto.
  - eapply FieldIn_spread; eauto.
Qed.

Section soundness.
Context (schema : GraphQLSchema)
        (fragments : gmap string FragmentDefinitionNode)
        (variableValues : gmap string Value)
        (runtimeType : option GraphQLNamedType).

Abbreviation selectedOnly' :=
  (selectedOnly (matching schema runtimeType) variableValues fragments).

Lemma selectedOnly_seq l1 l2 st (m : Res CollectState)
    (k : CollectState -> Res CollectState) :
  selectedOnly' l1 st m ->
  (forall st1, m = Ok st1 -> selectedOnly' l2 st1 (k st1)) ->
  selectedOnly' (l1 ++ l2) st (res_bind m k).
Proof.
  destruct m as [st1| |]; simpl; try done.
  intros H1 Hk. specialize (Hk st1 eq_refl).
  destruct (k st1) as [st2| |]; simpl in *; try done.
  intros f Hf. destruct (Hk f Hf) as [Hf1|Hin].
  - destruct (H1 f Hf1) as [?|Hin]; [by left|].
    right. eapply FieldIn_weaken; [|exact Hin]. intros; apply elem_of_app; auto.
  - right. eapply FieldIn_weaken; [|exact Hin]. intros; apply elem_of_app; auto.
Qed.

Lemma collectSelections_selectedOnly spread sub :
  Forall (fun s => forall st, selectedOnly' [s] st
            (collectSelection schema fragments variableValues runtimeType spread s st))
         sub ->
  forall st, selectedOnly' sub st
    (collectSelections schema fragments variableValues runtimeType spread sub st).
Proof.
  induction 1 as [|s sub Hs _ IH]; intros st.
  - simpl. auto.
  - rewrite collectSelections_cons. apply (selectedOnly_seq [s] sub); auto.
Qed.

Lemma collectSelection_selectedOnly spread :
  (forall sub st, selectedOnly' sub st (spread sub st)) ->
  forall s st, selectedOnly' [s] st
    (collectSelection schema fragments variableValues runtimeType spread s st).
Proof.
  intros Hspread.
  assert (forall alias name directives sub st,
            selectedOnly' [Field alias name directives sub] st
              (collectSelection schema fragments variableValues runtimeType spread
                 (Field alias name directives sub) st)) as Hfield.
  { intros alias name directives sub st. simpl.
    destruct (shouldIncludeNode variableValues directives) as [[]| |] eqn:Hinc;
      simpl; try done; [|auto].
    intros f [->|Hf]%elem_of_fieldNodes_addField; [|auto].
    right. apply (FieldIn_field _ _ _ alias name directives sub); [by left|done]. }
  induction s as [alias name directives|alias name directives sub IH
                 |name directives|tc directives sub IH]
    using Selection_nested_ind; intros st; auto.
  - simpl. case_bool_decide as Hvis; [simpl; auto|].
    destruct (shouldIncludeNode variableValues directives) as [[]| |] eqn:Hinc;
      simpl; try done; [|auto].
    destruct (fragments !! name) as [fragment|] eqn:Hfrag; [|simpl; auto].
    destruct (doesFragmentConditionMatch schema _ runtimeType) eqn:Hmatch;
      [|simpl; auto].
    match goal with |- context [spread ?b ?s] => specialize (Hspread b s) end.
    destruct (spread _ _) as [st2| |]; simpl in *; try done.
    intros f Hf. destruct (Hspread f Hf) as [?|Hin]; [by left|].
    right. eapply FieldIn_spread; eauto. by left.
  - rewrite collectSelection_inline.
    destruct (shouldIncludeNode variableValues directives) as [inc| |] eqn:Hinc;
      simpl; try done.
    destruct (inc && _) eqn:Hcond; [|simpl; auto].
    apply andb_true_iff in Hcond as [-> Hm].
    pose proof (collectSelections_selectedOnly spread sub IH st) as Hsub.
    destruct (collectSelections _ _ _ _ _ sub st) as [st'| |]; simpl in *; try done.
    intros f Hf. destruct (Hsub f Hf) as [?|Hin]; [by left|].
    right. eapply FieldIn_inline; eauto. by left.
Qed.

Lemma collectFieldsImpl_selectedOnly budget :
  forall sub st, selectedOnly' sub st
    (collectFieldsImpl schema fragments variableValues runtimeType budget sub st).
Proof.
  induction budget as [|n IH]; intros sub st; [done|]. simpl.
  apply collectSelections_selectedOnly, Forall_forall.
  intros s _. by apply collectSelection_selectedOnly.
Qed.

(** Soundness of [collectFields]. *)
Lemma collectFields_sound selectionSet fieldMap f :
  collectFields schema fragments variableValues runtimeType selectionSet = Ok fieldMap ->
  f ∈ fieldNodes fieldMap ->
  FieldIn (matching schema runtimeType) variableValues fragments f selectionSet.
Proof.
  unfold collectFields. intros (st & Hrun & [= <-])%res_bind_Ok Hf.
  pose proof (collectFieldsImpl_selectedOnly (S (size fragments)) selectionSet
                {| cs_fields := []; cs_visited := ∅ |}) as Hspec.
  rewrite Hrun in Hspec. destruct (Hspec f Hf) as [Hnil|]; [|done].
  by apply elem_of_nil in Hnil.
Qed.
End soundness.

(** ** The keys of a projected object *)

Lemma assoc_setProp_inv {A} (k k' : string) (v : A) (l : list (string * A)) :
  is_Some (assoc k (setProp k' v l)) -> k = k' \/ is_Some (assoc k l).
Proof.
  intros H. destruct (decide (k' = k)) as [->|Hne]; [by left|].
  right. by rewrite assoc_setProp_ne in H.
Qed.

Lemma fold_pickInto_keys_from h pick path data k l :
  forall picked props,
    foldM_res (pickInto h pick path data) picked l = Ok props ->
    is_Some (assoc k props) ->
    is_Some (assoc k picked) \/ exists f, f ∈ l /\ field_name f = k.
Proof.
  induction l as [|x l IH]; intros picked props Hrun Hk; simpl in Hrun.
  - injection Hrun as <-. by left.
  - apply res_bind_Ok in Hrun as (picked1 & Hstep & Hrest).
    destruct (IH _ _ Hrest Hk) as [Hk1|(f & Hf & Hname)].
    + unfold pickInto in Hstep. apply res_bind_Ok in Hstep as (v & _ & [= <-]).
      apply assoc_setProp_inv in Hk1 as [->|Hk1]; [|by left].
      right. exists x. split; [by left|done].
    + right. exists f. split; [by right|done].
Qed.

Lemma fold_pickInto_own_keys_from h pick data k l :
  forall picked props,
    foldM_res (OwnProps.pickInto h pick data) picked l = Ok props ->
    is_Some (assoc k props) ->
    is_Some (assoc k picked) \/
    (hasOwnProperty h data k = true /\ exists f, f ∈ l /\ field_name f = k).
Proof.
  induction l as [|x l IH]; intros picked props Hrun Hk; simpl in Hrun.
  - injection Hrun as <-. by left.
  - apply res_bind_Ok in Hrun as (picked1 & Hstep & Hrest).
    destruct (IH _ _ Hrest Hk) as [Hk1|(Hown & f & Hf & Hname)].
    + unfold OwnProps.pickInto in Hstep.
      destruct (hasOwnProperty h data (field_name x)) eqn:Hown;
        [|injection Hstep as <-; by left].
      apply res_bind_Ok in Hstep as (v & _ & [= <-]).
      apply assoc_setProp_inv in Hk1 as [->|Hk1]; [|by left].
      right. split; [done|]. exists x. split; [by left|done].
    + right. split; [done|]. exists f. split; [by right|done].
Qed.

(** X3: the object that [pickSelectionSet] returns has exactly the names of
    the selected fields as keys: a name is a key if and only if the selection
    set selects a field of that name, directly or through the inline fragments
    and fragment spreads that are included and whose type condition matches
    the runtime type.  Keys are field names, never aliases, and no other
    property of the payload object is copied. *)
Theorem projection_keys_selected
    (h : Heap) (schema : option GraphQLSchema)
    (fragments : gmap string FragmentDefinitionNode) (variables : gmap string Value)
    (fuel : nat) (path : string) (data : addr) (selectionSet : SelectionSetNode)
    (runtimeObject : option GraphQLNamedType) (out : Out) :
  pickSelectionSet h schema fragments variables fuel path data selectionSet runtimeObject
    = Ok out ->
  exists props,
    out = OObj props /\
    forall k,
      is_Some (assoc k props) <->
      exists f,
        FieldIn (matching (schemaOf schema) runtimeObject) variables fragments f
                selectionSet /\
        field_name f = k.
Proof.
  destruct fuel as [|n]; [done|]. rewrite pickSelectionSet_S.
  intros (fieldMap & Hcollect & Hrun)%res_bind_Ok.
  apply res_bind_Ok in Hrun as (props & Hfold & [= <-]).
  exists props. split; [done|]. intros k. split.
  - intros Hk.
    destruct (fold_pickInto_keys_from _ _ _ _ _ _ _ _ Hfold Hk)
      as [[? [=]]|(f & Hf & Hname)].
    exists f. split; [|done]. eapply collectFields_sound; eauto.
  - intros (f & Hin & <-). eapply fold_pickInto_key; [|exact Hfold].
    eapply collectFields_complete; eauto.
Qed.

Lemma projection_keys_selected_witness :
  exists props,
    siblingsProjection = OObj props /\
    forall k,
      is_Some (assoc k props) <->
      exists f,
        FieldIn (matching (schemaOf None) None) ∅ ∅ f
                [ node "user"
                    [ leaf "name"; node "siblings" [leaf "name"];
                      node "eldestSibling" [leaf "age"] ] ] /\
        field_name f = k.
Proof.
  apply (projection_keys_selected siblingsHeap None ∅ ∅ 3 "data" 0).
  vm_compute. reflexivity.
Defined.

(** X4: in the variant that guards each field with [hasOwnProperty], a name
    is a key of the returned object if and only if the payload object has it
    as an own property and the selection set selects a field of that name
    (every type condition counting as matching, there being no schema). *)
Theorem ownProps_keys_selected_and_present
    (h : Heap) (fragments : gmap string FragmentDefinitionNode)
    (variables : gmap string Value)
    (fuel : nat) (data : addr) (selectionSet : SelectionSetNode) (out : Out) :
  OwnProps.pickSelectionSet h fragments variables fuel data selectionSet = Ok out ->
  exists props,
    out = OObj props /\
    forall k,
      is_Some (assoc k props) <->
      hasOwnProperty h data k = true /\
      exists f,
        FieldIn (matching dummySchema None) variables fragments f selectionSet /\
        field_name f = k.
Proof.
  destruct fuel as [|n]; [done|]. simpl.
  intros (fieldMap & Hcollect & Hrun)%res_bind_Ok.
  apply res_bind_Ok in Hrun as (props & Hfold & [= <-]).
  exists props. split; [done|]. intros k. split.
  - intros Hk.
    destruct (fold_pickInto_own_keys_from _ _ _ _ _ _ _ Hfold Hk)
      as [[? [=]]|(Hown & f & Hf & Hname)].
    split; [done|]. exists f. split; [|done]. eapply collectFields_sound; eauto.
  - intros (Hown & f & Hin & <-). eapply fold_pickInto_own_key; [| |exact Hfold]; [|done].
    eapply collectFields_complete; eauto.
Qed.

Lemma ownProps_keys_selected_and_present_witness :
  exists props,
    OObj [("name", OVal (VStr "Jack"))] = OObj props /\
    forall k,
      is_Some (assoc k props) <->
      hasOwnProperty agelessHeap 1 k = true /\
      exists f,
        FieldIn (matching dummySchema None) ∅ ∅ f [ leaf "name"; leaf "age" ] /\
        field_name f = k.
Proof.
  apply (ownProps_keys_selected_and_present agelessHeap ∅ ∅ 1 1).
  vm_compute. reflexivity.
Defined.

(** ** The value under a key *)

Lemma fold_pickInto_other h pick path data k l :
  (forall g, g ∈ l -> field_name g <> k) ->
  forall picked props,
    foldM_res (pickInto h pick path data) picked l = Ok props ->
    assoc k props = assoc k picked.
Proof.
  induction l as [|x l IH]; intros Hne picked props Hrun; simpl in Hrun.
  - by injection Hrun as <-.
  - apply res_bind_Ok in Hrun as (picked1 & Hstep & Hrest).
    rewrite (IH (fun g Hg => Hne g (list_elem_of_further _ _ _ Hg)) _ _ Hrest).
    unfold pickInto in Hstep. apply res_bind_Ok in Hstep as (v & _ & [= <-]).
    apply assoc_setProp_ne, Hne. by left.
Qed.

(** The last node of a name decides the value of its key. *)
Lemma fold_pickInto_last h pick path data l1 f l2 picked props :
  (forall g, g ∈ l2 -> field_name g <> field_name f) ->
  foldM_res (pickInto h pick path data) picked (l1 ++ f :: l2) = Ok props ->
  exists v,
    pickInto h pick path data [] f = Ok [(field_name f, v)] /\
    assoc (field_name f) props = Some v.
Proof.
  intros Hne Hrun. rewrite foldM_res_app in Hrun.
  apply res_bind_Ok in Hrun as (picked1 & _ & Hrun). simpl in Hrun.
  apply res_bind_Ok in Hrun as (picked2 & Hstep & Hrest).
  rewrite (fold_pickInto_other _ _ _ _ _ _ Hne _ _ Hrest).
  unfold pickInto in *. apply res_bind_Ok in Hstep as (v & Hv & [= <-]).
  exists v. rewrite Hv. simpl. split; [done|]. apply assoc_setProp_eq.
Qed.

Lemma mapiM_res_Ok {A B} (f : nat -> A -> Res B) (l : list A) :
  forall i outs,
    mapiM_res f i l = Ok outs ->
    length outs = length l /\
    forall j x, l !! j = Some x -> exists o, outs !! j = Some o /\ f (i + j) x = Ok o.
Proof.
  induction l as [|x l IH]; intros i outs Hrun; simpl in Hrun.
  - injection Hrun as <-. split; [done|]. intros j y Hy. done.
  - apply res_bind_Ok in Hrun as (o & Ho & Hrun).
    apply res_bind_Ok in Hrun as (os & Hos & [= <-]).
    destruct (IH _ _ Hos) as [Hlen Hall]. split; [simpl; by rewrite Hlen|].
    intros [|j] y Hy; simpl in Hy.
    + injection Hy as <-. exists o. split; [done|]. by rewrite Nat.add_0_r.
    + destruct (Hall j y Hy) as (o' & Ho' & Hf). exists o'. split; [done|].
      by replace (i + S j) with (S i + j) by lia.
Qed.

(** X5: when a field name is selected more than once, the node that comes
    last among the collected nodes decides the value of the key, and the
    selections of the earlier nodes are not merged into it.  For a payload
    value that is not an array: a field without a selection set, or a value
    that is not an object, gives the payload value itself (an object is
    shared with the payload, not copied); an object under a field with a
    selection set gives the projection of that object along the selection
    set, at the path extended by the field name, and with a schema its type
    was resolved. *)
Theorem projection_value_of_last_node
    (h : Heap) (schema : option GraphQLSchema)
    (fragments : gmap string FragmentDefinitionNode) (variables : gmap string Value)
    (n : nat) (path : string) (data : addr) (selectionSet : SelectionSetNode)
    (runtimeObject : option GraphQLNamedType)
    (fieldMap : FieldMap) (l1 l2 : list FieldNode) (f : FieldNode)
    (props : list (string * Out)) :
  collectFields (schemaOf schema) fragments variables runtimeObject selectionSet
    = Ok fieldMap ->
  fieldNodes fieldMap = l1 ++ f :: l2 ->
  (forall g, g ∈ l2 -> field_name g <> field_name f) ->
  pickSelectionSet h schema fragments variables (S n) path data selectionSet runtimeObject
    = Ok (OObj props) ->
  asArray h (getProp h data (field_name f)) = None ->
  (field_selectionSet f = None \/ (forall a, getProp h data (field_name f) <> VRef a) ->
   assoc (field_name f) props = Some (OVal (getProp h data (field_name f)))) /\
  (forall sub a,
      field_selectionSet f = Some sub ->
      getProp h data (field_name f) = VRef a ->
      (is_Some schema -> is_Some (runtimeObjectOf h schema a)) /\
      exists o,
        assoc (field_name f) props = Some o /\
        pickSelectionSet h schema fragments variables n
          (fieldPathOf path (field_name f)) a sub (runtimeObjectOf h schema a) = Ok o).
Proof.
  intros Hcollect Hnodes Hlast Hrun Harr. rewrite pickSelectionSet_S, Hcollect in Hrun.
  simpl in Hrun. apply res_bind_Ok in Hrun as (props' & Hfold & [= <-]).
  rewrite Hnodes in Hfold.
  destruct (fold_pickInto_last _ _ _ _ _ _ _ _ _ Hlast Hfold) as (v & Hv & Hassoc).
  unfold pickInto in Hv. rewrite Harr in Hv.
  apply res_bind_Ok in Hv as (v' & Hpick & [= <-]). split.
  - intros Hleaf. rewrite Hassoc. f_equal.
    unfold pickField in Hpick. destruct Hleaf as [Hnone|Hval].
    + rewrite Hnone in Hpick. by injection Hpick as <-.
    + destruct (field_selectionSet f); [|by injection Hpick as <-].
      destruct (getProp h data (field_name f)) as [| | | | |a];
        try (by injection Hpick as <-). by destruct (Hval a).
  - intros sub a Hsub Hval. rewrite Hval in Hpick.
    rewrite (pickField_object _ _ _ _ _ _ _ Hsub) in Hpick.
    destruct schema as [s|], (runtimeObjectOf h _ a) as [t|] eqn:Hrt; try done;
      (split; [first [by eauto | by intros []]|]; exists v'; by rewrite Hassoc).
Qed.

(** [{ user { id } user { name } }] gives the user's name only. *)
Example userTwice_not_merged :
  pickSelectionSet directiveHeap None ∅ ∅ 2 "data" 0 userTwice None
  = Ok (OObj [("user", OObj [("name", OVal (VStr "Jack"))])]).
Proof. vm_compute. reflexivity. Qed.

Lemma projection_value_of_last_node_witness :
  exists o,
    assoc "user" [("user", OObj [("name", OVal (VStr "Jack"))])] = Some o /\
    pickSelectionSet directiveHeap None ∅ ∅ 1 "data.user" 1 [ leaf "name" ] None = Ok o.
Proof.
  assert (forall g, g ∈ @nil FieldNode -> field_name g <> field_name userNameNode)
    as Hlast by (intros g Hg; by apply elem_of_nil in Hg).
  destruct (projection_value_of_last_node directiveHeap None ∅ ∅ 1 "data" 0 userTwice
              None [("user", [userIdNode; userNameNode])] [userIdNode] [] userNameNode
              [("user", OObj [("name", OVal (VStr "Jack"))])]
              eq_refl eq_refl Hlast eq_refl eq_refl) as [_ Hobject].
  destruct (Hobject [ leaf "name" ] 1 eq_refl eq_refl) as [_ Hvalue].
  exact Hvalue.
Defined.

(** X6: an array of the payload is projected element by element, by the
    last node of the field name: the key holds a new array of the same
    length, whose element at each index is what [pickField] gives for the
    payload element at that index, under the path that carries the index;
    no element is dropped or reordered. *)
Theorem projection_of_array_pointwise
    (h : Heap) (schema : option GraphQLSchema)
    (fragments : gmap string FragmentDefinitionNode) (variables : gmap string Value)
    (n : nat) (path : string) (data : addr) (selectionSet : SelectionSetNode)
    (runtimeObject : option GraphQLNamedType)
    (fieldMap : FieldMap) (l1 l2 : list FieldNode) (f : FieldNode)
    (props : list (string * Out)) (items : list Value) :
  collectFields (schemaOf schema) fragments variables runtimeObject selectionSet
    = Ok fieldMap ->
  fieldNodes fieldMap = l1 ++ f :: l2 ->
  (forall g, g ∈ l2 -> field_name g <> field_name f) ->
  pickSelectionSet h schema fragments variables (S n) path data selectionSet runtimeObject
    = Ok (OObj props) ->
  asArray h (getProp h data (field_name f)) = Some items ->
  exists outs,
    assoc (field_name f) props = Some (OArr outs) /\
    length outs = length items /\
    forall i item,
      items !! i = Some item ->
      exists o,
        outs !! i = Some o /\
        pickField h schema (pickSelectionSet h schema fragments variables n)
          (itemPathOf path (field_name f) i) f item = Ok o.
Proof.
  intros Hcollect Hnodes Hlast Hrun Harr. rewrite pickSelectionSet_S, Hcollect in Hrun.
  simpl in Hrun. apply res_bind_Ok in Hrun as (props' & Hfold & [= <-]).
  rewrite Hnodes in Hfold.
  destruct (fold_pickInto_last _ _ _ _ _ _ _ _ _ Hlast Hfold) as (v & Hv & Hassoc).
  unfold pickInto in Hv. rewrite Harr in Hv.
  apply res_bind_Ok in Hv as (v' & Hmap & [= <-]).
  apply res_bind_Ok in Hmap as (outs & Hmap & [= <-]).
  exists outs. split; [done|].
  destruct (mapiM_res_Ok _ _ _ _ Hmap) as [Hlen Hall]. split; [done|].
  intros i item Hitem. destruct (Hall i item Hitem) as (o & Ho & Hpick). eauto.
Qed.

Lemma projection_of_array_pointwise_witness :
  exists outs,
    assoc "siblings"
      [("name", OVal (VStr "Jack"));
       ("siblings", OArr [OObj [("name", OVal (VStr "Jill"))]])]
    = Some (OArr outs) /\
    length outs = 1.
Proof.
  assert (forall g, g ∈ @nil FieldNode ->
                    field_name g <> field_name (fieldNodeOf None "siblings" []
                                                  (Some [ leaf "name" ])))
    as Hlast by (intros g Hg; by apply elem_of_nil in Hg).
  destruct (projection_of_array_pointwise siblingsHeap None ∅ ∅ 1 "data.user" 1
              [ leaf "name"; node "siblings" [ leaf "name" ] ] None
              [("name", [fieldNodeOf None "name" [] None]);
               ("siblings", [fieldNodeOf None "siblings" [] (Some [ leaf "name" ])])]
              [fieldNodeOf None "name" [] None] []
              (fieldNodeOf None "siblings" [] (Some [ leaf "name" ]))
              [("name", OVal (VStr "Jack"));
               ("siblings", OArr [OObj [("name", OVal (VStr "Jill"))]])]
              [VRef 2]
              eq_refl eq_refl Hlast eq_refl eq_refl) as (outs & Hassoc & Hlen & _).
  exists outs. by split.
Defined.

(** ** Documents whose directives can be evaluated *)

Lemma noThrow_bind {A B} (m : Res A) (k : A -> Res B) :
  noThrow m -> (forall a, m = Ok a -> noThrow (k a)) -> noThrow (res_bind m k).
Proof. destruct m as [a|e|]; simpl; auto. Qed.

Lemma getDirectiveIf_evaluable dname directives variableValues :
  dname = "skip" \/ dname = "include" ->
  evaluable variableValues directives = true ->
  noThrow (getDirectiveIf dname directives variableValues).
Proof.
  intros Hname Hev. unfold getDirectiveIf.
  destruct (List.find _ directives) as [d|] eqn:Hfind; [|done].
  apply List.find_some in Hfind as [Hin Heq]. apply String.eqb_eq in Heq.
  unfold evaluable in Hev. rewrite List.forallb_forall in Hev.
  specialize (Hev d Hin). unfold evaluableIf in Hev. rewrite Heq in Hev.
  assert (String.eqb dname "skip" || String.eqb dname "include" = true) as Hc.
  { destruct Hname as [-> | ->]; reflexivity. }
  rewrite Hc in Hev.
  destruct (dir_if d) as [[x|b| |]|]; try done.
  destruct (variableValues !! x) as [[]|]; done.
Qed.

Lemma shouldIncludeNode_evaluable variableValues directives :
  evaluable variableValues directives = true ->
  noThrow (shouldIncludeNode variableValues directives).
Proof.
  intros Hev. unfold shouldIncludeNode.
  apply noThrow_bind; [apply getDirectiveIf_evaluable; auto|].
  intros skip _. destruct (bool_decide _); [done|].
  apply noThrow_bind; [apply getDirectiveIf_evaluable; auto|].
  intros include _. by destruct (bool_decide _).
Qed.

Section evaluable_collect.
Context (schema : GraphQLSchema)
        (fragments : gmap string FragmentDefinitionNode)
        (variableValues : gmap string Value)
        (runtimeType : option GraphQLNamedType).
Hypothesis Hfragments :
  map_Forall (fun _ fragment =>
                forallb (evaluableSelection variableValues)
                        (frag_selectionSet fragment) = true) fragments.

Lemma collectSelections_noThrow spread sub :
  Forall (fun s => evaluableSelection variableValues s = true ->
                   forall st,
                     noThrow (collectSelection schema fragments variableValues
                                runtimeType spread s st)) sub ->
  forallb (evaluableSelection variableValues) sub = true ->
  forall st,
    noThrow (collectSelections schema fragments variableValues runtimeType spread sub st).
Proof.
  induction 1 as [|s sub Hs _ IH]; intros Hev st; [done|].
  simpl in Hev. apply andb_true_iff in Hev as [Hev1 Hev2].
  rewrite collectSelections_cons. apply noThrow_bind; auto.
Qed.

Lemma collectSelection_noThrow spread :
  (forall sub st, forallb (evaluableSelection variableValues) sub = true ->
                  noThrow (spread sub st)) ->
  forall s, evaluableSelection variableValues s = true ->
  forall st,
    noThrow (collectSelection schema fragments variableValues runtimeType spread s st).
Proof using Hfragments.
  intros Hspread.
  induction s as [alias name directives|alias name directives sub IH
                 |name directives|tc directives sub IH]
    using Selection_nested_ind; intros Hev st.
  - simpl in *. apply andb_true_iff in Hev as [Hev _].
    apply noThrow_bind; [by apply shouldIncludeNode_evaluable|]. by intros [] _.
  - simpl in *. apply andb_true_iff in Hev as [Hev _].
    apply noThrow_bind; [by apply shouldIncludeNode_evaluable|]. by intros [] _.
  - simpl in *. case_bool_decide; [done|].
    apply noThrow_bind; [by apply shouldIncludeNode_evaluable|].
    intros [] _; [|done].
    destruct (fragments !! name) as [fragment|] eqn:Hfrag; [|done].
    destruct (doesFragmentConditionMatch _ _ _); [|done].
    apply Hspread. exact (Hfragments _ _ Hfrag).
  - rewrite collectSelection_inline. simpl in Hev.
    apply andb_true_iff in Hev as [Hev Hsub].
    apply noThrow_bind; [by apply shouldIncludeNode_evaluable|].
    intros inc _. destruct (inc && _); [|done].
    by apply collectSelections_noThrow.
Qed.

Lemma collectFieldsImpl_noThrow budget :
  forall sub st,
    forallb (evaluableSelection variableValues) sub = true ->
    noThrow (collectFieldsImpl schema fragments variableValues runtimeType budget sub st).
Proof using Hfragments.
  induction budget as [|n IH]; intros sub st Hev; [done|]. simpl.
  apply collectSelections_noThrow; [|done]. apply Forall_forall.
  intros s _ Hs st'. by apply collectSelection_noThrow.
Qed.

Lemma collectFields_noThrow selectionSet :
  forallb (evaluableSelection variableValues) selectionSet = true ->
  noThrow (collectFields schema fragments variableValues runtimeType selectionSet).
Proof using Hfragments.
  intros Hev. unfold collectFields.
  apply noThrow_bind; [by apply collectFieldsImpl_noThrow|done].
Qed.

(** The nested selection set of a selected field is evaluable too. *)
Lemma FieldIn_evaluable matches f l :
  forallb (evaluableSelection variableValues) l = true ->
  FieldIn matches variableValues fragments f l ->
  forall sub, field_selectionSet f = Some sub ->
              forallb (evaluableSelection variableValues) sub = true.
Proof using Hfragments.
  intros Hev Hin. revert Hev.
  induction Hin as [alias name directives sub l Hin Hinc
                   |tc directives body f l Hin Hinc Hm _ IH
                   |name directives fragment f l Hin Hinc Hfrag Hm _ IH];
    intros Hev; rewrite List.forallb_forall in Hev;
    apply list_elem_of_In, Hev in Hin; simpl in Hin.
  - intros sub' [= ->]. by apply andb_true_iff in Hin as [_ Hin].
  - apply IH. by apply andb_true_iff in Hin as [_ Hin].
  - apply IH. exact (Hfragments _ _ Hfrag).
Qed.
End evaluable_collect.

Lemma pickSelectionSet_schemaless_noThrow h fragments variables n :
  map_Forall (fun _ fragment =>
                forallb (evaluableSelection variables)
                        (frag_selectionSet fragment) = true) fragments ->
  forall path data selectionSet runtimeObject,
    forallb (evaluableSelection variables) selectionSet = true ->
    noThrow (pickSelectionSet h None fragments variables n path data selectionSet
               runtimeObject).
Proof.
  intros Hfragments.
  induction n as [|n IH]; intros path data ss rt Hev; [done|].
  rewrite pickSelectionSet_S.
  pose proof (collectFields_noThrow (schemaOf None) fragments variables rt Hfragments
                ss Hev) as Hc.
  destruct (collectFields _ _ _ _ ss) as [fieldMap| |] eqn:Hcollect; simpl; try done.
  destruct (foldM_res _ _ _) as [props|e|] eqn:Hfold; simpl; try done.
  apply foldM_res_Throw in Hfold as (picked & f & Hf & Hstep).
  pose proof (collectFields_sound _ _ _ _ _ _ _ Hcollect Hf) as Hin.
  pose proof (FieldIn_evaluable fragments variables Hfragments _ _ _ Hev Hin) as Hsub.
  assert (forall fieldPath v,
            noThrow (pickField h None (pickSelectionSet h None fragments variables n)
                       fieldPath f v)) as Hpick.
  { intros fieldPath v. unfold pickField.
    destruct (field_selectionSet f) as [sub|]; [|done].
    destruct v as [| | | | |a]; try done. apply IH. by apply Hsub. }
  unfold pickInto in Hstep.
  apply res_bind_Throw in Hstep as [Hv|(? & _ & ?)]; [|done].
  destruct (asArray h (getProp h data (field_name f))) as [items|].
  - apply res_bind_Throw in Hv as [Hmap|(? & _ & ?)]; [|done].
    apply mapiM_res_Throw in Hmap as (j & item & _ & Hthrow).
    specialize (Hpick (itemPathOf path (field_name f) (0 + j)) item).
    simpl in Hthrow, Hpick. by rewrite Hthrow in Hpick.
  - specialize (Hpick (fieldPathOf path (field_name f)) (getProp h data (field_name f))).
    by rewrite Hv in Hpick.
Qed.

(** X7: without a schema, [pickOperationFields] returns an object for every
    payload, cyclic ones included, as soon as the document has the requested
    operation, the static depth of its selection set with the fragments
    spliced in is defined and within the recursion budget, and every [@skip]
    and [@include] of the operation and of the fragments has an [if] argument
    that is a boolean literal or a variable with a runtime value: nothing in
    the payload can make it throw. *)
Theorem schemaless_projection_succeeds
    (h : Heap) (data : addr) (documentNode : DocumentNode)
    (operationName : option string) (variables : option (gmap string Value))
    (operation : OperationDefinitionNode) (budget d fuel : nat) :
  operations (extractDefinitions documentNode)
    !! or_else operationName anonymousOperationKey = Some operation ->
  staticDepth (fragments (extractDefinitions documentNode)) budget
    (op_selectionSet operation) = Some d ->
  d <= fuel ->
  evaluableDocument (default ∅ variables) (fragments (extractDefinitions documentNode))
    (op_selectionSet operation) ->
  exists props,
    pickOperationFields fuel h data documentNode operationName variables None
    = Ok (OObj props).
Proof.
  intros Hop Hd Hle [Hev Hfragments]. unfold pickOperationFields. rewrite Hop.
  pose proof (pickSelectionSet_terminates h None _ (default ∅ variables) fuel budget
                _ d "data" data (getRootType (schemaOf None) (op_operation operation))
                Hd Hle) as Hterm.
  pose proof (pickSelectionSet_schemaless_noThrow h _ (default ∅ variables) fuel
                Hfragments "data" data _
                (getRootType (schemaOf None) (op_operation operation)) Hev) as Hno.
  destruct fuel as [|n]; [done|].
  rewrite pickSelectionSet_S in *.
  destruct (collectFields _ _ _ _ _) as [fieldMap| |]; simpl in *; try done.
  destruct (foldM_res _ _ _) as [props| |]; simpl in *; try done. eauto.
Qed.

Lemma schemaless_projection_succeeds_witness :
  exists props,
    pickOperationFields 5 siblingsHeap 0 siblingsQuery None None None = Ok (OObj props).
Proof.
  refine (schemaless_projection_succeeds siblingsHeap 0 siblingsQuery None None
            {| op_operation := QUERY; op_name := None;
               op_selectionSet :=
                 [ node "user"
                     [ leaf "name"; node "siblings" [leaf "name"];
                       node "eldestSibling" [leaf "age"] ] ] |}
            1 3 5 _ _ _ _).
  - vm_compute. reflexivity.
  - vm_compute. reflexivity.
  - lia.
  - split; [reflexivity|]. intros name fragment Hlook. vm_compute in Hlook. discriminate.
Defined.

(** * Further properties of the document analyzer *)

Lemma find_none_of_all {A} (f : A -> bool) (l : list A) :
  (forall x, x ∈ l -> f x = false) -> List.find f l = None.
Proof.
  intros Hall. destruct (List.find f l) as [x|] eqn:Hfind; [|done].
  apply List.find_some in Hfind as [Hin Hf].
  rewrite Hall in Hf by (by apply list_elem_of_In). done.
Qed.

Lemma find_none_all {A} (f : A -> bool) (l : list A) :
  List.find f l = None -> forall x, x ∈ l -> f x = false.
Proof.
  intros Hfind x Hx. apply (List.find_none _ _ Hfind). by apply list_elem_of_In.
Qed.

Lemma same_name_eq a b : same_name a b = true -> a = b.
Proof.
  destruct a as [a|], b as [b|]; simpl; try done.
  by intros ->%String.eqb_eq.
Qed.

Lemma same_name_refl a : truthy_name a = true -> same_name a a = true.
Proof. destruct a as [a|]; simpl; [|done]. intros _. apply String.eqb_refl. Qed.

(** What a successful resolution returns. *)
Lemma parseDocumentNode_Ok
    (ast : DocumentNode) (operationName : option string) (r : ParsedGraphQLQuery) :
  Analyzer.parseDocumentNode ast operationName = Ok r ->
  exists d,
    d ∈ Analyzer.operationDefsOf ast /\
    r = {| pq_operationType := op_operation d; pq_operationName := op_name d |} /\
    (truthy_name (op_name d) = true -> op_name d = operationName) /\
    (truthy_name (op_name d) = false ->
     operationName = None /\ Analyzer.operationDefsOf ast = [d]).
Proof.
  unfold Analyzer.parseDocumentNode.
  assert (forall l,
            match List.find (fun def => negb (truthy_name (op_name def))) l with
            | Some _ =>
                Throw (PlainError "Anonymous operations must be the only defined operation.")
            | None =>
                match List.find (fun def => same_name (op_name def) operationName) l with
                | None =>
                    Throw (PlainError
                             ("Multiple operation definitions found but none match passed operation name "
                              +:+ quoted (show_name operationName)))
                | Some operationDef =>
                    Ok {| pq_operationType := op_operation operationDef;
                          pq_operationName := op_name operationDef |}
                end
            end = Ok r ->
            exists d, d ∈ l /\
              r = {| pq_operationType := op_operation d; pq_operationName := op_name d |} /\
              truthy_name (op_name d) = true /\ op_name d = operationName) as Hmany.
  { intros l Hrun.
    destruct (List.find (fun def => negb (truthy_name (op_name def))) l) eqn:Hanon;
      [done|].
    destruct (List.find (fun def => same_name (op_name def) operationName) l)
      as [d|] eqn:Hfind; [|done].
    injection Hrun as <-. apply List.find_some in Hfind as [Hin Hsame].
    apply list_elem_of_In in Hin. exists d. split; [done|]. split; [done|].
    pose proof (find_none_all _ _ Hanon d Hin) as Hnamed. simpl in Hnamed.
    apply negb_false_iff in Hnamed. split; [done|]. by apply same_name_eq. }
  destruct (Analyzer.operationDefsOf ast) as [|d [|d' l]] eqn:Hdefs.
  - intros Hrun. destruct (Hmany [] Hrun) as (d & Hd & _). by apply elem_of_nil in Hd.
  - destruct (truthy_name (op_name d)) eqn:Hnamed; simpl.
    + destruct (same_name (op_name d) operationName) eqn:Hsame; simpl; [|done].
      intros [= <-]. exists d. split; [by left|]. split; [done|].
      split; [intros _; by apply same_name_eq|by rewrite Hnamed].
    + case_bool_decide as Hnone; simpl; [|done].
      intros [= <-]. exists d. split; [by left|]. split; [done|].
      split; [by rewrite Hnamed|done].
  - intros Hrun. destruct (Hmany _ Hrun) as (x & Hx & -> & Hnamed & Hname).
    exists x. split; [done|]. split; [done|]. split; [done|]. by rewrite Hnamed.
Qed.

(** X8: when the hand-written operation resolution succeeds, its result is
    the type and the name of an operation definition of the document; if that
    operation has a name, it is the operation name that was passed, and if it
    has none, no name was passed and it is the only operation of the
    document. *)
Theorem parseDocumentNode_sound
    (ast : DocumentNode) (operationName : option string) (r : ParsedGraphQLQuery) :
  Analyzer.parseDocumentNode ast operationName = Ok r ->
  exists d,
    d ∈ Analyzer.operationDefsOf ast /\
    r = {| pq_operationType := op_operation d; pq_operationName := op_name d |} /\
    (truthy_name (op_name d) = true -> op_name d = operationName) /\
    (truthy_name (op_name d) = false ->
     operationName = None /\ Analyzer.operationDefsOf ast = [d]).
Proof. apply parseDocumentNode_Ok. Qed.

Lemma parseDocumentNode_sound_witness :
  exists d,
    d ∈ Analyzer.operationDefsOf getUserAndLogin /\
    {| pq_operationType := MUTATION; pq_operationName := Some "Login" |}
    = {| pq_operationType := op_operation d; pq_operationName := op_name d |} /\
    (truthy_name (op_name d) = true -> op_name d = Some "Login") /\
    (truthy_name (op_name d) = false ->
     Some "Login" = None /\ Analyzer.operationDefsOf getUserAndLogin = [d]).
Proof.
  apply (parseDocumentNode_sound getUserAndLogin (Some "Login")). reflexivity.
Defined.

(** X9: the hand-written operation resolution succeeds in exactly two
    situations: the document has a single operation, it has no name and no
    operation name is passed; or every operation of the document has a name
    and one of them has the name that is passed.  So a document without
    operations is always rejected, a single operation with a name is rejected
    unless its name is passed, and an anonymous operation is rejected as soon
    as a name is passed. *)
Theorem parseDocumentNode_succeeds_iff
    (ast : DocumentNode) (operationName : option string) :
  (exists r, Analyzer.parseDocumentNode ast operationName = Ok r) <->
  (exists d, Analyzer.operationDefsOf ast = [d] /\
             truthy_name (op_name d) = false /\ operationName = None) \/
  ((forall d, d ∈ Analyzer.operationDefsOf ast -> truthy_name (op_name d) = true) /\
   exists d, d ∈ Analyzer.operationDefsOf ast /\ op_name d = operationName).
Proof.
  split.
  - intros [r Hrun].
    destruct (parseDocumentNode_Ok _ _ _ Hrun) as (d & Hd & -> & Hnamed & Hanon).
    destruct (truthy_name (op_name d)) eqn:Ht.
    + right. split; [|exists d; auto].
      intros d' Hd'. destruct (truthy_name (op_name d')) eqn:Ht'; [done|].
      unfold Analyzer.parseDocumentNode in Hrun.
      destruct (find_some_of_elem (fun def => negb (truthy_name (op_name def))) _ d' Hd')
        as [x Hx]; [by rewrite Ht'|].
      destruct (Analyzer.operationDefsOf ast) as [|a [|b l]] eqn:Hdefs.
      * by apply elem_of_nil in Hd.
      * apply list_elem_of_singleton in Hd as ->.
        apply list_elem_of_singleton in Hd' as ->. congruence.
      * by rewrite Hx in Hrun.
    + left. exists d. destruct (Hanon eq_refl) as [-> ->]. auto.
  - intros [(d & Hdefs & Ht & ->)|[Hall (d & Hd & Hname)]];
      unfold Analyzer.parseDocumentNode.
    + rewrite Hdefs, Ht. simpl. eauto.
    + pose proof (Hall d Hd) as Ht.
      assert (same_name (op_name d) operationName = true) as Hsame
        by (rewrite <- Hname; by apply same_name_refl).
      destruct (Analyzer.operationDefsOf ast) as [|a [|b l]] eqn:Hdefs.
      * by apply elem_of_nil in Hd.
      * apply list_elem_of_singleton in Hd as ->. rewrite Ht, Hsame. simpl. eauto.
      * rewrite find_none_of_all
          by (intros x Hx; simpl; by rewrite (Hall x Hx)).
        destruct (find_some_of_elem
                    (fun def => same_name (op_name def) operationName) _ d Hd Hsame)
          as [x Hx].
        rewrite Hx. eauto.
Qed.

(** ** The analyzer and the projector resolve the same operation *)

Lemma foldl_insert_NoDup {A} (key : A -> string) (l : list A) (d : A) :
  NoDup (key <$> l) -> d ∈ l ->
  forall m : gmap string A,
    foldl (fun m x => <[key x := x]> m) m l !! key d = Some d.
Proof.
  intros Hnd (l1 & l2 & ->)%list_elem_of_split m.
  apply foldl_insert_last. intros x Hx Heq.
  rewrite fmap_app, fmap_cons in Hnd.
  apply NoDup_app in Hnd as (_ & _ & Hnd). apply NoDup_cons in Hnd as [Hnot _].
  apply Hnot. rewrite <- Heq. by apply list_elem_of_fmap_2.
Qed.

(** X10: for a document whose operations have pairwise different keys
    (different names, at most one without a name), the operation that the
    hand-written resolution reports is the one the projector looks up under
    the reported name: the lookup succeeds, the operation found has the
    reported type and name, and the projection runs on its selection set.
    (With a repeated name the resolution reports the first operation of that
    name and the projector uses the last.) *)
Theorem parseDocumentNode_agrees_with_projector
    (ast : DocumentNode) (operationName : option string) (r : ParsedGraphQLQuery) :
  NoDup (operationKey <$> Analyzer.operationDefsOf ast) ->
  Analyzer.parseDocumentNode ast operationName = Ok r ->
  exists d,
    operations (extractDefinitions ast)
      !! or_else (pq_operationName r) anonymousOperationKey = Some d /\
    op_operation d = pq_operationType r /\
    op_name d = pq_operationName r /\
    (forall fuel h data variables,
        OwnProps.pickOperationFields fuel h data ast (pq_operationName r) variables
        = OwnProps.pickSelectionSet h (fragments (extractDefinitions ast))
            (default ∅ variables) fuel data (op_selectionSet d)) /\
    (forall fuel h data variables schema,
        pickOperationFields fuel h data ast (pq_operationName r) variables schema
        = pickSelectionSet h schema (fragments (extractDefinitions ast))
            (default ∅ variables) fuel "data" data (op_selectionSet d)
            (getRootType (schemaOf schema) (op_operation d))).
Proof.
  intros Hnd Hrun.
  destruct (parseDocumentNode_Ok _ _ _ Hrun) as (d & Hd & -> & _).
  assert (operations (extractDefinitions ast)
            !! or_else (op_name d) anonymousOperationKey = Some d) as Hop.
  { unfold extractDefinitions; simpl.
    apply (foldl_insert_NoDup operationKey); [exact Hnd|exact Hd]. }
  exists d. simpl. split; [done|]. split; [done|]. split; [done|].
  split; intros; unfold pickOperationFields, OwnProps.pickOperationFields;
    by rewrite Hop.
Qed.

Lemma parseDocumentNode_agrees_with_projector_witness :
  exists d,
    operations (extractDefinitions getUserAndLogin) !! "Login" = Some d /\
    op_operation d = MUTATION /\ op_name d = Some "Login".
Proof.
  assert (NoDup (operationKey <$> Analyzer.operationDefsOf getUserAndLogin)) as Hnd.
  { apply NoDup_cons. split; [|apply NoDup_singleton].
    intros Hin. apply list_elem_of_singleton in Hin. discriminate. }
  destruct (parseDocumentNode_agrees_with_projector getUserAndLogin (Some "Login")
              {| pq_operationType := MUTATION; pq_operationName := Some "Login" |}
              Hnd eq_refl) as (d & Hop & Htype & Hname & _).
  exists d. auto.
Defined.

(** * Further properties of the handler *)

(** X11: a handler can be created from a document only when the execution
    context resolves it (no operation name being passed) to an operation
    that has a name and whose type is the handler's type, so never for the
    type [all]; the handler then selects by the name of that operation, its
    header reads "<type> <name> (origin: <endpoint>)", and its [predicate]
    accepts a parsed request exactly when the URL matches the endpoint and
    the request's operation has that type and that name. *)
Theorem handler_of_document
    {Request Path : Type}
    (buildExecutionContext :
       DocumentNode -> JV -> JV -> list string + (OperationDefinitionNode * JV))
    (pathToString : Path -> string)
    (operationType : Matcher.ExpectedOperationTypeNode)
    (document : DocumentNode) (endpoint : Path) (handler : Handler.Created Path) :
  Handler.new buildExecutionContext pathToString operationType
    (Handler.OfDocument document) endpoint = Ok handler ->
  exists operation variableValues name,
    buildExecutionContext document JNull JUndefined = inr (operation, variableValues) /\
    op_name operation = Some name /\ name <> EmptyString /\
    operationType = Matcher.Expect (op_operation operation) /\
    Handler.created handler
    = {| Matcher.info_operationType := Matcher.Expect (op_operation operation);
         Matcher.info_operationSelector := Matcher.SelString name;
         Matcher.endpoint := endpoint |} /\
    Handler.info_header handler
    = Handler.showOperationType (op_operation operation) +:+ " " +:+ name
      +:+ " (origin: " +:+ pathToString endpoint +:+ ")" /\
    forall (matchRequestUrl : Request -> Path -> bool)
           (requestMethod getPublicUrlFromRequest : Request -> string)
           (request : Request) (parsed : Matcher.ParsedResult),
      fst (Matcher.predicate matchRequestUrl requestMethod getPublicUrlFromRequest
             (Handler.created handler) request (Some parsed)) = true <->
      matchRequestUrl request endpoint = true /\
      Matcher.res_operationType parsed = op_operation operation /\
      Matcher.res_operationName parsed = Some name.
Proof.
  unfold Handler.new, Handler.resolveSelector, Normalizer.parseDocumentNode.
  destruct (buildExecutionContext document JNull JUndefined)
    as [errors|[operation variableValues]] eqn:Hctx; [done|]. simpl.
  case_bool_decide as Htype; simpl; [|done].
  destruct (op_name operation) as [[|c r]|] eqn:Hname; simpl; try done.
  intros [= <-]. subst operationType.
  assert (String c r <> EmptyString) as Hne by done.
  remember (String c r) as name eqn:Hn0. clear Hn0.
  exists operation, variableValues, name. simpl.
  split; [done|]. split; [done|]. split; [done|]. split; [done|]. split; [done|].
  split; [done|].
  intros matchRequestUrl requestMethod getPublicUrlFromRequest request parsed.
  unfold Matcher.predicate, Matcher.hasMatchingOperationType,
    Matcher.hasMatchingOperationName.
  cbn [Handler.created Matcher.info_operationType Matcher.info_operationSelector
       Matcher.endpoint Matcher.isAll].
  destruct (Matcher.res_operationName parsed) as [[|c' r']|] eqn:Hn;
    cbn [truthy_name negb andb fst].
  - split; [done|]. by intros (_ & _ & [= <-]).
  - rewrite !andb_true_iff, bool_decide_eq_true, String.eqb_eq.
    split; [intros [[? ?] ?]|intros (? & ? & [= ?])]; split_and!; congruence.
  - split; [done|]. by intros (_ & _ & [=]).
Qed.

Lemma handler_of_document_witness :
  exists operation variableValues name,
    singleOperationContext getUserDocument JNull JUndefined
    = inr (operation, variableValues) /\
    op_name operation = Some name /\ name <> EmptyString /\
    Matcher.Expect QUERY = Matcher.Expect (op_operation operation).
Proof.
  destruct (handler_of_document (Request := unit) (Path := string)
              singleOperationContext (fun endpoint => endpoint)
              (Matcher.Expect QUERY) getUserDocument "*"
              {| Handler.info_header := "query GetUser (origin: *)";
                 Handler.created :=
                   {| Matcher.info_operationType := Matcher.Expect QUERY;
                      Matcher.info_operationSelector := Matcher.SelString "GetUser";
                      Matcher.endpoint := "*" |} |}
              eq_refl)
    as (operation & variableValues & name & Hctx & Hname & Hne & Htype & _).
  exists operation, variableValues, name. auto.
Defined.

(** * Further properties of the transport normalizer *)

(** ** Multipart variables *)

Lemma jset_Ok target k x t' :
  jset target k x = Ok t' ->
  exists isArray props,
    target = JObj isArray props /\ t' = JObj isArray (setProp k x props).
Proof. destruct target; simpl; intros [=]; subst; eauto. Qed.

Lemma jget_jset target k x t' :
  jset target k x = Ok t' ->
  jget t' k = x /\ forall k', k' <> k -> jget t' k' = jget target k'.
Proof.
  intros (isArray & props & -> & ->)%jset_Ok. simpl. split.
  - by rewrite assoc_setProp_eq.
  - intros k' Hne. rewrite assoc_setProp_ne; [done|]. congruence.
Qed.

(** After an assignment the file is read back along the path, and the
    properties of the target outside the first segment are untouched. *)
Lemma assignAt_lookup allPaths paths lastPath file :
  forall target t',
    Normalizer.assignAt allPaths target paths lastPath file = Ok t' ->
    jgetPath t' (paths ++ [lastPath]) = file /\
    forall k, Some k <> head (paths ++ [lastPath]) -> jget t' k = jget target k.
Proof.
  induction paths as [|path rest IH]; intros target t' Hrun; simpl in Hrun.
  - destruct (jget_jset _ _ _ _ Hrun) as [Hget Hframe]. split; [exact Hget|].
    intros k Hk. apply Hframe. simpl in Hk. congruence.
  - apply res_bind_Ok in Hrun as (present & Hin & Hrun).
    destruct present; [|done].
    apply res_bind_Ok in Hrun as (inner & Hinner & Hset).
    destruct (jget_jset _ _ _ _ Hset) as [Hget Hframe]. split.
    + unfold jgetPath. simpl. rewrite Hget. by apply (IH _ _ Hinner).
    + intros k Hk. apply Hframe. simpl in Hk. congruence.
Qed.

Lemma split_dots_nonempty s : split_dots s <> [].
Proof.
  induction s as [|c r IH]; simpl; [done|].
  destruct (Ascii.eqb c "."); [done|]. by destruct (split_dots r).
Qed.

Lemma assignDotPath_Ok operations dotPath file t' :
  Normalizer.assignDotPath operations dotPath file = Ok t' ->
  exists paths lastPath,
    split_dots dotPath = paths ++ [lastPath] /\
    Normalizer.assignAt paths operations paths lastPath file = Ok t'.
Proof.
  unfold Normalizer.assignDotPath.
  destruct (rev (split_dots dotPath)) as [|lastPath reversedPaths] eqn:Hrev.
  { apply (f_equal (@rev string)) in Hrev. rewrite rev_involutive in Hrev.
    by destruct (split_dots_nonempty dotPath). }
  intros Hrun. exists (rev reversedPaths), lastPath. split; [|done].
  apply (f_equal (@rev string)) in Hrev. rewrite rev_involutive in Hrev. by rewrite Hrev.
Qed.

(** The run of [extractMultipartVariables] up to the last path of the last
    entry of the map. *)
Lemma extractMultipartVariables_last variables pre key ps dotPath files file r :
  assoc key files = Some file ->
  Normalizer.extractMultipartVariables variables (pre ++ [(key, ps ++ [dotPath])]) files
    = Ok r ->
  exists operations operations',
    Normalizer.extractMultipartVariables variables (pre ++ [(key, ps)]) files
      = Ok (jget operations "variables") /\
    Normalizer.assignDotPath operations dotPath file = Ok operations' /\
    r = jget operations' "variables".
Proof.
  intros Hfile. unfold Normalizer.extractMultipartVariables.
  intros (ops' & Hrun & [= <-])%res_bind_Ok.
  rewrite foldM_res_app in Hrun. apply res_bind_Ok in Hrun as (ops0 & Hpre & Hrun).
  simpl in Hrun. rewrite Hfile in Hrun.
  apply res_bind_Ok in Hrun as (ops2 & Hentry & [= ->]).
  rewrite foldM_res_app in Hentry. apply res_bind_Ok in Hentry as (ops1 & Hps & Hlast).
  simpl in Hlast. apply res_bind_Ok in Hlast as (ops3 & Hassign & [= ->]).
  exists ops1, ops'. split; [|done].
  rewrite foldM_res_app, Hpre. simpl. rewrite Hfile, Hps. done.
Qed.

(** X12: when [extractMultipartVariables] returns, the file of the last
    entry of the map sits where the entry's last path points: for a path
    "variables.a.b" reading [a] and then [b] in the returned variables gives
    the file (for the path "variables" the file replaces the variables as a
    whole).  A path whose first segment is not [variables] has no effect on
    the returned variables. *)
Theorem multipart_last_assignment
    (variables : JV) (pre : list (string * list string)) (key : string)
    (ps : list string) (dotPath : string) (files : list (string * JV))
    (file r : JV) (segment : string) (rest : list string) :
  assoc key files = Some file ->
  Normalizer.extractMultipartVariables variables (pre ++ [(key, ps ++ [dotPath])]) files
    = Ok r ->
  split_dots dotPath = segment :: rest ->
  (segment = "variables" -> jgetPath r rest = file) /\
  (segment <> "variables" ->
   Normalizer.extractMultipartVariables variables (pre ++ [(key, ps)]) files = Ok r).
Proof.
  intros Hfile Hrun Hsplit.
  destruct (extractMultipartVariables_last _ _ _ _ _ _ _ _ Hfile Hrun)
    as (ops & ops' & Hbefore & Hassign & ->).
  apply assignDotPath_Ok in Hassign as (paths & lastPath & Hpaths & Hassign).
  destruct (assignAt_lookup _ _ _ _ _ _ Hassign) as [Hget Hframe].
  rewrite <- Hpaths, Hsplit in Hget, Hframe. split.
  - intros ->. exact Hget.
  - intros Hne. rewrite Hframe; [done|]. simpl. congruence.
Qed.

Lemma multipart_last_assignment_witness :
  jgetPath (JObj false [("file", JFile "a.txt"); ("title", JStr "x")]) ["file"]
  = JFile "a.txt".
Proof.
  refine (proj1 (multipart_last_assignment uploadVariables [] "0" [] "variables.file"
                   uploadFiles (JFile "a.txt")
                   (JObj false [("file", JFile "a.txt"); ("title", JStr "x")])
                   "variables" ["file"] eq_refl eq_refl eq_refl) eq_refl).
Defined.

Lemma jgetPath_undefined path : jgetPath JUndefined path = JUndefined.
Proof. induction path as [|p path IH]; [done|]. exact IH. Qed.

Lemma assignAt_missing allPaths lastPath file seg more isArray props :
  assoc seg props = None ->
  forall inner target,
    jgetPath target inner = JObj isArray props ->
    Normalizer.assignAt allPaths target (inner ++ seg :: more) lastPath file
    = Throw (PlainError ("Property '" +:+ join_commas allPaths
                         +:+ "' is not in operations.")).
Proof.
  intros Hseg. induction inner as [|p inner IH]; intros target Hget.
  - unfold jgetPath in Hget. simpl in Hget. subst target. simpl.
    rewrite Hseg. rewrite bool_decide_eq_false_2; [done|]. by intros [? [=]].
  - unfold jgetPath in Hget. simpl in Hget. fold (jgetPath (jget target p) inner) in Hget.
    destruct target as [| | | | | |b tprops];
      try (simpl in Hget; by rewrite jgetPath_undefined in Hget).
    simpl in Hget |- *.
    destruct (assoc p tprops) as [v|] eqn:Hp;
      [|simpl in Hget; by rewrite jgetPath_undefined in Hget].
    rewrite bool_decide_eq_true_2 by eauto. simpl in Hget |- *.
    by rewrite (IH _ Hget).
Qed.

Lemma extractMultipartVariables_Ok variables map files r :
  Normalizer.extractMultipartVariables variables map files = Ok r ->
  exists operations,
    foldM_res
      (fun operations '(key, pathArray) =>
         match assoc key files with
         | None =>
             Throw (PlainError ("Given files do not have a key '" +:+ key +:+ "' ."))
         | Some file =>
             foldM_res (fun operations dotPath =>
                          Normalizer.assignDotPath operations dotPath file)
                       operations pathArray
         end)
      (JObj false [("variables", variables)]) map = Ok operations /\
    r = jget operations "variables".
Proof.
  unfold Normalizer.extractMultipartVariables.
  intros (ops & Hrun & [= <-])%res_bind_Ok. eauto.
Qed.

(** X13: an entry of the map whose key names no uploaded file, and is not a
    name that the plain object of the files inherits, makes
    [extractMultipartVariables] throw "Given files do not have a key '<key>'
    ." as soon as the entries before it have been processed, whatever paths
    the entry lists and whatever follows it. *)
Theorem multipart_missing_file
    (variables : JV) (pre post : list (string * list string)) (key : string)
    (ps : list string) (files : list (string * JV)) (r0 : JV) :
  Normalizer.extractMultipartVariables variables pre files = Ok r0 ->
  assoc key files = None ->
  inherited key = false ->
  Normalizer.extractMultipartVariables variables (pre ++ (key, ps) :: post) files
  = Throw (PlainError ("Given files do not have a key '" +:+ key +:+ "' .")).
Proof.
  intros (ops & Hpre & _)%extractMultipartVariables_Ok Hnone _.
  unfold Normalizer.extractMultipartVariables.
  rewrite foldM_res_app, Hpre. simpl. by rewrite Hnone.
Qed.

Lemma multipart_missing_file_witness :
  Normalizer.extractMultipartVariables uploadVariables
    ([] ++ ("1", ["variables.file"]) :: []) uploadFiles
  = Throw (PlainError "Given files do not have a key '1' .").
Proof.
  exact (multipart_missing_file uploadVariables [] [] "1" ["variables.file"] uploadFiles
           uploadVariables eq_refl eq_refl eq_refl).
Defined.

(** X14: a path "variables.a.b.c" whose walk through the variables reaches
    a plain object (not an array) that lacks the next segment, a segment that
    a plain object does not inherit either, makes
    [extractMultipartVariables] throw "Property '<segments>' is not in
    operations.", where the segments are those of the path without the last
    one, joined by commas; nothing is created along the way. *)
Theorem multipart_missing_property
    (variables : JV) (pre post : list (string * list string)) (key dotPath : string)
    (ps : list string) (files : list (string * JV)) (file r0 : JV)
    (inner more : list string) (segment lastPath : string)
    (props : list (string * JV)) :
  Normalizer.extractMultipartVariables variables pre files = Ok r0 ->
  assoc key files = Some file ->
  split_dots dotPath = "variables" :: inner ++ segment :: more ++ [lastPath] ->
  jgetPath r0 inner = JObj false props ->
  assoc segment props = None ->
  inherited segment = false ->
  Normalizer.extractMultipartVariables variables (pre ++ (key, dotPath :: ps) :: post) files
  = Throw (PlainError ("Property '"
                       +:+ join_commas ("variables" :: inner ++ segment :: more)
                       +:+ "' is not in operations.")).
Proof.
  intros (ops & Hpre & ->)%extractMultipartVariables_Ok Hfile Hsplit Hget Hseg _.
  unfold Normalizer.extractMultipartVariables.
  rewrite foldM_res_app, Hpre. simpl. rewrite Hfile. simpl.
  unfold Normalizer.assignDotPath. rewrite Hsplit.
  replace ("variables" :: inner ++ segment :: more ++ [lastPath])
    with (("variables" :: inner ++ segment :: more) ++ [lastPath])
    by (simpl; by rewrite <- app_assoc).
  rewrite rev_unit, rev_involutive.
  rewrite (assignAt_missing _ lastPath file segment more false props Hseg
             ("variables" :: inner) ops Hget).
  done.
Qed.

Lemma multipart_missing_property_witness :
  Normalizer.extractMultipartVariables (JObj false [])
    ([] ++ ("0", ["variables.input.file"]) :: []) uploadFiles
  = Throw (PlainError "Property 'variables,input' is not in operations.").
Proof.
  exact (multipart_missing_property (JObj false []) [] [] "0" "variables.input.file" []
           uploadFiles (JFile "a.txt") (JObj false []) [] [] "input" "file" []
           eq_refl eq_refl eq_refl eq_refl eq_refl eq_refl).
Defined.

(** ** The outcomes of request parsing *)

Lemma assignAt_fuel allPaths paths lastPath file :
  forall target, Normalizer.assignAt allPaths target paths lastPath file <> OutOfFuel.
Proof.
  induction paths as [|path rest IH]; intros target; simpl.
  - by destruct target.
  - destruct target as [| | | | | |isArray props]; simpl; try done.
    destruct (bool_decide _); simpl; [|done].
    specialize (IH (default JUndefined (assoc path props))).
    destruct (Normalizer.assignAt _ _ rest _ _); simpl; done.
Qed.

Lemma extractMultipartVariables_fuel variables map files :
  Normalizer.extractMultipartVariables variables map files <> OutOfFuel.
Proof.
  unfold Normalizer.extractMultipartVariables.
  assert (forall init,
            foldM_res
              (fun operations '(key, pathArray) =>
                 match assoc key files with
                 | None =>
                     Throw (PlainError
                              ("Given files do not have a key '" +:+ key +:+ "' ."))
                 | Some file =>
                     foldM_res (fun operations dotPath =>
                                  Normalizer.assignDotPath operations dotPath file)
                               operations pathArray
                 end) init map <> OutOfFuel) as Hfold.
  { apply foldM_res_fuel. intros ops [key pathArray] _.
    destruct (assoc key files) as [file|]; [|done].
    apply foldM_res_fuel. intros ops' dotPath _. unfold Normalizer.assignDotPath.
    destruct (rev _); [done|]. apply assignAt_fuel. }
  specialize (Hfold (JObj false [("variables", variables)])).
  destruct (foldM_res _ _ map); simpl; done.
Qed.

(** X15: every run of [parseGraphQLRequest] ends in one of these ways.  It
    returns undefined when the request is not normalized to an input or the
    input's query is empty.  It returns a parsed request only when the parser
    accepted the query and the execution context was built, and then the
    result holds that document, the type and name of the operation the
    context chose, and the variable values of the context (not those of the
    request).  It throws either an error of the multipart variable
    extraction, which only a POST body with [operations] and without [query]
    can cause, or the one descriptive error, whose last part is the parser's
    message or the messages of the execution context joined by newlines. *)
Theorem parseGraphQLRequest_outcomes
    (jsonParse : JV -> JV)
    (jsonParseOperations : JV -> option Normalizer.ParsedOperations)
    (jsonParseMap : JV -> option (list (string * list string)))
    (parse : JV -> string + DocumentNode)
    (buildExecutionContext :
       DocumentNode -> JV -> JV -> list string + (OperationDefinitionNode * JV))
    (getPublicUrlFromRequest : Normalizer.MockedRequest -> string)
    (request : Normalizer.MockedRequest) :
  requestOutcome parse buildExecutionContext getPublicUrlFromRequest request
    (Normalizer.getGraphQLInput jsonParse jsonParseOperations jsonParseMap request)
    (Normalizer.parseGraphQLRequest jsonParse jsonParseOperations jsonParseMap
       parse buildExecutionContext getPublicUrlFromRequest request).
Proof.
  unfold Normalizer.parseGraphQLRequest.
  destruct (Normalizer.getGraphQLInput _ _ _ request) as [[input|]|e|] eqn:Hin; simpl.
  - destruct (truthy (Normalizer.in_query input)) eqn:Hq; simpl; [|right; eauto].
    unfold Normalizer.parseQuery, Normalizer.parseDocumentNode.
    destruct (parse (Normalizer.in_query input)) as [message|document] eqn:Hparse.
    { right. exists input, message. auto. }
    destruct (buildExecutionContext document _ _) as [errors|[operation values]] eqn:Hctx.
    + right. exists input, (Normalizer.join_lines errors). simpl.
      split; [done|]. split; [done|]. right. eauto.
    + simpl. exists input, operation. split_and!; done.
  - by left.
  - left. split; [done|].
    unfold Normalizer.getGraphQLInput in Hin.
    destruct (String.eqb (Normalizer.req_method request) "GET"); [done|].
    destruct (String.eqb (Normalizer.req_method request) "POST") eqn:Hpost; [|done].
    apply String.eqb_eq in Hpost.
    destruct (truthy (jget (Normalizer.req_body request) "query")); [done|].
    destruct (truthy (jget (Normalizer.req_body request) "operations")); [|done].
    done.
  - unfold Normalizer.getGraphQLInput in Hin.
    destruct (String.eqb (Normalizer.req_method request) "GET"); [done|].
    destruct (String.eqb (Normalizer.req_method request) "POST"); [|done].
    destruct (truthy (jget (Normalizer.req_body request) "query")); [done|].
    destruct (truthy (jget (Normalizer.req_body request) "operations")); [|done].
    destruct (negb _); [done|].
    destruct (truthy _); [|done].
    pose proof (extractMultipartVariables_fuel
                  (Normalizer.po_variables
                     (default {| Normalizer.po_query := JUndefined;
                                 Normalizer.po_variables := JUndefined;
                                 Normalizer.po_operationName := JUndefined |}
                        (jsonParseOperations (jget (Normalizer.req_body request)
                                                "operations"))))
                  (default [] (jsonParseMap (Normalizer.jor
                                               (jget (Normalizer.req_body request) "map")
                                               (JStr EmptyString))))
                  (match Normalizer.req_body request with
                   | JObj _ props =>
                       List.filter (fun '(k, _) => negb (String.eqb k "operations")
                                                && negb (String.eqb k "map")) props
                   | _ => []
                   end)) as Hfuel.
    destruct (Normalizer.extractMultipartVariables _ _ _); simpl in Hin; done.
Qed.

(** * The projector without a schema parameter *)

Lemma ownProps_pickSelectionSet_terminates h fragments variables fuel :
  forall budget selectionSet d data,
    staticDepth fragments budget selectionSet = Some d -> d <= fuel ->
    OwnProps.pickSelectionSet h fragments variables fuel data selectionSet <> OutOfFuel.
Proof.
  induction fuel as [|n IH]; intros budget ss d data Hd Hle.
  - unfold staticDepth in Hd. destruct (levelDepth _ _ _); simplify_eq/=. lia.
  - unfold staticDepth in Hd.
    destruct (levelDepth fragments budget ss) as [L|] eqn:HL; simplify_eq/=.
    pose proof (collectFields_fuel dummySchema fragments variables None ss) as Hc.
    destruct (collectFields _ _ _ _ ss) as [fieldMap| |] eqn:Hcollect; simpl; try done.
    pose proof (collectFields_below _ _ _ _ _ _ _ _ HL Hcollect) as Hbelow.
    assert (foldM_res
              (OwnProps.pickInto h
                 (OwnProps.pickField (OwnProps.pickSelectionSet h fragments variables n))
                 data)
              [] (fieldNodes fieldMap) <> OutOfFuel) as Hfold.
    { apply foldM_res_fuel. intros picked f Hf.
      assert (forall v, OwnProps.pickField
                          (OwnProps.pickSelectionSet h fragments variables n) f v
                        <> OutOfFuel) as Hpick.
      { intros v. unfold OwnProps.pickField.
        specialize (Hbelow f Hf). unfold nestedBelow in Hbelow.
        destruct (field_selectionSet f) as [sub|]; [|done].
        destruct v; try done.
        destruct Hbelow as (b' & d' & Hd' & Hle'). eapply IH; eauto. lia. }
      unfold OwnProps.pickInto.
      destruct (hasOwnProperty h data (field_name f)); [|done].
      destruct (asArray _ _) as [items|].
      - pose proof (mapM_res_fuel
          (OwnProps.pickField (OwnProps.pickSelectionSet h fragments variables n) f)
          items (fun x _ => Hpick x)) as Hmap.
        destruct (mapM_res _ _); simpl; done.
      - specialize (Hpick (getProp h data (field_name f))).
        destruct (OwnProps.pickField _ _ _); simpl; done. }
    destruct (foldM_res _ _ _); simpl; done.
Qed.

Lemma mapM_res_Throw {A B} (f : A -> Res B) (l : list A) (e : Error) :
  mapM_res f l = Throw e -> exists x, x ∈ l /\ f x = Throw e.
Proof.
  induction l as [|x l IH]; intros Hrun; simpl in Hrun; [done|].
  apply res_bind_Throw in Hrun as [H|(y & _ & H)].
  - exists x. split; [by left|done].
  - apply res_bind_Throw in H as [H|(ys & _ & H)]; [|done].
    destruct (IH H) as (z & Hz & Hf). exists z. split; [by right|done].
Qed.

Lemma ownProps_pickSelectionSet_noThrow h fragments variables n :
  map_Forall (fun _ fragment =>
                forallb (evaluableSelection variables)
                        (frag_selectionSet fragment) = true) fragments ->
  forall data selectionSet,
    forallb (evaluableSelection variables) selectionSet = true ->
    noThrow (OwnProps.pickSelectionSet h fragments variables n data selectionSet).
Proof.
  intros Hfragments.
  induction n as [|n IH]; intros data ss Hev; [done|]. simpl.
  pose proof (collectFields_noThrow dummySchema fragments variables None Hfragments
                ss Hev) as Hc.
  destruct (collectFields _ _ _ _ ss) as [fieldMap| |] eqn:Hcollect; simpl; try done.
  destruct (foldM_res _ _ _) as [props|e|] eqn:Hfold; simpl; try done.
  apply foldM_res_Throw in Hfold as (picked & f & Hf & Hstep).
  pose proof (collectFields_sound _ _ _ _ _ _ _ Hcollect Hf) as Hin.
  pose proof (FieldIn_evaluable fragments variables Hfragments _ _ _ Hev Hin) as Hsub.
  assert (forall v,
            noThrow (OwnProps.pickField
                       (OwnProps.pickSelectionSet h fragments variables n) f v))
    as Hpick.
  { intros v. unfold OwnProps.pickField.
    destruct (field_selectionSet f) as [sub|]; [|done].
    destruct v as [| | | | |a]; try done. apply IH. by apply Hsub. }
  unfold OwnProps.pickInto in Hstep.
  destruct (hasOwnProperty h data (field_name f)); [|done].
  apply res_bind_Throw in Hstep as [Hv|(? & _ & ?)]; [|done].
  destruct (asArray h (getProp h data (field_name f))) as [items|].
  - apply res_bind_Throw in Hv as [Hmap|(? & _ & ?)]; [|done].
    apply mapM_res_Throw in Hmap as (item & _ & Hthrow).
    specialize (Hpick item). by rewrite Hthrow in Hpick.
  - specialize (Hpick (getProp h data (field_name f))). by rewrite Hv in Hpick.
Qed.



(** * The projection reads only what the document names *)

Section same_on.
Context (P : string -> bool) (h h' : Heap).
Hypothesis Hsame : sameOn P h h'.

Lemma sameOn_lookup a :
  match h !! a, h' !! a with
  | Some o, Some o' => sameObjectOn P o o'
  | None, None => True
  | _, _ => False
  end.
Proof using Hsame.
  destruct (h !! a) as [o|] eqn:Ho.
  - destruct (Forall2_lookup_l _ _ _ _ _ Hsame Ho) as (o' & -> & Hoo). done.
  - destruct (h' !! a) as [o'|] eqn:Ho'; [|done].
    destruct (Forall2_lookup_r _ _ _ _ _ Hsame Ho') as (o & Ho2 & _). congruence.
Qed.

Lemma getProp_sameOn a k :
  P k = true \/ k = "__typename" -> getProp h' a k = getProp h a k.
Proof using Hsame.
  intros Hk. unfold getProp. pose proof (sameOn_lookup a) as Ha.
  destruct (h !! a) as [[props|items]|], (h' !! a) as [[props'|items']|];
    simpl in Ha; try done.
  - by rewrite (Ha k Hk).
  - by subst.
Qed.

Lemma hasOwnProperty_sameOn a k :
  P k = true -> hasOwnProperty h' a k = hasOwnProperty h a k.
Proof using Hsame.
  intros Hk. unfold hasOwnProperty. pose proof (sameOn_lookup a) as Ha.
  destruct (h !! a) as [[props|items]|], (h' !! a) as [[props'|items']|];
    simpl in Ha; try done.
  rewrite (Ha k); auto.
Qed.

Lemma asArray_sameOn v : asArray h' v = asArray h v.
Proof using Hsame.
  destruct v as [| | | | |a]; try done. simpl.
  pose proof (sameOn_lookup a) as Ha.
  destruct (h !! a) as [[props|items]|], (h' !! a) as [[props'|items']|];
    simpl in Ha; try done.
  by subst.
Qed.

Lemma runtimeObjectOf_sameOn schema a :
  runtimeObjectOf h' schema a = runtimeObjectOf h schema a.
Proof using Hsame. unfold runtimeObjectOf. rewrite getProp_sameOn; auto. Qed.

Section fragments.
Context (fragments : gmap string FragmentDefinitionNode)
        (variables : gmap string Value).
Hypothesis Hfragments :
  map_Forall (fun _ fragment =>
                forallb (namedWithin P) (frag_selectionSet fragment) = true) fragments.

Lemma FieldIn_namedWithin matches f l :
  forallb (namedWithin P) l = true ->
  FieldIn matches variables fragments f l ->
  P (field_name f) = true /\
  forall sub, field_selectionSet f = Some sub -> forallb (namedWithin P) sub = true.
Proof using Hfragments.
  intros Hl Hin. revert Hl.
  induction Hin as [alias name directives sub l Hin Hinc
                   |tc directives body f l Hin Hinc Hm _ IH
                   |name directives fragment f l Hin Hinc Hfrag Hm _ IH];
    intros Hl; rewrite List.forallb_forall in Hl;
    apply list_elem_of_In, Hl in Hin; simpl in Hin.
  - apply andb_true_iff in Hin as [Hname Hsub]. split; [done|].
    by intros sub' [= ->].
  - by apply IH.
  - apply IH. exact (Hfragments _ _ Hfrag).
Qed.

Lemma pickSelectionSet_sameOn schema n :
  forall path data selectionSet runtimeObject,
    forallb (namedWithin P) selectionSet = true ->
    pickSelectionSet h' schema fragments variables n path data selectionSet runtimeObject
    = pickSelectionSet h schema fragments variables n path data selectionSet runtimeObject.
Proof using Hsame Hfragments.
  induction n as [|n IH]; intros path data ss rt Hss; [done|].
  rewrite !pickSelectionSet_S.
  destruct (collectFields _ _ _ _ ss) as [fieldMap| |] eqn:Hcollect; simpl; try done.
  f_equal. apply foldM_res_ext. intros picked f Hf.
  pose proof (collectFields_sound _ _ _ _ _ _ _ Hcollect Hf) as Hin.
  destruct (FieldIn_namedWithin _ _ _ Hss Hin) as [Hname Hsub].
  assert (forall fieldPath v,
            pickField h' schema (pickSelectionSet h' schema fragments variables n)
              fieldPath f v
            = pickField h schema (pickSelectionSet h schema fragments variables n)
                fieldPath f v) as Hpick.
  { intros fieldPath v. unfold pickField.
    destruct (field_selectionSet f) as [sub|]; [|done].
    destruct v as [| | | | |a]; try done.
    rewrite runtimeObjectOf_sameOn, IH by (by apply Hsub). done. }
  unfold pickInto. rewrite getProp_sameOn by auto. rewrite asArray_sameOn.
  destruct (asArray h _) as [items|]; [|by rewrite Hpick].
  f_equal. f_equal. apply mapiM_res_ext. intros; apply Hpick.
Qed.

Lemma ownProps_pickSelectionSet_sameOn n :
  forall data selectionSet,
    forallb (namedWithin P) selectionSet = true ->
    OwnProps.pickSelectionSet h' fragments variables n data selectionSet
    = OwnProps.pickSelectionSet h fragments variables n data selectionSet.
Proof using Hsame Hfragments.
  induction n as [|n IH]; intros data ss Hss; [done|]. simpl.
  destruct (collectFields _ _ _ _ ss) as [fieldMap| |] eqn:Hcollect; simpl; try done.
  f_equal. apply foldM_res_ext. intros picked f Hf.
  pose proof (collectFields_sound _ _ _ _ _ _ _ Hcollect Hf) as Hin.
  destruct (FieldIn_namedWithin _ _ _ Hss Hin) as [Hname Hsub].
  assert (forall v,
            OwnProps.pickField (OwnProps.pickSelectionSet h' fragments variables n) f v
            = OwnProps.pickField (OwnProps.pickSelectionSet h fragments variables n) f v)
    as Hpick.
  { intros v. unfold OwnProps.pickField.
    destruct (field_selectionSet f) as [sub|]; [|done].
    destruct v as [| | | | |a]; try done. by apply IH, Hsub. }
  unfold OwnProps.pickInto.
  rewrite hasOwnProperty_sameOn by done.
  destruct (hasOwnProperty h data (field_name f)); [|done].
  rewrite getProp_sameOn by auto. rewrite asArray_sameOn.
  destruct (asArray h _) as [items|]; [|by rewrite Hpick].
  f_equal. f_equal. apply mapM_res_ext. intros; apply Hpick.
Qed.
End fragments.
End same_on.

Lemma sameOn_guardedNames P h h' : sameOn (guardedNames P) h h' -> sameOn P h h'.
Proof.
  intros Hall. eapply Forall2_impl; [exact Hall|].
  intros [props|items] [props'|items']; simpl; try done.
  intros Hsame k [Hk| ->]; apply Hsame; [|by right].
  left. unfold guardedNames. by rewrite Hk.
Qed.

(** X17: the projection reads only the properties that the document names:
    when every field of every operation and fragment of the document has a
    name in [P], two payload stores whose objects agree on the properties in
    [P] and on [__typename] (and whose arrays are the same) give the same
    outcome with [pickOperationFields], with or without a schema.  The
    variant that guards each field also reads [hasOwnProperty] of every
    object it visits: it gives the same outcome on two stores that agree on
    that property as well.  What else a payload object carries has no
    influence on the result or on the error. *)
Theorem projection_reads_named_properties_only
    (P : string -> bool) (h h' : Heap) (fuel : nat) (data : addr)
    (documentNode : DocumentNode) (operationName : option string)
    (variables : option (gmap string Value)) (schema : option GraphQLSchema) :
  documentWithin P documentNode ->
  (sameOn P h h' ->
   pickOperationFields fuel h' data documentNode operationName variables schema
   = pickOperationFields fuel h data documentNode operationName variables schema) /\
  (sameOn (guardedNames P) h h' ->
   OwnProps.pickOperationFields fuel h' data documentNode operationName variables
   = OwnProps.pickOperationFields fuel h data documentNode operationName variables).
Proof.
  intros [Hops Hfrags].
  enough (sameOn P h h' ->
          pickOperationFields fuel h' data documentNode operationName variables schema
          = pickOperationFields fuel h data documentNode operationName variables schema /\
          OwnProps.pickOperationFields fuel h' data documentNode operationName variables
          = OwnProps.pickOperationFields fuel h data documentNode operationName variables)
    as Hboth.
  { split; intros Hsame; [by apply Hboth|].
    by apply Hboth, sameOn_guardedNames. }
  intros Hsame.
  assert (map_Forall (fun _ fragment =>
                        forallb (namedWithin P) (frag_selectionSet fragment) = true)
                     (fragments (extractDefinitions documentNode))) as Hfragments.
  { intros name fragment Hlook. apply Hfrags.
    unfold extractDefinitions in Hlook; simpl in Hlook.
    apply foldl_insert_lookup in Hlook as [[Hd _]|Hlook]; [|done].
    by apply elem_of_fragments_of. }
  unfold pickOperationFields, OwnProps.pickOperationFields.
  destruct (operations _ !! _) as [operation|] eqn:Hop; [|done].
  assert (forallb (namedWithin P) (op_selectionSet operation) = true) as Hsel.
  { apply Hops. unfold extractDefinitions in Hop; simpl in Hop.
    apply foldl_insert_lookup in Hop as [[Hd _]|Hop]; [|done].
    by apply elem_of_operations_of. }
  split.
  - by apply (pickSelectionSet_sameOn P).
  - by apply (ownProps_pickSelectionSet_sameOn P).
Qed.

Lemma userNameAge_cases k :
  userNameAge k = true -> k = "user" \/ k = "name" \/ k = "age".
Proof.
  unfold userNameAge. rewrite !orb_true_iff, !String.eqb_eq. tauto.
Qed.

Lemma guardedNames_cases k :
  guardedNames userNameAge k = true ->
  k = "user" \/ k = "name" \/ k = "age" \/ k = "hasOwnProperty".
Proof.
  unfold guardedNames. rewrite orb_true_iff, String.eqb_eq.
  intros [Hk|Hk]; [|tauto]. apply userNameAge_cases in Hk. tauto.
Qed.

Lemma projection_reads_named_properties_only_witness :
  pickOperationFields 2 passwordHeap 0 nameAgeQuery None None None
  = pickOperationFields 2 agelessHeap 0 nameAgeQuery None None None /\
  OwnProps.pickOperationFields 2 passwordHeap 0 nameAgeQuery None None
  = OwnProps.pickOperationFields 2 agelessHeap 0 nameAgeQuery None None.
Proof.
  destruct (projection_reads_named_properties_only userNameAge agelessHeap
              passwordHeap 2 0 nameAgeQuery None None None) as [Hmain Hguarded].
  { split; intros d Hd; apply list_elem_of_singleton in Hd.
    + injection Hd as ->. reflexivity.
    + discriminate. }
  split.
  - apply Hmain. repeat constructor.
    + intros k [Hk| ->]; [|reflexivity].
      destruct (userNameAge_cases k Hk) as [-> | [-> | ->]]; reflexivity.
    + intros k [Hk| ->]; [|reflexivity].
      destruct (userNameAge_cases k Hk) as [-> | [-> | ->]]; reflexivity.
  - apply Hguarded. repeat constructor.
    + intros k [Hk| ->]; [|reflexivity].
      destruct (guardedNames_cases k Hk) as [-> | [-> | [-> | ->]]]; reflexivity.
    + intros k [Hk| ->]; [|reflexivity].
      destruct (guardedNames_cases k Hk) as [-> | [-> | [-> | ->]]]; reflexivity.
Defined.

(** * The projection is no deeper than the selection *)

Lemma propsDepth_le L (props : list (string * Out)) :
  fold_right (fun p d => Nat.max (objectDepth (snd p)) d) 0 props <= L <->
  Forall (fun p => objectDepth (snd p) <= L) props.
Proof.
  induction props as [|p props IH]; simpl.
  - split; [constructor|lia].
  - rewrite Forall_cons, <- IH. lia.
Qed.

Lemma itemsDepth_le L (items : list Out) :
  fold_right (fun item d => Nat.max (objectDepth item) d) 0 items <= L <->
  Forall (fun item => objectDepth item <= L) items.
Proof.
  induction items as [|o items IH]; simpl.
  - split; [constructor|lia].
  - rewrite Forall_cons, <- IH. lia.
Qed.

Lemma Forall_setProp {A} (Q : string * A -> Prop) k v (l : list (string * A)) :
  Q (k, v) -> Forall Q l -> Forall Q (setProp k v l).
Proof.
  intros Hv. induction 1 as [|[k' v'] l Hx Hl IH]; simpl.
  - by repeat constructor.
  - destruct (String.eqb k k'); constructor; auto.
Qed.

Lemma mapiM_res_Forall {A B} (Q : B -> Prop) (f : nat -> A -> Res B) (l : list A) :
  (forall i x o, f i x = Ok o -> Q o) ->
  forall i outs, mapiM_res f i l = Ok outs -> Forall Q outs.
Proof.
  intros Hf. induction l as [|x l IH]; intros i outs Hrun; simpl in Hrun.
  - injection Hrun as <-. constructor.
  - apply res_bind_Ok in Hrun as (o & Ho & Hrun).
    apply res_bind_Ok in Hrun as (os & Hos & [= <-]).
    constructor; eauto.
Qed.

Lemma pickSelectionSet_depth h schema fragments variables fuel :
  forall budget selectionSet d path data runtimeObject out,
    staticDepth fragments budget selectionSet = Some d ->
    pickSelectionSet h schema fragments variables fuel path data selectionSet
      runtimeObject = Ok out ->
    objectDepth out <= d.
Proof.
  induction fuel as [|n IH]; intros budget ss d path data rt out Hd Hrun; [done|].
  unfold staticDepth in Hd.
  destruct (levelDepth fragments budget ss) as [L|] eqn:HL; simplify_eq/=.
  apply res_bind_Ok in Hrun as (fieldMap & Hcollect & Hrun).
  apply res_bind_Ok in Hrun as (props & Hfold & [= <-]).
  pose proof (collectFields_below _ _ _ _ _ _ _ _ HL Hcollect) as Hbelow.
  simpl. apply le_n_S, propsDepth_le.
  revert Hfold. apply foldM_res_inv; [|constructor].
  intros picked f picked' Hf Hpicked Hstep.
  assert (forall fieldPath v o,
            pickField h schema (pickSelectionSet h schema fragments variables n)
              fieldPath f v = Ok o -> objectDepth o <= L) as Hpick.
  { intros fieldPath v o Ho. unfold pickField in Ho.
    specialize (Hbelow f Hf). unfold nestedBelow in Hbelow.
    destruct (field_selectionSet f) as [sub|];
      [|injection Ho as <-; simpl; lia].
    destruct v as [| | | | |a]; try (injection Ho as <-; simpl; lia).
    destruct Hbelow as (b' & d' & Hd' & Hle').
    destruct schema, (runtimeObjectOf _ _ _); try done;
      (etrans; [eapply IH; eauto|done]). }
  unfold pickInto in Hstep. apply res_bind_Ok in Hstep as (v & Hv & [= <-]).
  apply Forall_setProp; [|done]. simpl.
  destruct (asArray _ _) as [items|]; [|eauto].
  apply res_bind_Ok in Hv as (outs & Hmap & [= <-]). simpl.
  apply itemsDepth_le. eapply mapiM_res_Forall; [|exact Hmap].
  intros i x o. simpl. apply Hpick.
Qed.

(** X18: the structure that [pickOperationFields] builds is never deeper
    than the selection: when the static depth of the operation's selection
    set with the fragments spliced in is [d], the returned projection nests
    at most [d] objects, however deep or cyclic the payload is.  What lies
    deeper in the payload is reached only through values that the
    projection shares with it. *)
Theorem projection_depth_bounded
    (h : Heap) (data : addr) (documentNode : DocumentNode)
    (operationName : option string) (variables : option (gmap string Value))
    (schema : option GraphQLSchema) (operation : OperationDefinitionNode)
    (budget d fuel : nat) (out : Out) :
  operations (extractDefinitions documentNode)
    !! or_else operationName anonymousOperationKey = Some operation ->
  staticDepth (fragments (extractDefinitions documentNode)) budget
    (op_selectionSet operation) = Some d ->
  pickOperationFields fuel h data documentNode operationName variables schema = Ok out ->
  objectDepth out <= d.
Proof.
  intros Hop Hd. unfold pickOperationFields. rewrite Hop.
  by eapply pickSelectionSet_depth.
Qed.

Lemma projection_depth_bounded_witness : objectDepth siblingsProjection <= 3.
Proof.
  refine (projection_depth_bounded siblingsHeap 0 siblingsQuery None None None
            {| op_operation := QUERY; op_name := None;
               op_selectionSet :=
                 [ node "user"
                     [ leaf "name"; node "siblings" [leaf "name"];
                       node "eldestSibling" [leaf "age"] ] ] |}
            1 3 3 siblingsProjection _ _ _).
  - vm_compute. reflexivity.
  - vm_compute. reflexivity.
  - vm_compute. reflexivity.
Defined.

(** * Projecting a projection *)

(** ** Records of own properties *)

Lemma assoc_None_keys {A} (k : string) (l : list (string * A)) :
  assoc k l = None <-> k ∉ map fst l.
Proof.
  induction l as [|[k' v] l IH]; simpl.
  - split; [intros _; apply not_elem_of_nil|done].
  - rewrite not_elem_of_cons, <- IH.
    destruct (String.eqb k k') eqn:E.
    + apply String.eqb_eq in E. split; [done|]. by intros [? _].
    + apply String.eqb_neq in E. tauto.
Qed.

Lemma setProp_keys_present {A} (k : string) (v : A) (l : list (string * A)) :
  k ∈ map fst l -> map fst (setProp k v l) = map fst l.
Proof.
  induction l as [|[k' v'] l IH]; simpl; [by intros ?%elem_of_nil|].
  destruct (String.eqb k k') eqn:E.
  - apply String.eqb_eq in E. by subst.
  - apply String.eqb_neq in E. intros [?|Hin]%elem_of_cons; [done|].
    simpl. by rewrite IH.
Qed.

Lemma setProp_keys_absent {A} (k : string) (v : A) (l : list (string * A)) :
  k ∉ map fst l -> map fst (setProp k v l) = map fst l ++ [k].
Proof.
  induction l as [|[k' v'] l IH]; simpl; [done|].
  rewrite not_elem_of_cons. intros [Hne Hnot].
  apply String.eqb_neq in Hne. rewrite Hne. simpl. by rewrite IH.
Qed.

(** The keys after an assignment depend on the keys before it only. *)
Lemma setProp_keys_eq {A B} (k : string) (v : A) (w : B) l l' :
  map fst l = map fst l' -> map fst (setProp k v l) = map fst (setProp k w l').
Proof.
  intros Hkeys. destruct (decide (k ∈ map fst l)) as [Hin|Hnot].
  - rewrite !setProp_keys_present; [done|by rewrite <- Hkeys|done].
  - rewrite !setProp_keys_absent; [by rewrite Hkeys|by rewrite <- Hkeys|done].
Qed.

Lemma setProp_keys_NoDup {A} (k : string) (v : A) (l : list (string * A)) :
  NoDup (map fst l) -> NoDup (map fst (setProp k v l)).
Proof.
  intros Hnd. destruct (decide (k ∈ map fst l)) as [Hin|Hnot].
  - by rewrite setProp_keys_present.
  - rewrite setProp_keys_absent by done. apply NoDup_app.
    split; [done|]. split; [|apply NoDup_singleton].
    intros x Hx ->%list_elem_of_singleton. done.
Qed.

(** Two records with the same keys in the same order, each once, and the
    same value under every key are equal. *)
Lemma record_eq {A} (l l' : list (string * A)) :
  map fst l = map fst l' -> NoDup (map fst l) ->
  (forall k, assoc k l = assoc k l') -> l = l'.
Proof.
  revert l'. induction l as [|[k v] l IH]; intros [|[k' v'] l'] Hkeys Hnd Hassoc;
    simpl in Hkeys; try done.
  injection Hkeys as <- Hkeys. apply NoDup_cons in Hnd as [Hnot Hnd].
  pose proof (Hassoc k) as Hk. simpl in Hk. rewrite String.eqb_refl in Hk.
  injection Hk as <-. f_equal. apply IH; [done|done|].
  intros k0. destruct (decide (k0 = k)) as [->|Hne].
  - transitivity (@None A); [|symmetry]; apply assoc_None_keys; [done|].
    by rewrite <- Hkeys.
  - specialize (Hassoc k0). simpl in Hassoc.
    apply String.eqb_neq in Hne. by rewrite Hne in Hassoc.
Qed.

(** The last node of a name among the nodes that have it. *)
Lemma last_node_of_name (k : string) (l : list FieldNode) :
  (exists g, g ∈ l /\ field_name g = k) ->
  exists l1 f l2,
    l = l1 ++ f :: l2 /\ field_name f = k /\
    forall g, g ∈ l2 -> field_name g <> k.
Proof.
  induction l as [|x l IH]; intros (g & Hg & Hname); [by apply elem_of_nil in Hg|].
  destruct (decide (k ∈ map field_name l)) as [Hin|Hnot].
  - apply list_elem_of_fmap in Hin as (g' & Hk & Hg').
    destruct IH as (l1 & f & l2 & -> & Hf & Hlast); [eauto|].
    exists (x :: l1), f, l2. done.
  - assert (forall g', g' ∈ l -> field_name g' <> k) as Hnone.
    { intros g' Hg' Hk. apply Hnot. rewrite <- Hk. by apply list_elem_of_fmap_2. }
    apply elem_of_cons in Hg as [->|Hg]; [|by destruct (Hnone g Hg)].
    exists [], x, l. done.
Qed.

(** ** Folds of the guarded projector *)

Lemma own_fold_same_keys h h' pick pick' data data' l :
  (forall f, f ∈ l ->
             hasOwnProperty h' data' (field_name f)
             = hasOwnProperty h data (field_name f)) ->
  forall picked picked' props props',
    map fst picked = map fst picked' ->
    foldM_res (OwnProps.pickInto h pick data) picked l = Ok props ->
    foldM_res (OwnProps.pickInto h' pick' data') picked' l = Ok props' ->
    map fst props = map fst props'.
Proof.
  induction l as [|x l IH]; intros Hown picked picked' props props' Hkeys H1 H2;
    simpl in H1, H2.
  - by injection H1 as <-; injection H2 as <-.
  - apply res_bind_Ok in H1 as (p1 & Hs1 & H1).
    apply res_bind_Ok in H2 as (p2 & Hs2 & H2).
    apply (IH (fun f Hf => Hown f (list_elem_of_further _ _ _ Hf)) p1 p2 _ _); [|done|done].
    unfold OwnProps.pickInto in Hs1, Hs2.
    rewrite (Hown x) in Hs2 by (by left).
    destruct (hasOwnProperty h data (field_name x)).
    + apply res_bind_Ok in Hs1 as (v1 & _ & [= <-]).
      apply res_bind_Ok in Hs2 as (v2 & _ & [= <-]).
      by apply setProp_keys_eq.
    + by injection Hs1 as <-; injection Hs2 as <-.
Qed.

Lemma own_fold_NoDup h pick data l :
  forall picked props,
    NoDup (map fst picked) ->
    foldM_res (OwnProps.pickInto h pick data) picked l = Ok props ->
    NoDup (map fst props).
Proof.
  intros picked props Hnd Hrun.
  eapply (foldM_res_inv (fun acc => NoDup (map fst acc))); [|exact Hnd|exact Hrun].
  intros acc f acc' _ Hacc Hstep. unfold OwnProps.pickInto in Hstep.
  destruct (hasOwnProperty h data (field_name f)); [|by injection Hstep as <-].
  apply res_bind_Ok in Hstep as (v & _ & [= <-]). by apply setProp_keys_NoDup.
Qed.

Lemma own_fold_other h pick data k l :
  (forall g, g ∈ l -> field_name g <> k) ->
  forall picked props,
    foldM_res (OwnProps.pickInto h pick data) picked l = Ok props ->
    assoc k props = assoc k picked.
Proof.
  induction l as [|x l IH]; intros Hne picked props Hrun; simpl in Hrun.
  - by injection Hrun as <-.
  - apply res_bind_Ok in Hrun as (picked1 & Hstep & Hrest).
    rewrite (IH (fun g Hg => Hne g (list_elem_of_further _ _ _ Hg)) _ _ Hrest).
    unfold OwnProps.pickInto in Hstep.
    destruct (hasOwnProperty h data (field_name x)); [|by injection Hstep as <-].
    apply res_bind_Ok in Hstep as (v & _ & [= <-]).
    apply assoc_setProp_ne, Hne. by left.
Qed.

(** The last node of a name that the payload has decides the value. *)
Lemma own_fold_last h pick data l1 f l2 picked props :
  (forall g, g ∈ l2 -> field_name g <> field_name f) ->
  hasOwnProperty h data (field_name f) = true ->
  foldM_res (OwnProps.pickInto h pick data) picked (l1 ++ f :: l2) = Ok props ->
  exists v,
    OwnProps.pickInto h pick data [] f = Ok [(field_name f, v)] /\
    assoc (field_name f) props = Some v.
Proof.
  intros Hne Hown Hrun. rewrite foldM_res_app in Hrun.
  apply res_bind_Ok in Hrun as (picked1 & _ & Hrun). simpl in Hrun.
  apply res_bind_Ok in Hrun as (picked2 & Hstep & Hrest).
  rewrite (own_fold_other _ _ _ _ _ Hne _ _ Hrest).
  unfold OwnProps.pickInto in *. rewrite Hown in *.
  apply res_bind_Ok in Hstep as (v & Hv & [= <-]).
  exists v. rewrite Hv. simpl. split; [done|]. apply assoc_setProp_eq.
Qed.

(** ** Reading a represented object *)

Lemma representsProps_assoc n lo h ps props k :
  representsProps n lo h ps props ->
  match assoc k props with
  | Some o => exists v, assoc k ps = Some v /\ represents n lo h v o
  | None => assoc k ps = None
  end.
Proof.
  revert ps. induction props as [|[k0 o] props IH]; intros [|[k1 v] ps] Hrep;
    simpl in Hrep; try done.
  destruct Hrep as (-> & Hv & Hrest). simpl.
  destruct (String.eqb k k0); [eauto|]. by apply IH.
Qed.

Lemma representsAll_lookup n lo h items outs i o :
  representsAll n lo h items outs -> outs !! i = Some o ->
  exists v, items !! i = Some v /\ represents n lo h v o.
Proof.
  revert items i. induction outs as [|o' outs IH]; intros [|v items] i Hrep Hi;
    simpl in Hrep; try done.
  destruct Hrep as [Hv Hrest]. destruct i as [|i]; simpl in Hi.
  - injection Hi as <-. eauto.
  - by apply (IH items i).
Qed.

Lemma representsAll_length n lo h items outs :
  representsAll n lo h items outs -> length items = length outs.
Proof.
  revert items. induction outs as [|o outs IH]; intros [|v items] Hrep;
    simpl in Hrep; try done.
  destruct Hrep as [_ Hrest]. simpl. by rewrite (IH items).
Qed.

(** ** The second projection *)

Lemma ownProps_pickSelectionSet_S h fragments variables n data selectionSet :
  OwnProps.pickSelectionSet h fragments variables (S n) data selectionSet =
  let* fieldMap := collectFields dummySchema fragments variables None selectionSet in
  let* pickedData :=
    foldM_res (OwnProps.pickInto h
                 (OwnProps.pickField (OwnProps.pickSelectionSet h fragments variables n))
                 data)
              [] (fieldNodes fieldMap) in
  Ok (OObj pickedData).
Proof. reflexivity. Qed.

Lemma ownProps_pickSelectionSet_object h fragments variables n data selectionSet out :
  OwnProps.pickSelectionSet h fragments variables n data selectionSet = Ok out ->
  exists props, out = OObj props.
Proof.
  destruct n as [|n]; [done|]. rewrite ownProps_pickSelectionSet_S.
  intros (fieldMap & _ & Hrun)%res_bind_Ok.
  apply res_bind_Ok in Hrun as (props & _ & [= <-]). eauto.
Qed.

Lemma mapM_res_again {A A' B} (R : A' -> B -> Prop) (f : A -> Res B) (g : A' -> Res B) :
  forall (items : list A) (outs : list B) (items' : list A'),
    (forall x o v, x ∈ items -> f x = Ok o -> R v o -> g v = Ok o) ->
    mapM_res f items = Ok outs ->
    Forall2 R items' outs ->
    mapM_res g items' = Ok outs.
Proof.
  induction items as [|x items IH]; intros outs items' Hfg Hrun Hrep; simpl in Hrun.
  - injection Hrun as <-. by inversion Hrep.
  - apply res_bind_Ok in Hrun as (o & Ho & Hrun).
    apply res_bind_Ok in Hrun as (os & Hos & [= <-]).
    inversion Hrep as [|v o' items'' os' Hv Hrest]; subst. simpl.
    assert (g v = Ok o) as -> by (eapply Hfg; eauto; by left). simpl.
    assert (mapM_res g items'' = Ok os) as ->; [|done].
    apply IH; [|done|done]. intros; eapply Hfg; eauto. by right.
Qed.

Lemma representsAll_Forall2 n lo h items outs :
  representsAll n lo h items outs -> Forall2 (represents n lo h) items outs.
Proof.
  revert items. induction outs as [|o outs IH]; intros [|v items] Hrep;
    simpl in Hrep; try done.
  destruct Hrep as [Hv Hrest]. constructor; auto.
Qed.

Section again.
Context (h h' : Heap) (n lo : nat)
        (fragments : gmap string FragmentDefinitionNode)
        (variables : gmap string Value).
Hypothesis Hagree : agreeBelow n h h'.
Hypothesis Hfragments :
  map_Forall (fun _ fragment =>
                forallb (evaluableSelection variables)
                        (frag_selectionSet fragment) = true) fragments.

Abbreviation first' := (OwnProps.pickSelectionSet h fragments variables).
Abbreviation second' := (OwnProps.pickSelectionSet h' fragments variables).

Abbreviation againUpTo := (projectsAgain h h' n lo fragments variables).

Lemma own_pickField_again m f x o v' :
  againUpTo m ->
  (forall sub, field_selectionSet f = Some sub ->
               forallb (evaluableSelection variables) sub = true /\
               exists budget d, staticDepth fragments budget sub = Some d /\ d <= m) ->
  OwnProps.pickField (first' m) f x = Ok o ->
  represents n lo h' v' o ->
  OwnProps.pickField (second' m) f v' = Ok o /\
  (asArray h x = None -> asArray h' v' = None).
Proof using Hagree.
  intros IH Hnested Hfirst Hrep. unfold OwnProps.pickField in *.
  assert (o = OVal x -> v' = x /\ (asArray h x = None -> asArray h' v' = None))
    as Hleaf.
  { intros ->. simpl in Hrep. destruct Hrep as [-> Hclosed]. split; [done|].
    intros Harr. by rewrite (asArray_agree n h h'). }
  destruct (field_selectionSet f) as [sub|] eqn:Hsub.
  2:{ injection Hfirst as <-. destruct (Hleaf eq_refl) as [-> ?]. done. }
  destruct x as [| | | | |a];
    try (injection Hfirst as <-; destruct (Hleaf eq_refl) as [-> ?]; done).
  destruct (ownProps_pickSelectionSet_object _ _ _ _ _ _ _ Hfirst) as [props ->].
  pose proof Hrep as Hrep'.
  apply represents_OObj in Hrep' as (a' & ps & -> & _ & Hcell & _).
  destruct (Hnested sub eq_refl) as (Hev & budget & d & Hd & Hle). split.
  - eapply IH; eauto.
  - intros _. simpl. by rewrite Hcell.
Qed.
End again.

Section again_levels.
Context (h h' : Heap) (n lo : nat)
        (fragments : gmap string FragmentDefinitionNode)
        (variables : gmap string Value).
Hypothesis Hagree : agreeBelow n h h'.
Hypothesis Hfragments :
  map_Forall (fun _ fragment =>
                forallb (evaluableSelection variables)
                        (frag_selectionSet fragment) = true) fragments.

(** The value assigned for a node, in the first and in the second run. *)
Lemma own_value_again m f x o v' :
  projectsAgain h h' n lo fragments variables m ->
  (forall sub, field_selectionSet f = Some sub ->
               forallb (evaluableSelection variables) sub = true /\
               exists budget d, staticDepth fragments budget sub = Some d /\ d <= m) ->
  match asArray h x with
  | Some items =>
      let* picked :=
        mapM_res (OwnProps.pickField
                    (OwnProps.pickSelectionSet h fragments variables m) f) items in
      Ok (OArr picked)
  | None =>
      OwnProps.pickField (OwnProps.pickSelectionSet h fragments variables m) f x
  end = Ok o ->
  represents n lo h' v' o ->
  match asArray h' v' with
  | Some items =>
      let* picked :=
        mapM_res (OwnProps.pickField
                    (OwnProps.pickSelectionSet h' fragments variables m) f) items in
      Ok (OArr picked)
  | None =>
      OwnProps.pickField (OwnProps.pickSelectionSet h' fragments variables m) f v'
  end = Ok o.
Proof using Hagree.
  intros IH Hnested Hfirst Hrep.
  destruct (asArray h x) as [items|] eqn:Harr.
  - apply res_bind_Ok in Hfirst as (outs & Hmap & [= <-]).
    apply represents_OArr in Hrep as (a' & items' & -> & _ & Hcell & Hall).
    simpl. rewrite Hcell.
    assert (mapM_res (OwnProps.pickField
                        (OwnProps.pickSelectionSet h' fragments variables m) f) items'
            = Ok outs) as ->; [|done].
    eapply (mapM_res_again (represents n lo h'));
      [|exact Hmap|by apply representsAll_Forall2].
    intros y o v _ Hy Hv.
    by destruct (own_pickField_again h h' n lo fragments variables Hagree
                   m f y o v IH Hnested Hy Hv).
  - destruct (own_pickField_again h h' n lo fragments variables Hagree
                m f x o v' IH Hnested Hfirst Hrep) as [Hsecond Hnot].
    by rewrite (Hnot Harr).
Qed.

Lemma own_pickSelectionSet_again m : projectsAgain h h' n lo fragments variables m.
Proof using Hagree Hfragments.
  induction m as [|m IH]; intros budget ss d data data' out Hd Hle Hev Hfirst Hrep;
    [done|].
  pose proof (ownProps_pickSelectionSet_terminates h' fragments variables (S m)
                budget ss d data' Hd Hle) as Hterm.
  pose proof (ownProps_pickSelectionSet_noThrow h' fragments variables (S m)
                Hfragments data' ss Hev) as Hno.
  rewrite ownProps_pickSelectionSet_S in *.
  unfold staticDepth in Hd.
  destruct (levelDepth fragments budget ss) as [L|] eqn:HL; simplify_eq/=.
  destruct (collectFields _ _ _ _ ss) as [fieldMap| |] eqn:Hcollect; simpl in *;
    try done.
  apply res_bind_Ok in Hfirst as (props & Hfold & [= <-]).
  destruct (foldM_res _ [] (fieldNodes fieldMap)) as [props2| |] eqn:Hfold2 in Hterm, Hno;
    simpl in *; try done.
  rewrite Hfold2. simpl. do 2 f_equal.
  apply represents_OObj in Hrep as (a & ps & [= <-] & _ & Hcell & Hprops).
  (* what the nodes select below *)
  assert (forall f, f ∈ fieldNodes fieldMap ->
            forall sub, field_selectionSet f = Some sub ->
              forallb (evaluableSelection variables) sub = true /\
              exists budget d, staticDepth fragments budget sub = Some d /\ d <= m)
    as Hnested.
  { intros f Hf sub Hsub. split.
    - eapply (FieldIn_evaluable fragments variables Hfragments); eauto.
      eapply collectFields_sound; eauto.
    - pose proof (collectFields_below _ _ _ _ _ _ _ _ HL Hcollect f Hf) as Hbelow.
      unfold nestedBelow in Hbelow. rewrite Hsub in Hbelow.
      destruct Hbelow as (b' & d' & Hd' & Hle'). exists b', d'. split; [done|lia]. }
  (* the second run sees the keys of the first projection as own properties *)
  assert (forall k, hasOwnProperty h' data' k = bool_decide (is_Some (assoc k props)))
    as Hown2.
  { intros k. unfold hasOwnProperty. rewrite Hcell.
    pose proof (representsProps_assoc _ _ _ _ _ k Hprops) as Hk.
    destruct (assoc k props) as [o|].
    - destruct Hk as (v & -> & _). by rewrite !bool_decide_eq_true_2 by eauto.
    - rewrite Hk. by rewrite !bool_decide_eq_false_2 by (by intros [? ?]). }
  assert (forall f, f ∈ fieldNodes fieldMap ->
            hasOwnProperty h' data' (field_name f)
            = hasOwnProperty h data (field_name f)) as Hown.
  { intros f Hf. rewrite Hown2.
    destruct (hasOwnProperty h data (field_name f)) eqn:Hown1.
    - apply bool_decide_eq_true_2. eapply fold_pickInto_own_key; eauto.
    - apply bool_decide_eq_false_2. intros Hk.
      destruct (fold_pickInto_own_keys_from _ _ _ _ _ _ _ Hfold Hk)
        as [[? [=]]|[Hown1' _]]. congruence. }
  pose proof (own_fold_same_keys _ _ _ _ _ _ _ Hown [] [] _ _ eq_refl Hfold Hfold2)
    as Hkeys.
  symmetry. apply record_eq; [done| |].
  { eapply own_fold_NoDup; [|exact Hfold]. constructor. }
  intros k. destruct (assoc k props) as [o|] eqn:Hk.
  - destruct (fold_pickInto_own_keys_from _ _ _ _ _ _ _ Hfold (mk_is_Some _ _ Hk))
      as [[? [=]]|(Hown1 & g & Hg & Hname)].
    destruct (last_node_of_name k (fieldNodes fieldMap)) as (l1 & f & l2 & Hl & <- & Hlast);
      [eauto|].
    assert (f ∈ fieldNodes fieldMap) as Hf
      by (rewrite Hl; apply elem_of_app; right; by left).
    rewrite Hl in Hfold, Hfold2.
    destruct (own_fold_last _ _ _ _ _ _ _ _ Hlast Hown1 Hfold) as (v1 & Hv1 & Hassoc1).
    assert (hasOwnProperty h' data' (field_name f) = true) as Hown2'
      by (by rewrite (Hown f Hf)).
    destruct (own_fold_last _ _ _ _ _ _ _ _ Hlast Hown2' Hfold2) as (v2 & Hv2 & Hassoc2).
    rewrite Hk in Hassoc1. injection Hassoc1 as <-.
    rewrite Hassoc2. f_equal.
    unfold OwnProps.pickInto in Hv1, Hv2. rewrite Hown1 in Hv1. rewrite Hown2' in Hv2.
    apply res_bind_Ok in Hv1 as (w1 & Hw1 & [= <-]).
    apply res_bind_Ok in Hv2 as (w2 & Hw2 & [= <-]).
    pose proof (representsProps_assoc _ _ _ _ _ (field_name f) Hprops) as Hread.
    rewrite Hk in Hread. destruct Hread as (v' & Hv' & Hrep').
    assert (getProp h' data' (field_name f) = v') as Hget
      by (unfold getProp; by rewrite Hcell, Hv').
    rewrite Hget in Hw2.
    pose proof (own_value_again m f _ _ v' IH (Hnested f Hf) Hw1 Hrep') as Hsame.
    congruence.
  - symmetry. apply assoc_None_keys. rewrite <- Hkeys. by apply assoc_None_keys.
Qed.
End again_levels.

(** X19: projecting a projection changes nothing.  When the guarded
    projector has returned [out] for a payload, and a store [h'] that still
    holds the payload objects (those below [n]) also holds [out] as objects
    and arrays of its own at [data'], then the projector run on [data'] with
    the same document, operation name and variables returns [out] again,
    provided the operation's static depth is within the budget and its
    directives can be evaluated. *)
Theorem ownProps_projection_idempotent
    (h h' : Heap) (n lo : nat) (data data' : addr) (documentNode : DocumentNode)
    (operationName : option string) (variables : option (gmap string Value))
    (operation : OperationDefinitionNode) (budget d fuel : nat) (out : Out) :
  operations (extractDefinitions documentNode)
    !! or_else operationName anonymousOperationKey = Some operation ->
  staticDepth (fragments (extractDefinitions documentNode)) budget
    (op_selectionSet operation) = Some d ->
  d <= fuel ->
  evaluableDocument (default ∅ variables) (fragments (extractDefinitions documentNode))
    (op_selectionSet operation) ->
  OwnProps.pickOperationFields fuel h data documentNode operationName variables
    = Ok out ->
  agreeBelow n h h' ->
  represents n lo h' (VRef data') out ->
  OwnProps.pickOperationFields fuel h' data' documentNode operationName variables
  = Ok out.
Proof.
  intros Hop Hd Hle [Hev Hfragments] Hfirst Hagree Hrep.
  unfold OwnProps.pickOperationFields in *. rewrite Hop in *.
  eapply (own_pickSelectionSet_again h h' n lo); eauto.
Qed.

Lemma ownProps_projection_idempotent_witness :
  OwnProps.pickOperationFields 2 projectedHeap 3 nameAgeQuery None None
  = Ok (OObj [("user", OObj [("name", OVal (VStr "Jack"))])]).
Proof.
  refine (ownProps_projection_idempotent agelessHeap projectedHeap 2 2 0 3 nameAgeQuery
            None None
            {| op_operation := QUERY; op_name := None;
               op_selectionSet := [ node "user" [ leaf "name"; leaf "age" ] ] |}
            1 2 2 (OObj [("user", OObj [("name", OVal (VStr "Jack"))])])
            _ _ _ _ _ _ _).
  - vm_compute. reflexivity.
  - vm_compute. reflexivity.
  - lia.
  - split; [reflexivity|]. intros name fragment Hlook. vm_compute in Hlook. discriminate.
  - vm_compute. reflexivity.
  - intros [|[|a]] Ha; [reflexivity|reflexivity|lia].
  - simpl. exists 3, [("user", VRef 2)]. split; [done|]. split; [lia|].
    split; [reflexivity|]. split; [done|]. split; [|done].
    exists 2, [("name", VStr "Jack")]. split; [done|]. split; [lia|].
    split; [reflexivity|]. split; [done|]. split; [|done]. split; [done|]. done.
Defined.

(** * What the schema changes *)

Section type_free.
Context (schema schema' : GraphQLSchema)
        (fragments : gmap string FragmentDefinitionNode)
        (variableValues : gmap string Value)
        (runtimeType runtimeType' : option GraphQLNamedType).

Lemma collectSelections_typeFree spread spread' sub :
  Forall (fun s => typeFree s = true ->
                   forall st,
                     collectSelection schema fragments variableValues runtimeType
                       spread s st
                     = collectSelection schema' fragments variableValues runtimeType'
                         spread' s st) sub ->
  forallb typeFree sub = true ->
  forall st,
    collectSelections schema fragments variableValues runtimeType spread sub st
    = collectSelections schema' fragments variableValues runtimeType' spread' sub st.
Proof.
  induction 1 as [|s sub Hs _ IH]; intros Hfree st; [done|].
  simpl in Hfree. apply andb_true_iff in Hfree as [Hfree1 Hfree2].
  rewrite !collectSelections_cons, Hs by done.
  destruct (collectSelection _ _ _ _ _ s st); simpl; auto.
Qed.

Lemma collectSelection_typeFree spread spread' s :
  typeFree s = true ->
  forall st,
    collectSelection schema fragments variableValues runtimeType spread s st
    = collectSelection schema' fragments variableValues runtimeType' spread' s st.
Proof.
  induction s as [alias name directives|alias name directives sub IH
                 |name directives|tc directives sub IH]
    using Selection_nested_ind; intros Hfree st; try done.
  rewrite !collectSelection_inline. simpl in Hfree.
  destruct tc as [tc|]; [done|].
  destruct (shouldIncludeNode variableValues directives) as [inc| |]; simpl; try done.
  destruct inc; simpl; [|done].
  by apply collectSelections_typeFree.
Qed.

Lemma collectFields_typeFree selectionSet :
  forallb typeFree selectionSet = true ->
  collectFields schema fragments variableValues runtimeType selectionSet
  = collectFields schema' fragments variableValues runtimeType' selectionSet.
Proof.
  intros Hfree. unfold collectFields. simpl.
  rewrite (collectSelections_typeFree _
             (collectFieldsImpl schema' fragments variableValues runtimeType'
                (size fragments))); [done| |done].
  apply Forall_forall. intros s _ Hs st. by apply collectSelection_typeFree.
Qed.
End type_free.

Lemma FieldIn_typeFree matches variableValues fragments f l :
  forallb typeFree l = true ->
  FieldIn matches variableValues fragments f l ->
  forall sub, field_selectionSet f = Some sub -> forallb typeFree sub = true.
Proof.
  intros Hl Hin. revert Hl.
  induction Hin as [alias name directives sub l Hin Hinc
                   |tc directives body f l Hin Hinc Hm _ IH
                   |name directives fragment f l Hin Hinc Hfrag Hm _ IH];
    intros Hl; rewrite List.forallb_forall in Hl;
    apply list_elem_of_In, Hl in Hin; simpl in Hin.
  - by intros sub' [= ->].
  - destruct tc; [done|]. by apply IH.
  - done.
Qed.

Lemma sameUnlessUntyped_refl {A} (r : Res A) : sameUnlessUntyped r r.
Proof. by left. Qed.

Lemma sameUnlessUntyped_bind {A B} (m m' : Res A) (k k' : A -> Res B) :
  sameUnlessUntyped m m' ->
  (forall a, m = Ok a -> sameUnlessUntyped (k a) (k' a)) ->
  sameUnlessUntyped (res_bind m k) (res_bind m' k').
Proof.
  intros [<-|[path ->]] Hk; [|right; eauto].
  destruct m as [a| |]; simpl; [auto|by left|by left].
Qed.

Lemma foldM_res_sameUnlessUntyped {A S} (f g : S -> A -> Res S) (l : list A) :
  (forall s x, x ∈ l -> sameUnlessUntyped (f s x) (g s x)) ->
  forall s, sameUnlessUntyped (foldM_res f s l) (foldM_res g s l).
Proof.
  induction l as [|x l IH]; intros Hfg s; simpl; [by left|].
  apply sameUnlessUntyped_bind; [apply Hfg; by left|].
  intros s' _. apply IH. intros; apply Hfg. by right.
Qed.

Lemma mapiM_res_sameUnlessUntyped {A B} (f g : nat -> A -> Res B) (l : list A) :
  (forall i x, sameUnlessUntyped (f i x) (g i x)) ->
  forall i, sameUnlessUntyped (mapiM_res f i l) (mapiM_res g i l).
Proof.
  intros Hfg. induction l as [|x l IH]; intros i; simpl; [by left|].
  apply sameUnlessUntyped_bind; [apply Hfg|]. intros y _.
  apply sameUnlessUntyped_bind; [apply IH|]. intros ys _. by left.
Qed.

Lemma pickSelectionSet_typeFree h (s : GraphQLSchema) fragments variables n :
  forall path data selectionSet runtimeObject runtimeObject',
    forallb typeFree selectionSet = true ->
    sameUnlessUntyped
      (pickSelectionSet h (Some s) fragments variables n path data selectionSet
         runtimeObject)
      (pickSelectionSet h None fragments variables n path data selectionSet
         runtimeObject').
Proof.
  induction n as [|n IH]; intros path data ss rt rt' Hfree; [by left|].
  rewrite !pickSelectionSet_S.
  rewrite (collectFields_typeFree (schemaOf (Some s)) (schemaOf None) fragments
             variables rt rt' ss Hfree).
  destruct (collectFields _ _ _ _ ss) as [fieldMap| |] eqn:Hcollect; simpl;
    [|by left|by left].
  apply sameUnlessUntyped_bind; [|intros; by left].
  apply foldM_res_sameUnlessUntyped. intros picked f Hf.
  pose proof (collectFields_sound _ _ _ _ _ _ _ Hcollect Hf) as Hin.
  pose proof (FieldIn_typeFree _ _ _ _ _ Hfree Hin) as Hsub.
  assert (forall fieldPath v,
            sameUnlessUntyped
              (pickField h (Some s) (pickSelectionSet h (Some s) fragments variables n)
                 fieldPath f v)
              (pickField h None (pickSelectionSet h None fragments variables n)
                 fieldPath f v)) as Hpick.
  { intros fieldPath v. unfold pickField.
    destruct (field_selectionSet f) as [sub|]; [|by left].
    destruct v as [| | | | |a]; try (by left).
    destruct (runtimeObjectOf h (Some s) a) as [t|]; [|right; eauto].
    destruct (runtimeObjectOf h None a); by apply IH, Hsub. }
  unfold pickInto. apply sameUnlessUntyped_bind; [|intros; by left].
  destruct (asArray h _) as [items|]; [|apply Hpick].
  apply sameUnlessUntyped_bind; [|intros; by left].
  apply mapiM_res_sameUnlessUntyped. intros; apply Hpick.
Qed.

(** X20: for an operation whose selections carry no type condition (no
    fragment spread and no inline fragment with a type condition, at any
    depth), passing a schema changes one thing only: the projection may
    stop with the type-inference error.  Whenever it does not, its outcome
    is the outcome of the projection without a schema, result or error. *)
Theorem schema_matters_for_type_conditions_only
    (fuel : nat) (h : Heap) (data : addr) (documentNode : DocumentNode)
    (operationName : option string) (variables : option (gmap string Value))
    (s : GraphQLSchema) :
  (forall d, OperationDefinition d ∈ definitions documentNode ->
             forallb typeFree (op_selectionSet d) = true) ->
  pickOperationFields fuel h data documentNode operationName variables (Some s)
  = pickOperationFields fuel h data documentNode operationName variables None \/
  exists path,
    pickOperationFields fuel h data documentNode operationName variables (Some s)
    = Throw (InferTypeError path).
Proof.
  intros Hfree. unfold pickOperationFields.
  destruct (operations _ !! _) as [operation|] eqn:Hop; [|by left].
  apply pickSelectionSet_typeFree, Hfree.
  unfold extractDefinitions in Hop; simpl in Hop.
  apply foldl_insert_lookup in Hop as [[Hd _]|Hop]; [|done].
  by apply elem_of_operations_of.
Qed.

Lemma schema_matters_for_type_conditions_only_witness :
  pickOperationFields 4 employerHeap 0 employerQuery None (Some ∅) (Some testSchema)
  = pickOperationFields 4 employerHeap 0 employerQuery None (Some ∅) None \/
  exists path,
    pickOperationFields 4 employerHeap 0 employerQuery None (Some ∅) (Some testSchema)
    = Throw (InferTypeError path).
Proof.
  apply (schema_matters_for_type_conditions_only 4 employerHeap 0 employerQuery None
           (Some ∅) testSchema).
  intros d Hd. apply list_elem_of_singleton in Hd. injection Hd as ->. reflexivity.
Defined.
